(** * Audioneex OTA sample: audio blocks and the key-value data store

    A shallow embedding of [jni/include/AudioBlock.h],
    [jni/include/KVDataStore.h] and [jni/TCDataStore.h], followed by the
    properties established about them.

    Conventions of the embedding:
    - [size_t], [int] and the fixed-width integers are [Z]; where the C++
      arithmetic can wrap, the wrap-around is written out ([size_t_wrap]).
      The width of [size_t] and the presence of [NDEBUG] are properties of
      the build, collected in [Build].
    - [float] is IEEE-754 binary32, through [SpecFloat] at precision 24.
    - a pointer to a buffer is an [option (list _)]: [None] is [nullptr],
      [Some l] points to an array whose extent is [length l].
    - a call either returns, or stops on a failed [assert], or leaves the
      defined behaviour of C++ (an access outside a buffer); the last two
      are the faults of the [result] monad. *)

From Stdlib Require Import ZArith Lia Bool List.
From Stdlib Require Import Floats.SpecFloat.
From Stdlib Require Strings.Byte.
From stdpp Require Import base option list gmap.

Local Open Scope Z_scope.

(** ** Results of calls *)

Inductive result (E A : Type) : Type :=
| Ok (a : A)
| Err (e : E).

Arguments Ok {E A} a.
Arguments Err {E A} e.

Definition bind {E A B : Type} (m : result E A) (k : A → result E B) : result E B :=
  match m with
  | Ok a => k a
  | Err e => Err e
  end.

Notation "'let*' x ':=' m 'in' k" := (bind m (fun x => k))
  (at level 10, x pattern, m at level 100, k at level 200).

(** ** Build configuration *)

Record Build : Type := mkBuild {
  NDEBUG : bool;      (* assert() compiled out *)
  SIZE_BITS : nat     (* width of size_t *)
}.

Inductive Fault : Type :=
| AssertionFailed
| UndefinedBehaviour.

(** The number of values of [size_t]. *)
Definition size_t_range (bld : Build) : Z := 2 ^ Z.of_nat (SIZE_BITS bld).

Definition size_t_wrap (bld : Build) (z : Z) : Z := z mod size_t_range bld.

(** [assert(c)] of <cassert>. *)
Definition c_assert (bld : Build) (c : bool) : result Fault unit :=
  if NDEBUG bld then Ok tt else if c then Ok tt else Err AssertionFailed.

(** ** binary32 arithmetic *)

Definition float : Type := spec_float.

Definition float_of_size (n : Z) : float := binary_normalize 24 128 n 0 false.
Definition fmul (x y : float) : float := SFmul 24 128 x y.
Definition fdiv (x y : float) : float := SFdiv 24 128 x y.
Definition fzero : float := S754_zero false.
Definition fone : float := float_of_size 1.
(** 2^k, for k within the exponent range. *)
Definition fpow2 (k : Z) : float := binary_normalize 24 128 1 k false.

(** ** Buffers *)

(** [memcpy(dst + doff, src + soff, n)], counted in elements. The byte
    count [n * sizeof(T)] of the source is the same copy, since every
    count passed is bounded by the extent of an allocated array. A copy
    of no element touches nothing. *)
Definition memcpy {T : Type} (dst : option (list T)) (doff : Z)
    (src : option (list T)) (soff n : Z) : result Fault (option (list T)) :=
  if n =? 0 then Ok dst else
  match dst, src with
  | Some d, Some s =>
      if (0 <=? doff) && (doff + n <=? Z.of_nat (length d))
         && (0 <=? soff) && (soff + n <=? Z.of_nat (length s))
      then Ok (Some (take (Z.to_nat doff) d
                     ++ take (Z.to_nat n) (drop (Z.to_nat soff) s)
                     ++ drop (Z.to_nat (doff + n)) d))
      else Err UndefinedBehaviour
  | _, _ => Err UndefinedBehaviour
  end.

(** * AudioBlock.h *)

Module AudioBlock.

(** What the template needs of its sample type [T]. *)
Class Sample (T : Type) : Type := {
  sizeof : Z;            (* sizeof(T) *)
  zero_sample : T;       (* the value of all-zero bytes *)
  is_Sfloat : bool       (* T = Sfloat, which has its own specialisations *)
}.

Record AudioBlock (T : Type) : Type := mkAudioBlock {
  mCapacity : Z;
  mDuration : float;
  mSize : Z;
  mSampleRate : float;
  mChannels : Z;
  mData : option (list T);
  mID : Z;
  mTimestamp : Z;
  mNormFactor : float
}.

Arguments mkAudioBlock {T}.
Arguments mCapacity {T}.
Arguments mDuration {T}.
Arguments mSize {T}.
Arguments mSampleRate {T}.
Arguments mChannels {T}.
Arguments mData {T}.
Arguments mID {T}.
Arguments mTimestamp {T}.
Arguments mNormFactor {T}.

Section Methods.
Context {T : Type} `{Sample T}.
Variable bld : Build.

Definition set_mSize (v : Z) (b : AudioBlock T) : AudioBlock T :=
  mkAudioBlock (mCapacity b) (mDuration b) v (mSampleRate b) (mChannels b)
               (mData b) (mID b) (mTimestamp b) (mNormFactor b).

Definition set_mDuration (v : float) (b : AudioBlock T) : AudioBlock T :=
  mkAudioBlock (mCapacity b) v (mSize b) (mSampleRate b) (mChannels b)
               (mData b) (mID b) (mTimestamp b) (mNormFactor b).

Definition set_mChannels (v : Z) (b : AudioBlock T) : AudioBlock T :=
  mkAudioBlock (mCapacity b) (mDuration b) (mSize b) (mSampleRate b) v
               (mData b) (mID b) (mTimestamp b) (mNormFactor b).

Definition set_mData (v : option (list T)) (b : AudioBlock T) : AudioBlock T :=
  mkAudioBlock (mCapacity b) (mDuration b) (mSize b) (mSampleRate b) (mChannels b)
               v (mID b) (mTimestamp b) (mNormFactor b).

Definition set_mNormFactor (v : float) (b : AudioBlock T) : AudioBlock T :=
  mkAudioBlock (mCapacity b) (mDuration b) (mSize b) (mSampleRate b) (mChannels b)
               (mData b) (mID b) (mTimestamp b) v.

Definition Capacity (b : AudioBlock T) : Z := mCapacity b.
Definition Size (b : AudioBlock T) : Z := mSize b.
Definition Data (b : AudioBlock T) : option (list T) := mData b.
Definition SampleRate (b : AudioBlock T) : float := mSampleRate b.
Definition Channels (b : AudioBlock T) : Z := mChannels b.
Definition ID (b : AudioBlock T) : Z := mID b.
Definition Timestamp (b : AudioBlock T) : Z := mTimestamp b.
Definition NormFactor (b : AudioBlock T) : float := mNormFactor b.

Definition IsNull (b : AudioBlock T) : bool :=
  match mData b with
  | None => true
  | Some _ => false
  end.

Definition SetID (id : Z) (b : AudioBlock T) : AudioBlock T :=
  mkAudioBlock (mCapacity b) (mDuration b) (mSize b) (mSampleRate b) (mChannels b)
               (mData b) id (mTimestamp b) (mNormFactor b).

Definition SetTimestamp (tstamp : Z) (b : AudioBlock T) : AudioBlock T :=
  mkAudioBlock (mCapacity b) (mDuration b) (mSize b) (mSampleRate b) (mChannels b)
               (mData b) (mID b) tstamp (mNormFactor b).

(** [SetChannels(int nchans)] *)
Definition SetChannels (nchans : Z) (b : AudioBlock T) : result Fault (AudioBlock T) :=
  let* _ := c_assert bld (0 <? nchans) in
  Ok (set_mChannels (size_t_wrap bld nchans) b).

(** [operator[](size_t i)] returns a reference to [mData[i]]: the sample
    read through it, and the block after a store through it. *)
Definition subscript (i : Z) (b : AudioBlock T) : result Fault T :=
  let* _ := c_assert bld ((0 <=? i) && (i <? mSize b)) in
  match mData b with
  | Some d =>
      match d !! Z.to_nat i with
      | Some x => Ok x
      | None => Err UndefinedBehaviour
      end
  | None => Err UndefinedBehaviour
  end.

Definition subscript_store (i : Z) (x : T) (b : AudioBlock T)
    : result Fault (AudioBlock T) :=
  let* _ := c_assert bld ((0 <=? i) && (i <? mSize b)) in
  match mData b with
  | Some d =>
      if (0 <=? i) && (i <? Z.of_nat (length d))
      then Ok (set_mData (Some (<[Z.to_nat i := x]> d)) b)
      else Err UndefinedBehaviour
  | None => Err UndefinedBehaviour
  end.

(** A store through the pointer [Data()] hands out, [Data()[i] = x]. *)
Definition Data_store (i : Z) (x : T) (b : AudioBlock T) : result Fault (AudioBlock T) :=
  match mData b with
  | Some d =>
      if (0 <=? i) && (i <? Z.of_nat (length d))
      then Ok (set_mData (Some (<[Z.to_nat i := x]> d)) b)
      else Err UndefinedBehaviour
  | None => Err UndefinedBehaviour
  end.

(** The generic template computes 2^(8*sizeof(T)-1); the [Sfloat]
    specialisation is empty. *)
Definition ComputeNormalizationFactor (b : AudioBlock T) : AudioBlock T :=
  if is_Sfloat then b else set_mNormFactor (fpow2 (sizeof * 8 - 1)) b.

(** The member initialisers shared by the first two constructors. *)
Definition null_members : AudioBlock T :=
  mkAudioBlock 0 fzero 0 fzero 0 None 0 0 fone.

(** [AudioBlock()] *)
Definition AudioBlock_default : AudioBlock T :=
  ComputeNormalizationFactor null_members.

Definition Create (nsamples : Z) (sampleRate : float) (nchans : Z) (initSize : Z)
    (b : AudioBlock T) : result Fault (AudioBlock T) :=
  let* _ := c_assert bld (0 <? nsamples) in
  let* _ := c_assert bld (SFltb fzero sampleRate) in
  let* _ := c_assert bld (0 <? nchans) in
  let* _ := c_assert bld (IsNull b) in
  if negb (IsNull b) then Ok b else
  (* nsamples % nchans *)
  if nchans =? 0 then Err UndefinedBehaviour else
  let dn := nsamples mod nchans in
  let nsamples :=
    if negb (dn =? 0) then size_t_wrap bld (size_t_wrap bld (nsamples - dn) + nchans)
    else nsamples in
  let size := if initSize <? 0 then nsamples else size_t_wrap bld initSize in
  let size := if nsamples <? size then nsamples else size in
  Ok (mkAudioBlock nsamples
        (fdiv (float_of_size size) (fmul (float_of_size nchans) sampleRate))
        size sampleRate nchans
        (Some (replicate (Z.to_nat nsamples) zero_sample))
        (mID b) (mTimestamp b) (mNormFactor b)).

(** [AudioBlock(nsamples, sampleRate, nchans, initSize)] *)
Definition AudioBlock_create (nsamples : Z) (sampleRate : float) (nchans : Z)
    (initSize : Z) : result Fault (AudioBlock T) :=
  let* b := Create nsamples sampleRate nchans initSize null_members in
  Ok (ComputeNormalizationFactor b).

(** [AudioBlock(const AudioBlock<T>&)]: a fresh array of [mCapacity]
    elements when the capacity is not zero, filled by
    [std::copy(block.mData, block.mData + mCapacity, mData)]. *)
Definition AudioBlock_copy (block : AudioBlock T) : result Fault (AudioBlock T) :=
  let* data :=
    if mCapacity block =? 0 then Ok None else
    match mData block with
    | Some s =>
        if mCapacity block <=? Z.of_nat (length s)
        then Ok (Some (take (Z.to_nat (mCapacity block)) s))
        else Err UndefinedBehaviour
    | None => Err UndefinedBehaviour
    end in
  Ok (mkAudioBlock (mCapacity block) (mDuration block) (mSize block)
        (mSampleRate block) (mChannels block) data 0
        (mTimestamp block) (mNormFactor block)).

(** [Swap(b1, b2)]: eight [std::swap]s; [mID] is not among them. *)
Definition Swap (b1 b2 : AudioBlock T) : AudioBlock T * AudioBlock T :=
  (mkAudioBlock (mCapacity b2) (mDuration b2) (mSize b2) (mSampleRate b2)
                (mChannels b2) (mData b2) (mID b1) (mTimestamp b2) (mNormFactor b2),
   mkAudioBlock (mCapacity b1) (mDuration b1) (mSize b1) (mSampleRate b1)
                (mChannels b1) (mData b1) (mID b2) (mTimestamp b1) (mNormFactor b1)).

(** [operator=(AudioBlock<T> block)]: the argument is passed by value, so
    it is a copy made by the copy constructor; the copy is swapped with
    [*this] and destroyed on return. *)
Definition assign (this arg : AudioBlock T) : result Fault (AudioBlock T) :=
  let* block := AudioBlock_copy arg in
  Ok (fst (Swap this block)).

Definition Resize (newsize : Z) (b : AudioBlock T) : result Fault (AudioBlock T) :=
  let* _ := c_assert bld (negb (IsNull b)) in
  let* _ := c_assert bld (0 <=? newsize) in
  let newsize := if mCapacity b <? newsize then mCapacity b else newsize in
  let b := set_mSize newsize b in
  Ok (set_mDuration
        (fdiv (float_of_size (mSize b))
              (fmul (float_of_size (mChannels b)) (mSampleRate b))) b).

(** [SetData(data, nsamples)] returns the block and the number of
    written samples. *)
Definition SetData (data : option (list T)) (nsamples : Z) (b : AudioBlock T)
    : result Fault (AudioBlock T * Z) :=
  let* _ := c_assert bld (negb (IsNull b)) in
  let* b := if negb (nsamples =? mSize b) then Resize nsamples b else Ok b in
  let* d := memcpy (mData b) 0 data 0 (mSize b) in
  Ok (set_mData d b, mSize b).

Definition DoAppend (data : option (list T)) (nsamples : Z) (b : AudioBlock T)
    : result Fault (AudioBlock T) :=
  let available := size_t_wrap bld (mCapacity b - mSize b) in
  if 0 <? available then
    let copyable := if nsamples <=? available then nsamples else available in
    (* assert(copyable % mChannels == 0) *)
    let* _ :=
      if NDEBUG bld then Ok tt
      else if mChannels b =? 0 then Err UndefinedBehaviour
      else c_assert bld (copyable mod mChannels b =? 0) in
    let* d := memcpy (mData b) (mSize b) data 0 copyable in
    Resize (size_t_wrap bld (mSize b + copyable)) (set_mData d b)
  else Ok b.

(** [Append(const T* data, size_t nsamples)] *)
Definition Append (data : option (list T)) (nsamples : Z) (b : AudioBlock T)
    : result Fault (AudioBlock T) :=
  match data with
  | None => Ok b
  | Some _ => if nsamples =? 0 then Ok b else DoAppend data nsamples b
  end.

(** [Append(AudioBlock<T>& block)] *)
Definition Append_block (block : AudioBlock T) (b : AudioBlock T)
    : result Fault (AudioBlock T) :=
  let* _ := c_assert bld (negb (IsNull b) && negb (IsNull block)) in
  let* _ := c_assert bld (Channels block =? mChannels b) in
  let* _ := c_assert bld (SFeqb (SampleRate block) (mSampleRate b)) in
  if IsNull block || (Size block =? 0) then Ok b
  else DoAppend (Data block) (Size block) b.

(** [GetSubBlock(start, size, block)] returns the new state of [block];
    [*this] is only read. *)
Definition GetSubBlock (start size : Z) (block this : AudioBlock T)
    : result Fault (AudioBlock T) :=
  if (IsNull this || IsNull block)
     || negb ((0 <=? start) && (start <? mSize this))
     || negb (0 <=? size)
  then Resize 0 block
  else
    let sbsize := Z.min size (size_t_wrap bld (mSize this - start)) in
    let* d := memcpy (Data block) 0 (mData this) start sbsize in
    Resize sbsize (set_mData d block).

End Methods.

(** ** Invariant and reachable blocks *)

Section Invariant.
Context {T : Type} `{Sample T}.
Variable bld : Build.

(** The available data lies within the buffer, the buffer has the extent
    [mCapacity], and a block without buffer has capacity zero. *)
Definition Invariant (b : AudioBlock T) : Prop :=
  0 ≤ mSize b ≤ mCapacity b
  ∧ mCapacity b < size_t_range bld
  ∧ match mData b with
    | Some d => Z.of_nat (length d) = mCapacity b
    | None => mCapacity b = 0
    end.

(** The samples a block holds, none for a null block. *)
Definition samples (b : AudioBlock T) : list T := default [] (mData b).

(** The blocks a client can hold: those the constructors give, and those
    the public members make of them when called with [size_t] and [int]
    arguments. The two [Normalize] members act on the block they fill
    through the constructor, [Resize], [operator[]] and [Data()], so what
    they give is reached by these. *)
Inductive reachable : AudioBlock T → Prop :=
| reach_default : reachable AudioBlock_default
| reach_create nsamples sampleRate nchans initSize b :
    0 ≤ nsamples < size_t_range bld →
    0 ≤ nchans < size_t_range bld →
    - 2 ^ 31 ≤ initSize < 2 ^ 31 →
    AudioBlock_create bld nsamples sampleRate nchans initSize = Ok b →
    reachable b
| reach_copy b c :
    reachable b → AudioBlock_copy b = Ok c → reachable c
| reach_assign b a b' :
    reachable b → reachable a → assign b a = Ok b' → reachable b'
| reach_SetID id b :
    reachable b → reachable (SetID id b)
| reach_SetTimestamp t b :
    reachable b → reachable (SetTimestamp t b)
| reach_SetChannels nchans b b' :
    reachable b → - 2 ^ 31 ≤ nchans < 2 ^ 31 →
    SetChannels bld nchans b = Ok b' → reachable b'
| reach_subscript_store i x b b' :
    reachable b → 0 ≤ i < size_t_range bld →
    subscript_store bld i x b = Ok b' → reachable b'
| reach_Data_store i x b b' :
    reachable b → Data_store i x b = Ok b' → reachable b'
| reach_Resize n b b' :
    reachable b → 0 ≤ n < size_t_range bld →
    Resize bld n b = Ok b' → reachable b'
| reach_SetData data n b b' w :
    reachable b → 0 ≤ n < size_t_range bld →
    SetData bld data n b = Ok (b', w) → reachable b'
| reach_Append data n b b' :
    reachable b → 0 ≤ n < size_t_range bld →
    Append bld data n b = Ok b' → reachable b'
| reach_Append_block a b b' :
    reachable b → reachable a →
    Append_block bld a b = Ok b' → reachable b'
| reach_GetSubBlock start size src dst dst' :
    reachable src → reachable dst →
    0 ≤ start < size_t_range bld → 0 ≤ size < size_t_range bld →
    GetSubBlock bld start size dst src = Ok dst' → reachable dst'.

(** The [assert] of [DoAppend] on the number of channels, for an append
    of [n] samples. *)
Definition channels_divide (n : Z) (b : AudioBlock T) : Prop :=
  NDEBUG bld = true
  ∨ mCapacity b - mSize b = 0
  ∨ (mChannels b ≠ 0 ∧ Z.min n (mCapacity b - mSize b) mod mChannels b = 0).

End Invariant.

(** The sample types of the header used below. *)
#[export] Instance S16bit_Sample : Sample Z :=
  {| sizeof := 2; zero_sample := 0; is_Sfloat := false |}.

(** Two builds and a few blocks of 16-bit samples, to run the members on. *)
Definition debug64 : Build := mkBuild false 64.
Definition release64 : Build := mkBuild true 64.

Definition block_of (r : result Fault (AudioBlock Z)) : AudioBlock Z :=
  match r with
  | Ok b => b
  | Err _ => AudioBlock_default
  end.

(** [AudioBlock<S16bit>(4, 8000.f, 2, 2)]: room for four samples, two
    available. *)
Definition stereo4 : AudioBlock Z :=
  block_of (AudioBlock_create debug64 4 (float_of_size 8000) 2 2).

(** [AudioBlock<S16bit>(4, 8000.f, 1)] and [AudioBlock<S16bit>(2, 8000.f, 1)],
    both full. *)
Definition mono4 : AudioBlock Z :=
  block_of (AudioBlock_create debug64 4 (float_of_size 8000) 1 (-1)).
Definition mono2 : AudioBlock Z :=
  block_of (AudioBlock_create debug64 2 (float_of_size 8000) 1 (-1)).

(** [mono4] after [SetData] of the samples 1, 2, 3, 4. *)
Definition ramp4 : AudioBlock Z :=
  block_of (let* r := SetData debug64 (Some [1; 2; 3; 4]) 4 mono4 in Ok (fst r)).

(** ** Durations and normalisation *)

(** [AudioBlock<Sfloat>]: four bytes a sample, all-zero bytes are +0. *)
#[export] Instance Sfloat_Sample : Sample float :=
  {| sizeof := 4; zero_sample := fzero; is_Sfloat := true |}.

(** The conversion of a sample to [float] that [mData[i] / mNormFactor]
    performs before dividing. *)
Class ToFloat (T : Type) : Type := {
  to_float : T → float
}.

(** An integer sample is converted with rounding to nearest; a [float]
    sample is taken as it is. *)
#[export] Instance S16bit_ToFloat : ToFloat Z :=
  {| to_float := λ x, binary_normalize 24 128 x 0 false |}.
#[export] Instance Sfloat_ToFloat : ToFloat float :=
  {| to_float := λ x, x |}.

Section Normalize.
Context {T : Type} `{Sample T} `{ToFloat T}.
Variable bld : Build.

(** [mSize / (mChannels * mSampleRate)], as [Create] and [Resize]
    compute it for a size. *)
Definition duration_of (size : Z) (b : AudioBlock T) : float :=
  fdiv (float_of_size size) (fmul (float_of_size (mChannels b)) (mSampleRate b)).

(** [Duration()] *)
Definition Duration (b : AudioBlock T) : float := mDuration b.

(** [MaxDuration()] *)
Definition MaxDuration (b : AudioBlock T) : float :=
  if IsNull b then fzero else duration_of (mCapacity b) b.

(** [mData[i]], read through the member pointer. *)
Definition read_sample (b : AudioBlock T) (i : Z) : result Fault T :=
  match mData b with
  | Some d =>
      match d !! Z.to_nat i with
      | Some x => Ok x
      | None => Err UndefinedBehaviour
      end
  | None => Err UndefinedBehaviour
  end.

(** [mData[i] / mNormFactor], for the sample [x] read from [mData[i]]. *)
Definition normalised (this : AudioBlock T) (x : T) : float :=
  fdiv (to_float x) (mNormFactor this).

(** The loop [for (i = 0; i < mSize; i++) dst[i] = mData[i] / mNormFactor],
    over the indexes it visits; [store] is the way the destination is
    written. *)
Fixpoint normalize_loop
    (store : Z → float → AudioBlock float → result Fault (AudioBlock float))
    (indexes : list Z) (this : AudioBlock T) (nblock : AudioBlock float)
    : result Fault (AudioBlock float) :=
  match indexes with
  | [] => Ok nblock
  | i :: indexes' =>
      let* x := read_sample this i in
      let* nblock := store i (normalised this x) nblock in
      normalize_loop store indexes' this nblock
  end.

(** [Normalize(AudioBlock<Sfloat>& nblock)]: the destination is written
    through its [operator[]]. *)
Definition Normalize_into (nblock : AudioBlock float) (this : AudioBlock T)
    : result Fault (AudioBlock float) :=
  let* _ := c_assert bld (negb (IsNull this) && negb (IsNull nblock)) in
  let* nblock :=
    if negb (Size nblock =? mSize this) then Resize bld (mSize this) nblock
    else Ok nblock in
  normalize_loop (subscript_store bld) (seqZ 0 (mSize this)) this nblock.

(** [Normalize()], the generic template: a new block of [mSize] samples,
    written through [Data()]. *)
Definition Normalize (this : AudioBlock T) : result Fault (AudioBlock float) :=
  let* _ := c_assert bld (negb (IsNull this)) in
  let* nblock :=
    AudioBlock_create (T := float) bld (mSize this) (mSampleRate this)
                      (mChannels this) (-1) in
  normalize_loop Data_store (seqZ 0 (mSize this)) this nblock.

(** The blocks a client can hold without a call of [SetChannels]. *)
Inductive reachable_keeping_channels : AudioBlock T → Prop :=
| keep_default : reachable_keeping_channels AudioBlock_default
| keep_create nsamples sampleRate nchans initSize b :
    0 ≤ nsamples < size_t_range bld →
    0 ≤ nchans < size_t_range bld →
    - 2 ^ 31 ≤ initSize < 2 ^ 31 →
    AudioBlock_create bld nsamples sampleRate nchans initSize = Ok b →
    reachable_keeping_channels b
| keep_copy b c :
    reachable_keeping_channels b → AudioBlock_copy b = Ok c →
    reachable_keeping_channels c
| keep_assign b a b' :
    reachable_keeping_channels b → reachable_keeping_channels a →
    assign b a = Ok b' → reachable_keeping_channels b'
| keep_SetID id b :
    reachable_keeping_channels b → reachable_keeping_channels (SetID id b)
| keep_SetTimestamp t b :
    reachable_keeping_channels b → reachable_keeping_channels (SetTimestamp t b)
| keep_subscript_store i x b b' :
    reachable_keeping_channels b → 0 ≤ i < size_t_range bld →
    subscript_store bld i x b = Ok b' → reachable_keeping_channels b'
| keep_Data_store i x b b' :
    reachable_keeping_channels b → Data_store i x b = Ok b' →
    reachable_keeping_channels b'
| keep_Resize n b b' :
    reachable_keeping_channels b → 0 ≤ n < size_t_range bld →
    Resize bld n b = Ok b' → reachable_keeping_channels b'
| keep_SetData data n b b' w :
    reachable_keeping_channels b → 0 ≤ n < size_t_range bld →
    SetData bld data n b = Ok (b', w) → reachable_keeping_channels b'
| keep_Append data n b b' :
    reachable_keeping_channels b → 0 ≤ n < size_t_range bld →
    Append bld data n b = Ok b' → reachable_keeping_channels b'
| keep_Append_block a b b' :
    reachable_keeping_channels b → reachable_keeping_channels a →
    Append_block bld a b = Ok b' → reachable_keeping_channels b'
| keep_GetSubBlock start size src dst dst' :
    reachable_keeping_channels src → reachable_keeping_channels dst →
    0 ≤ start < size_t_range bld → 0 ≤ size < size_t_range bld →
    GetSubBlock bld start size dst src = Ok dst' →
    reachable_keeping_channels dst'.

End Normalize.

(** The block an append of [n] samples of [data] leaves when it
    returns: the block itself if there is nothing to append or no room,
    and otherwise the block grown by the samples that fit, written after
    the available ones, with the duration of the new size. *)
Definition appended {T : Type} (data : option (list T)) (n : Z) (b : AudioBlock T)
    : AudioBlock T :=
  match data with
  | Some s =>
      if (n =? 0) || (mCapacity b - mSize b <=? 0) then b
      else
        let size' := Z.min (mSize b + n) (mCapacity b) in
        mkAudioBlock (mCapacity b) (duration_of size' b) size'
          (mSampleRate b) (mChannels b)
          (Some (take (Z.to_nat (mSize b)) (samples b)
                 ++ take (Z.to_nat (size' - mSize b)) s
                 ++ drop (Z.to_nat size') (samples b)))
          (mID b) (mTimestamp b) (mNormFactor b)
  | None => b
  end.

(** [AudioBlock<Sfloat>::Normalize()], the specialisation: a new block
    filled by [SetData]. *)
Definition Normalize_Sfloat (bld : Build) (this : AudioBlock float)
    : result Fault (AudioBlock float) :=
  let* _ := c_assert bld (negb (IsNull this)) in
  let* nblock :=
    AudioBlock_create (T := float) bld (mSize this) (mSampleRate this)
                      (mChannels this) (-1) in
  let* r := SetData bld (mData this) (mSize this) nblock in
  Ok (fst r).

(** The samples of a 16-bit block are [int16_t] values, and so are the
    samples written to it. *)
Definition int16 (x : Z) : Prop := - 2 ^ 15 ≤ x < 2 ^ 15.

(** A normalised sample lies in [-1, 1]. *)
Definition in_unit_range (y : float) : bool :=
  SFleb (float_of_size (-1)) y && SFleb y fone.

(** The factor [ComputeNormalizationFactor] leaves in a block of samples
    of type [T]. *)
Definition norm_factor_of (T : Type) `{Sample T} : float :=
  if is_Sfloat then fone else fpow2 (sizeof * 8 - 1).

(** A 16-bit sample divided by the factor of a 16-bit block lies in
    [-1, 1], and multiplying the quotient by the factor gives the sample
    back. *)
Definition S16bit_normalises (x : Z) : bool :=
  let y := fdiv (to_float x) (norm_factor_of Z) in
  in_unit_range y && SFeqb (fmul y (norm_factor_of Z)) (to_float x).

(** [S16bit_normalises] on the [n] values from [x] upwards. *)
Fixpoint range_check (n : nat) (x : Z) : bool :=
  match n with
  | O => true
  | S n' => S16bit_normalises x && range_check n' (x + 1)
  end.

(** Blocks of [Sfloat] samples to normalise into:
    [AudioBlock<Sfloat>(4, 8000.f, 1)] and [AudioBlock<Sfloat>(2, 8000.f, 1)]. *)
Definition Sfloat_block_of (r : result Fault (AudioBlock float)) : AudioBlock float :=
  match r with
  | Ok b => b
  | Err _ => AudioBlock_default
  end.

Definition fmono4 : AudioBlock float :=
  Sfloat_block_of (AudioBlock_create debug64 4 (float_of_size 8000) 1 (-1)).
Definition fmono2 : AudioBlock float :=
  Sfloat_block_of (AudioBlock_create debug64 2 (float_of_size 8000) 1 (-1)).

(** [AudioBlock<S16bit>(3, 8000.f, 2, 3)]: three samples asked for two
    channels. *)
Definition stereo3 : AudioBlock Z :=
  block_of (AudioBlock_create debug64 3 (float_of_size 8000) 2 3).

(** [AudioBlock<S16bit>(4, 8000.f, 1, 0)]: room for four samples, none
    available. *)
Definition empty4 : AudioBlock Z :=
  block_of (AudioBlock_create debug64 4 (float_of_size 8000) 1 0).

(** [stereo4] after [SetData] of the samples 5, 6, 7, 8. *)
Definition pairs4 : AudioBlock Z :=
  block_of (let* r := SetData debug64 (Some [5; 6; 7; 8]) 4 stereo4 in Ok (fst r)).

End AudioBlock.

(** * KVDataStore.h *)

Module KVDataStore.

Abbreviation byte := Byte.byte.

(** Modelled from the spec: [Audioneex::PListHeader] is declared in
    audioneex.h, which is not among the sources. The spec gives a list
    header a number of blocks and a total record count. *)
Record PListHeader : Type := mkPListHeader {
  lh_block_count : Z;
  lh_record_count : Z
}.

(** Modelled from the spec: [Audioneex::PListBlockHeader] of audioneex.h.
    The spec gives a block header the block id, the size of the body in
    bytes, the record count of the block and the first-block flag. *)
Record PListBlockHeader : Type := mkPListBlockHeader {
  bh_block_id : Z;
  bh_body_size : Z;
  bh_record_count : Z;
  bh_is_first : bool
}.

(** [struct PListBlock]: three pointers and a size. *)
Record PListBlock : Type := mkPListBlock {
  ListHeader : option PListHeader;
  Header : option PListBlockHeader;
  Body : option (list byte);
  BodySize : Z
}.

(** [struct BlockCache]; [block_map] is an unordered map from [int] to
    [std::vector<uint8_t>]. *)
Record BlockCache : Type := mkBlockCache {
  list_id : Z;
  accum : Z;
  buffer : gmap Z (list byte)
}.

(** [BlockCache() : list_id(0), accum(0) {}]; the map member is
    default-constructed. *)
Definition BlockCache_new : BlockCache := mkBlockCache 0 0 ∅.

(** [inline bool IsNull(const PListBlock& hdr)] *)
Definition IsNull (hdr : PListBlock) : bool :=
  match ListHeader hdr with None => true | Some _ => false end
  && match Header hdr with None => true | Some _ => false end
  && match Body hdr with None => true | Some _ => false end.

End KVDataStore.

(** * TCDataStore.h *)

Module TCDataStore.
Import KVDataStore.

(** Modelled from the spec: the error taxonomy of the storage engine. *)
Inductive IndexError : Type :=
| CorruptBlock
| NotFound
| IOFailure
| InvariantViolation.

(** ** Block codec *)

(** [uint8_t] and the numbers 0..255. *)
Definition byte_of_Z (z : Z) : byte := default Byte.x00 (Byte.of_N (Z.to_N z)).
Definition Z_of_byte (b : byte) : Z := Z.of_N (Byte.to_N b).

(** Modelled from the spec: the spec fixes no width for the fields of the
    headers, so a field is written as a self-delimiting base-128 number
    (seven bits a byte, least significant group first, the top bit set on
    every byte but the last), signed values folded onto the naturals
    first. No count is truncated by the encoding. *)
Definition zigzag (z : Z) : Z := if z <? 0 then -2 * z - 1 else 2 * z.

(** Modelled from the spec: the inverse of [zigzag]. *)
Definition unzigzag (n : Z) : Z := if Z.even n then n / 2 else - ((n + 1) / 2).

(** Modelled from the spec: the base-128 digits of a natural number, at
    most [fuel] of them. *)
Fixpoint put_varint_fuel (fuel : nat) (n : Z) : list byte :=
  match fuel with
  | O => []
  | S fuel' =>
      if n <? 128 then [byte_of_Z n]
      else byte_of_Z (128 + n mod 128) :: put_varint_fuel fuel' (n / 128)
  end.

(** Modelled from the spec: a natural number in base 128; a number has
    no more such digits than binary ones. *)
Definition put_varint (n : Z) : list byte :=
  put_varint_fuel (S (Z.to_nat (Z.log2 n))) n.

(** Modelled from the spec: reads one base-128 number off the front of
    a buffer and returns it with the rest. *)
Fixpoint get_varint (bs : list byte) : option (Z * list byte) :=
  match bs with
  | [] => None
  | b :: rest =>
      if Z_of_byte b <? 128 then Some (Z_of_byte b, rest)
      else match get_varint rest with
           | Some (hi, rest') => Some (Z_of_byte b - 128 + 128 * hi, rest')
           | None => None
           end
  end.

(** Modelled from the spec: the bytes of a header field. *)
Definition put_int (z : Z) : list byte := put_varint (zigzag z).

(** Modelled from the spec: a header field read off the front of a
    buffer. *)
Definition get_int (bs : list byte) : option (Z * list byte) :=
  match get_varint bs with
  | Some (n, rest) => Some (unzigzag n, rest)
  | None => None
  end.

(** Modelled from the spec: the bytes of a list header, its two fields in
    order. *)
Definition put_list_header (lhdr : PListHeader) : list byte :=
  put_int (lh_block_count lhdr) ++ put_int (lh_record_count lhdr).

(** Modelled from the spec: a list header read off the front of a
    buffer. *)
Definition get_list_header (bs : list byte) : option (PListHeader * list byte) :=
  match get_int bs with
  | Some (blocks, r1) =>
      match get_int r1 with
      | Some (records, r2) => Some (mkPListHeader blocks records, r2)
      | None => None
      end
  | None => None
  end.

(** Modelled from the spec: the bytes of a block header, its three
    numeric fields in order, then one byte for the first-block flag. *)
Definition put_block_header (hdr : PListBlockHeader) : list byte :=
  put_int (bh_block_id hdr) ++ put_int (bh_body_size hdr)
  ++ put_int (bh_record_count hdr)
  ++ [byte_of_Z (if bh_is_first hdr then 1 else 0)].

(** Modelled from the spec: a block header read off the front of a
    buffer. *)
Definition get_block_header (bs : list byte) : option (PListBlockHeader * list byte) :=
  match get_int bs with
  | Some (id, r1) =>
      match get_int r1 with
      | Some (size, r2) =>
          match get_int r2 with
          | Some (records, flag :: r3) =>
              Some (mkPListBlockHeader id size records (negb (Z_of_byte flag =? 0)), r3)
          | _ => None
          end
      | None => None
      end
  | None => None
  end.

(** Modelled from the spec: the minimum header size, that of a block
    header with one byte a field. *)
Definition MIN_HEADER_SIZE : Z := 4.

(** Modelled from the spec: a block header with the length of a body
    recorded in it, as [encode] updates it. *)
Definition sized (hdr : PListBlockHeader) (body : list byte) : PListBlockHeader :=
  mkPListBlockHeader (bh_block_id hdr) (Z.of_nat (length body))
                     (bh_record_count hdr) (bh_is_first hdr).

(** Modelled from the spec: [encode(listHeader?, blockHeader, body)]
    concatenates the list header (only when present, only for block 0),
    the block header and the body, the block header recording the length
    of the body. *)
Definition encode_block (lhdr : option PListHeader) (hdr : PListBlockHeader)
    (body : list byte) : list byte :=
  match lhdr with
  | Some lh => if bh_block_id hdr =? 0 then put_list_header lh else []
  | None => []
  end
  ++ put_block_header (sized hdr body)
  ++ body.

(** Modelled from the spec: [TCIndex::RawBlockToBlock] is only declared
    in TCDataStore.h. It is the spec's [decode]: the block header, the
    body and the list header if present, or [CorruptBlock] when the buffer
    is shorter than the smallest header or the declared body length is not
    the number of bytes that remain. [isFirst] says whether a list header
    leads the buffer. *)
Definition RawBlockToBlock (block : list byte) (block_size : Z) (isFirst : bool)
    : result IndexError PListBlock :=
  let raw := take (Z.to_nat block_size) block in
  if Z.of_nat (length raw) <? MIN_HEADER_SIZE then Err CorruptBlock else
  let* (lhdr, rest) :=
    if isFirst then
      match get_list_header raw with
      | Some (lh, rest) => Ok (Some lh, rest)
      | None => Err CorruptBlock
      end
    else Ok (None, raw) in
  match get_block_header rest with
  | Some (hdr, body) =>
      if bh_body_size hdr =? Z.of_nat (length body)
      then Ok (mkPListBlock lhdr (Some hdr) (Some body) (Z.of_nat (length body)))
      else Err CorruptBlock
  | None => Err CorruptBlock
  end.

(** ** The index *)

(** Modelled from the spec: the keys of a collection. A list header is
    addressed by the list id, a block by the list id and the block id. *)
Inductive Key : Type :=
| HeaderKey (lid : Z)
| BlockKey (lid bid : Z).

#[export] Instance Key_eq_dec : EqDecision Key.
Proof. solve_decision. Defined.

#[export] Instance Key_countable : Countable Key :=
  inj_countable'
    (λ k, match k with
          | HeaderKey l => (l, None)
          | BlockKey l b => (l, Some b)
          end)
    (λ p, match p with
          | (l, None) => HeaderKey l
          | (l, Some b) => BlockKey l b
          end)
    (λ k, match k with HeaderKey _ => eq_refl | BlockKey _ _ => eq_refl end).

(** Modelled from the spec: the database behind [m_DBHandle] (a Tokyo
    Cabinet handle, external to the repository) is the key-value
    collection of the spec, a finite map from keys to bytes. The record
    is [class TCIndex : public TCCollection], which adds [m_BlocksCache]
    to the collection; the name, the URL and the open flag of the
    collection play no part in what follows. *)
Record TCIndex : Type := mkTCIndex {
  m_DBHandle : gmap Key (list byte);
  m_BlocksCache : BlockCache
}.

(** Modelled from the spec: the configured block capacity (bytes of body
    a block holds) and flush threshold, which the spec leaves open. *)
Record IndexConfig : Type := mkIndexConfig {
  BLOCK_CAPACITY : Z;
  FLUSH_THRESHOLD : Z
}.

(** Modelled from the spec: the zero-valued list header, of a list that
    does not exist yet. *)
Definition zero_list_header : PListHeader := mkPListHeader 0 0.

(** Modelled from the spec: the empty block header, of an absent block. *)
Definition zero_block_header : PListBlockHeader := mkPListBlockHeader 0 0 0 false.

(** The index with another value of [m_BlocksCache]. *)
Definition set_cache (c : BlockCache) (idx : TCIndex) : TCIndex :=
  mkTCIndex (m_DBHandle idx) c.

(** Modelled from the spec: [put(block_id, bytes)] of the block cache
    inserts or overwrites the cached bytes of the block. *)
Definition cache_put (bid : Z) (raw : list byte) (c : BlockCache) : BlockCache :=
  mkBlockCache (list_id c) (accum c) (<[bid := raw]> (buffer c)).

(** Modelled from the spec: [get(block_id)] of the block cache, the
    cached bytes if present. *)
Definition cache_get (bid : Z) (c : BlockCache) : option (list byte) :=
  buffer c !! bid.

(** Modelled from the spec: [accumulate(n)] of the block cache adds to
    the running total, which [accum] reads. *)
Definition cache_accumulate (n : Z) (c : BlockCache) : BlockCache :=
  mkBlockCache (list_id c) (accum c + n) (buffer c).

(** Modelled from the spec: [clear()] of the block cache drops all
    entries and resets the accumulator and the list id. *)
Definition cache_clear (c : BlockCache) : BlockCache := BlockCache_new.

(** Modelled from the spec: the raw bytes of a block as the index sees
    them, the cache first, if it belongs to the list and holds the block,
    the collection otherwise. *)
Definition raw_block (lid bid : Z) (idx : TCIndex) : option (list byte) :=
  match (if list_id (m_BlocksCache idx) =? lid
         then cache_get bid (m_BlocksCache idx) else None) with
  | Some raw => Some raw
  | None => m_DBHandle idx !! BlockKey lid bid
  end.

(** Modelled from the spec: [TCIndex::GetPListHeader], declared only.
    Reads and decodes the header key; a zero-valued header if the key is
    absent. *)
Definition GetPListHeader (lid : Z) (idx : TCIndex) : result IndexError PListHeader :=
  match m_DBHandle idx !! HeaderKey lid with
  | None => Ok zero_list_header
  | Some raw =>
      match get_list_header raw with
      | Some (lhdr, []) => Ok lhdr
      | _ => Err CorruptBlock
      end
  end.

(** Modelled from the spec: [TCIndex::ReadBlock], declared only. The raw
    bytes of the block, without the header bytes if [headers] is false;
    an absent block reads as no bytes. *)
Definition ReadBlock (lid bid : Z) (headers : bool) (idx : TCIndex)
    : result IndexError (list byte) :=
  match raw_block lid bid idx with
  | None => Ok []
  | Some raw =>
      if headers then Ok raw
      else
        let* blk := RawBlockToBlock raw (Z.of_nat (length raw)) false in
        Ok (default [] (Body blk))
  end.

(** Modelled from the spec: [TCIndex::GetPListBlockHeader], declared
    only. An absent block gives the empty header, not an error. *)
Definition GetPListBlockHeader (lid bid : Z) (idx : TCIndex)
    : result IndexError PListBlockHeader :=
  match raw_block lid bid idx with
  | None => Ok zero_block_header
  | Some raw =>
      let* blk := RawBlockToBlock raw (Z.of_nat (length raw)) false in
      Ok (default zero_block_header (Header blk))
  end.

(** Modelled from the spec: [TCIndex::WriteBlock], declared only. Puts
    the first [data_size] bytes of the buffer at the block's key, past
    the cache. *)
Definition WriteBlock (lid bid : Z) (buf : list byte) (data_size : Z) (idx : TCIndex)
    : TCIndex :=
  mkTCIndex (<[BlockKey lid bid := take (Z.to_nat data_size) buf]> (m_DBHandle idx))
            (m_BlocksCache idx).

(** Modelled from the spec: [TCIndex::UpdateListHeader], declared only. *)
Definition UpdateListHeader (lid : Z) (lhdr : PListHeader) (idx : TCIndex) : TCIndex :=
  mkTCIndex (<[HeaderKey lid := put_list_header lhdr]> (m_DBHandle idx))
            (m_BlocksCache idx).

(** Modelled from the spec: [TCIndex::ClearCache], declared only. *)
Definition ClearCache (idx : TCIndex) : TCIndex :=
  set_cache (cache_clear (m_BlocksCache idx)) idx.

(** Modelled from the spec: [TCIndex::FlushBlockCache], declared only.
    Every cached block is written with [WriteBlock], then the cache is
    cleared. *)
Definition FlushBlockCache (idx : TCIndex) : TCIndex :=
  ClearCache
    (map_fold
       (λ bid raw acc,
          WriteBlock (list_id (m_BlocksCache idx)) bid raw (Z.of_nat (length raw)) acc)
       idx (buffer (m_BlocksCache idx))).

(** Modelled from the spec: the decoded header and body of the block
    [bid] of list [lid], if the index sees one. *)
Definition stored_block (lid bid : Z) (idx : TCIndex)
    : result IndexError (option (PListBlockHeader * list byte)) :=
  match raw_block lid bid idx with
  | None => Ok None
  | Some raw =>
      let* blk := RawBlockToBlock raw (Z.of_nat (length raw)) false in
      match Header blk, Body blk with
      | Some h, Some body => Ok (Some (h, body))
      | _, _ => Ok None
      end
  end.

(** Modelled from the spec: the cache is tied to one list at a time;
    turned to another list, it starts empty and what it held is
    dropped. *)
Definition switched (lid : Z) (idx : TCIndex) : TCIndex :=
  if list_id (m_BlocksCache idx) =? lid then idx
  else set_cache (mkBlockCache lid 0 ∅) idx.

(** Modelled from the spec: [TCIndex::AppendChunk], declared only.
    - a chunk larger than a block is an [InvariantViolation];
    - the cache is tied to one list: an append to another list starts
      from an empty cache;
    - if [new_block] is set, or the list has no block, or the current
      last block has no room for the whole chunk, the chunk becomes the
      body of a new block with id [last + 1] and the block count of the
      list header is incremented; otherwise the chunk is appended to the
      bytes of the current last block;
    - the record totals of the list header and of the block grow by the
      record count the caller gives in [hdr] for the chunk;
    - the accumulator grows by the chunk size and the cache is flushed
      when it exceeds the threshold.
    The call returns the index with the two headers it writes through
    its reference parameters. *)
Definition AppendChunk (cfg : IndexConfig) (lid : Z) (lhdr : PListHeader)
    (hdr : PListBlockHeader) (chunk : list byte) (chunk_size : Z) (new_block : bool)
    (idx : TCIndex) : result IndexError (TCIndex * PListHeader * PListBlockHeader) :=
  let data := take (Z.to_nat chunk_size) chunk in
  let size := Z.of_nat (length data) in
  if BLOCK_CAPACITY cfg <? size then Err InvariantViolation else
  let idx := switched lid idx in
  let last := lh_block_count lhdr - 1 in
  let* current :=
    if new_block || (lh_block_count lhdr <=? 0) then Ok None
    else stored_block lid last idx in
  let fresh :=
    (mkPListBlockHeader (last + 1) size (bh_record_count hdr) (last + 1 =? 0),
     data,
     mkPListHeader (lh_block_count lhdr + 1) (lh_record_count lhdr)) in
  let '(hdr', body', lhdr') :=
    match current with
    | Some (h, body) =>
        if BLOCK_CAPACITY cfg <? Z.of_nat (length body) + size then fresh
        else (mkPListBlockHeader last (Z.of_nat (length body) + size)
                (bh_record_count h + bh_record_count hdr) (bh_is_first h),
              body ++ data,
              lhdr)
    | None => fresh
    end in
  let cache :=
    cache_accumulate size
      (cache_put (bh_block_id hdr') (encode_block None hdr' body') (m_BlocksCache idx)) in
  let idx :=
    if FLUSH_THRESHOLD cfg <? accum cache then FlushBlockCache (set_cache cache idx)
    else set_cache cache idx in
  Ok (idx,
      mkPListHeader (lh_block_count lhdr') (lh_record_count lhdr' + bh_record_count hdr),
      hdr').

(** Modelled from the spec: the blocks of a list of [other], read in
    order, the body of each appended to the list in [self] with
    [AppendChunk]; an absent block contributes nothing. *)
Fixpoint merge_blocks (cfg : IndexConfig) (other : TCIndex) (lid : Z) (bids : list Z)
    (lhdr : PListHeader) (self : TCIndex) : result IndexError (TCIndex * PListHeader) :=
  match bids with
  | [] => Ok (self, lhdr)
  | bid :: bids' =>
      let* current := stored_block lid bid other in
      match current with
      | None => merge_blocks cfg other lid bids' lhdr self
      | Some (h, body) =>
          let* (st, _) :=
            AppendChunk cfg lid lhdr h body (Z.of_nat (length body)) false self in
          merge_blocks cfg other lid bids' (snd st) (fst st)
      end
  end.

(** Modelled from the spec: the merge of one list. After the blocks,
    the totals of the list header are the sum of the totals the two
    indexes had before; the header is persisted and the cache flushed
    before the next list. *)
Definition merge_list (cfg : IndexConfig) (other : TCIndex) (lid : Z) (self : TCIndex)
    : result IndexError TCIndex :=
  let* mine := GetPListHeader lid self in
  let* theirs := GetPListHeader lid other in
  let* (self', lhdr) :=
    merge_blocks cfg other lid (seqZ 0 (lh_block_count theirs)) mine self in
  let total :=
    mkPListHeader (lh_block_count lhdr) (lh_record_count mine + lh_record_count theirs) in
  Ok (FlushBlockCache (UpdateListHeader lid total self')).

(** Modelled from the spec: the list a header key stands for. *)
Definition key_list (k : Key) : option Z :=
  match k with
  | HeaderKey lid => Some lid
  | BlockKey _ _ => None
  end.

(** Modelled from the spec: the lists present in an index, those with a
    header key. *)
Definition list_ids (idx : TCIndex) : list Z :=
  elements (set_omap (D := gset Z) key_list (dom (m_DBHandle idx))).

(** Modelled from the spec: the lists are merged one at a time. *)
Fixpoint merge_lists (cfg : IndexConfig) (other : TCIndex) (lids : list Z)
    (self : TCIndex) : result IndexError TCIndex :=
  match lids with
  | [] => Ok self
  | lid :: lids' =>
      let* self' := merge_list cfg other lid self in
      merge_lists cfg other lids' self'
  end.

(** Modelled from the spec: [TCIndex::Merge], declared only. Folds the
    lists of [other] into [self]; a list present only in [other] is
    created in [self]. *)
Definition Merge (cfg : IndexConfig) (other self : TCIndex) : result IndexError TCIndex :=
  merge_lists cfg other (list_ids other) self.

(** Modelled from the spec: a block record that decodes, with a body
    within the block capacity. *)
Definition block_ok (cfg : IndexConfig) (raw : list byte) : Prop :=
  ∃ hdr body,
    RawBlockToBlock raw (Z.of_nat (length raw)) false
    = Ok (mkPListBlock None (Some hdr) (Some body) (Z.of_nat (length body)))
    ∧ Z.of_nat (length body) ≤ BLOCK_CAPACITY cfg.

(** Modelled from the spec: the indexes the operations are meant for.
    Every header record of the collection decodes as a list header, and
    every block record, in the collection or pending in the cache, is
    [block_ok]. *)
Definition well_formed (cfg : IndexConfig) (idx : TCIndex) : Prop :=
  (∀ l raw, m_DBHandle idx !! HeaderKey l = Some raw →
            ∃ lhdr, get_list_header raw = Some (lhdr, []))
  ∧ (∀ l b raw, m_DBHandle idx !! BlockKey l b = Some raw → block_ok cfg raw)
  ∧ (∀ b raw, buffer (m_BlocksCache idx) !! b = Some raw → block_ok cfg raw).

(** A configuration, a caller and a few indexes, to run the index on. *)
Definition bytes_of (l : list Z) : list byte := map byte_of_Z l.

(** Blocks of eight bytes, a flush past a hundred buffered bytes. *)
Definition small_blocks : IndexConfig := mkIndexConfig 8 100.

Definition empty_index : TCIndex := mkTCIndex ∅ BlockCache_new.

(** A caller of the index: read the list header, append a chunk of
    [records] records, persist the header, flush. *)
Definition append_and_flush (cfg : IndexConfig) (lid records : Z) (chunk : list byte)
    (idx : TCIndex) : TCIndex :=
  match GetPListHeader lid idx with
  | Ok lhdr =>
      match AppendChunk cfg lid lhdr (mkPListBlockHeader 0 0 records false)
                        chunk (Z.of_nat (length chunk)) false idx with
      | Ok (idx', lhdr', _) => FlushBlockCache (UpdateListHeader lid lhdr' idx')
      | Err _ => idx
      end
  | Err _ => idx
  end.

(** Main: list 7 with one block of five bytes and ten records. *)
Definition main_example : TCIndex :=
  append_and_flush small_blocks 7 10 (bytes_of [1; 2; 3; 4; 5]) empty_index.

(** Delta: list 7 with three records more, list 3 with five. *)
Definition delta_example : TCIndex :=
  append_and_flush small_blocks 3 5 (bytes_of [21; 22; 23; 24; 25])
    (append_and_flush small_blocks 7 3 (bytes_of [6; 7; 8]) empty_index).

Definition merged_example : TCIndex :=
  match Merge small_blocks delta_example main_example with
  | Ok idx => idx
  | Err _ => empty_index
  end.

End TCDataStore.

(** * Properties of AudioBlock.h *)

Module AudioBlockProofs.
Import AudioBlock.

Section Proofs.
Context {T : Type} `{Sample T}.
Variable bld : Build.

Lemma size_t_range_pos : 0 < size_t_range bld.
Proof. unfold size_t_range. apply Z.pow_pos_nonneg; lia. Qed.

Lemma size_t_wrap_small z : 0 ≤ z < size_t_range bld → size_t_wrap bld z = z.
Proof. intros Hz. unfold size_t_wrap. apply Z.mod_small. exact Hz. Qed.

Lemma memcpy_nothing (dst src : option (list T)) doff soff :
  memcpy dst doff src soff 0 = Ok dst.
Proof. reflexivity. Qed.

Lemma memcpy_within (d s : list T) doff soff n :
  0 ≤ doff → 0 ≤ soff → 0 ≤ n →
  doff + n ≤ Z.of_nat (length d) → soff + n ≤ Z.of_nat (length s) →
  memcpy (Some d) doff (Some s) soff n
  = Ok (Some (take (Z.to_nat doff) d
              ++ take (Z.to_nat n) (drop (Z.to_nat soff) s)
              ++ drop (Z.to_nat (doff + n)) d)).
Proof.
  intros Hd Hs Hn Hdn Hsn. unfold memcpy.
  destruct (Z.eqb_spec n 0) as [->|Hne].
  - rewrite Z.add_0_r. simpl. rewrite take_drop. reflexivity.
  - replace (0 <=? doff) with true by (symmetry; apply Z.leb_le; lia).
    replace (doff + n <=? Z.of_nat (length d)) with true by (symmetry; apply Z.leb_le; lia).
    replace (0 <=? soff) with true by (symmetry; apply Z.leb_le; lia).
    replace (soff + n <=? Z.of_nat (length s)) with true by (symmetry; apply Z.leb_le; lia).
    reflexivity.
Qed.

Lemma memcpy_outside (d : list T) (src : option (list T)) doff soff n :
  0 < n → Z.of_nat (length d) < doff + n →
  memcpy (Some d) doff src soff n = Err UndefinedBehaviour.
Proof.
  intros Hn Hover. unfold memcpy.
  destruct (Z.eqb_spec n 0); [lia|].
  destruct src; [|reflexivity].
  replace (doff + n <=? Z.of_nat (length d)) with false by (symmetry; apply Z.leb_gt; lia).
  rewrite andb_false_r. reflexivity.
Qed.

Lemma memcpy_length (dst src : option (list T)) doff soff n (d d' : list T) :
  0 ≤ n → dst = Some d → memcpy dst doff src soff n = Ok (Some d') →
  length d' = length d.
Proof.
  intros Hn -> Hcp. unfold memcpy in Hcp.
  destruct (Z.eqb_spec n 0); [congruence|].
  destruct src as [s|]; [|discriminate].
  destruct (0 <=? doff) eqn:H1; [|discriminate].
  destruct (doff + n <=? Z.of_nat (length d)) eqn:H2; [|discriminate].
  destruct (0 <=? soff) eqn:H3; [|discriminate].
  destruct (soff + n <=? Z.of_nat (length s)) eqn:H4; [|discriminate].
  simpl in Hcp. injection Hcp as <-.
  apply Z.leb_le in H1, H2, H3, H4.
  rewrite !length_app, !length_take, !length_drop. lia.
Qed.

Lemma memcpy_null (dst src : option (list T)) doff soff n r :
  memcpy dst doff src soff n = Ok r → (dst = None ↔ r = None).
Proof.
  unfold memcpy. destruct (n =? 0); [intros [= <-]; tauto|].
  destruct dst as [d|], src as [s|]; try discriminate.
  destruct (_ && _); [|discriminate]. intros [= <-]. split; discriminate.
Qed.

(** ** Resize *)

Lemma Resize_fields n (b b' : AudioBlock T) :
  Resize bld n b = Ok b' →
  mSize b' = (if mCapacity b <? n then mCapacity b else n)
  ∧ mCapacity b' = mCapacity b ∧ mData b' = mData b ∧ mID b' = mID b
  ∧ mChannels b' = mChannels b ∧ mSampleRate b' = mSampleRate b
  ∧ mTimestamp b' = mTimestamp b ∧ mNormFactor b' = mNormFactor b.
Proof.
  unfold Resize, c_assert.
  destruct (NDEBUG bld), (IsNull b), (0 <=? n); simpl; try discriminate;
    intros [= <-]; simpl; repeat split.
Qed.

Lemma Resize_returns n (b : AudioBlock T) :
  0 ≤ n → NDEBUG bld = true ∨ IsNull b = false → ∃ b', Resize bld n b = Ok b'.
Proof.
  intros Hn Hok. unfold Resize, c_assert.
  destruct (NDEBUG bld); simpl; [eauto|].
  destruct Hok as [?| ->]; [discriminate|]. simpl.
  replace (0 <=? n) with true by (symmetry; apply Z.leb_le; lia).
  simpl. eauto.
Qed.

Lemma Resize_size n (b b' : AudioBlock T) :
  Resize bld n b = Ok b' → mSize b' = Z.min n (mCapacity b).
Proof.
  intros Hr. apply Resize_fields in Hr as (-> & _).
  destruct (Z.ltb_spec (mCapacity b) n); lia.
Qed.

Lemma Resize_Invariant n (b b' : AudioBlock T) :
  Invariant bld b → 0 ≤ n → Resize bld n b = Ok b' → Invariant bld b'.
Proof.
  intros (Hsz & Hcap & Hd) Hn Hr.
  pose proof (Resize_size _ _ _ Hr) as Hs.
  apply Resize_fields in Hr as (_ & Hc & Hdata & _).
  unfold Invariant. rewrite Hs, Hc, Hdata. repeat split; try assumption; lia.
Qed.

(** ** Buffers keep their extent *)

Lemma memcpy_extent (dst src : option (list T)) doff soff n r :
  0 ≤ n → memcpy dst doff src soff n = Ok r → length <$> r = length <$> dst.
Proof.
  intros Hn Hcp. destruct dst as [d|].
  - destruct r as [d'|].
    + simpl. f_equal. eapply memcpy_length; eauto.
    + apply memcpy_null in Hcp. destruct Hcp as [_ Hcp]. discriminate (Hcp eq_refl).
  - apply memcpy_null in Hcp. destruct Hcp as [Hcp _]. rewrite (Hcp eq_refl). reflexivity.
Qed.

Lemma Invariant_set_mData d (b : AudioBlock T) :
  Invariant bld b → length <$> d = length <$> mData b → Invariant bld (set_mData d b).
Proof.
  intros (Hsz & Hcap & Hd) He. unfold Invariant. simpl.
  repeat split; try assumption; try lia.
  destruct d as [l|], (mData b) as [l'|]; simpl in He; try discriminate; try assumption.
  injection He as He. lia.
Qed.

(** ** SetData *)

Lemma SetData_Invariant data n (b b' : AudioBlock T) w :
  Invariant bld b → 0 ≤ n → SetData bld data n b = Ok (b', w) →
  Invariant bld b' ∧ mCapacity b' = mCapacity b ∧ w = mSize b'.
Proof.
  intros Hinv Hn. unfold SetData.
  destruct (c_assert bld (negb (IsNull b))); simpl; [|discriminate].
  destruct (negb (n =? mSize b)).
  - destruct (Resize bld n b) as [b1|] eqn:Hr; simpl; [|discriminate].
    pose proof (Resize_Invariant _ _ _ Hinv Hn Hr) as Hinv1.
    apply Resize_fields in Hr as (_ & Hc & _).
    destruct (memcpy (mData b1) 0 data 0 (mSize b1)) as [d|] eqn:Hcp; simpl; [|discriminate].
    intros [= <- <-]. simpl. split; [|split; [assumption|reflexivity]].
    apply Invariant_set_mData; [assumption|].
    eapply memcpy_extent; [|eassumption]. destruct Hinv1 as (? & _); lia.
  - simpl.
    destruct (memcpy (mData b) 0 data 0 (mSize b)) as [d|] eqn:Hcp; simpl; [|discriminate].
    intros [= <- <-]. simpl. split; [|split; reflexivity].
    apply Invariant_set_mData; [assumption|].
    eapply memcpy_extent; [|eassumption]. destruct Hinv as (? & _); lia.
Qed.

Lemma SetData_written (data : list T) n (b : AudioBlock T) :
  Invariant bld b → 0 ≤ n →
  NDEBUG bld = true ∨ IsNull b = false →
  Z.min n (mCapacity b) ≤ Z.of_nat (length data) →
  ∃ b', SetData bld (Some data) n b = Ok (b', Z.min n (mCapacity b))
        ∧ mSize b' = Z.min n (mCapacity b)
        ∧ mCapacity b' = mCapacity b
        ∧ mData b' = (λ d, take (Z.to_nat (Z.min n (mCapacity b))) data
                            ++ drop (Z.to_nat (Z.min n (mCapacity b))) d) <$> mData b.
Proof.
  intros Hinv Hn Hok Hdata.
  assert (Hpass : c_assert bld (negb (IsNull b)) = Ok tt).
  { unfold c_assert. destruct (NDEBUG bld); [reflexivity|].
    destruct Hok as [?| ->]; [discriminate|reflexivity]. }
  assert (Hstep : ∃ b1, (if negb (n =? mSize b) then Resize bld n b else Ok b) = Ok b1
                        ∧ mSize b1 = Z.min n (mCapacity b)
                        ∧ mCapacity b1 = mCapacity b ∧ mData b1 = mData b).
  { destruct (Z.eqb_spec n (mSize b)) as [->|Hne]; simpl.
    - exists b. destruct Hinv as (? & _). repeat split; lia.
    - destruct (Resize_returns n b Hn Hok) as [b1 Hr]. exists b1.
      pose proof (Resize_size _ _ _ Hr).
      pose proof (Resize_fields _ _ _ Hr) as (_ & ? & ? & _).
      repeat split; assumption. }
  destruct Hstep as (b1 & Hb1 & Hs1 & Hc1 & Hd1).
  unfold SetData. rewrite Hpass. simpl. rewrite Hb1. simpl. rewrite Hd1, Hs1.
  destruct Hinv as (Hsz & Hcap & Hd).
  destruct (mData b) as [d|] eqn:Hmd.
  - rewrite memcpy_within by lia. simpl.
    eexists. split; [reflexivity|]. simpl.
    repeat split; try assumption.
  - assert (Z.min n (mCapacity b) = 0) as -> by lia.
    simpl. eexists. split; [reflexivity|]. simpl.
    repeat split; try assumption; lia.
Qed.

(** ** Append *)

Lemma DoAppend_Invariant data n (b b' : AudioBlock T) :
  Invariant bld b → 0 ≤ n → DoAppend bld data n b = Ok b' →
  Invariant bld b' ∧ mCapacity b' = mCapacity b.
Proof.
  intros Hinv Hn. unfold DoAppend.
  pose proof Hinv as (Hsz & Hcap & Hd).
  rewrite size_t_wrap_small by lia.
  destruct (Z.ltb_spec 0 (mCapacity b - mSize b)) as [Hav|Hav];
    [|intros [= <-]; split; [assumption|reflexivity]].
  set (copyable := if n <=? mCapacity b - mSize b then n else mCapacity b - mSize b).
  assert (Hc : 0 ≤ copyable ≤ mCapacity b - mSize b).
  { unfold copyable. destruct (Z.leb_spec n (mCapacity b - mSize b)); lia. }
  destruct (if NDEBUG bld then _ else _); simpl; [|discriminate].
  destruct (memcpy (mData b) (mSize b) data 0 copyable) as [d|] eqn:Hcp; simpl;
    [|discriminate].
  intros Hr.
  assert (Hinv1 : Invariant bld (set_mData d b)).
  { apply Invariant_set_mData; [assumption|].
    eapply memcpy_extent; [|eassumption]. lia. }
  split.
  - eapply Resize_Invariant; [exact Hinv1| |exact Hr].
    rewrite size_t_wrap_small; lia.
  - apply Resize_fields in Hr as (_ & -> & _). reflexivity.
Qed.

Lemma DoAppend_appended (data : list T) n (b : AudioBlock T) :
  Invariant bld b → 0 ≤ n ≤ Z.of_nat (length data) → channels_divide bld n b →
  let size' := Z.min (mSize b + n) (mCapacity b) in
  ∃ b', DoAppend bld (Some data) n b = Ok b'
        ∧ mSize b' = size'
        ∧ mCapacity b' = mCapacity b
        ∧ mData b' = (λ d, take (Z.to_nat (mSize b)) d
                            ++ take (Z.to_nat (size' - mSize b)) data
                            ++ drop (Z.to_nat size') d) <$> mData b.
Proof.
  intros Hinv Hn Hch size'. unfold DoAppend.
  pose proof Hinv as (Hsz & Hcap & Hd).
  rewrite size_t_wrap_small by lia.
  destruct (Z.ltb_spec 0 (mCapacity b - mSize b)) as [Hav|Hav].
  - set (copyable := if n <=? mCapacity b - mSize b then n else mCapacity b - mSize b).
    assert (Hc : copyable = Z.min n (mCapacity b - mSize b)).
    { unfold copyable. destruct (Z.leb_spec n (mCapacity b - mSize b)); lia. }
    assert (Hs' : size' = mSize b + copyable) by (unfold size'; lia).
    assert (Hassert : (if NDEBUG bld then Ok tt
                       else if mChannels b =? 0 then Err UndefinedBehaviour
                       else c_assert bld (copyable mod mChannels b =? 0)) = Ok tt).
    { unfold c_assert. destruct (NDEBUG bld) eqn:Hnd; [reflexivity|].
      destruct Hch as [Hch|[Hch|[Hch1 Hch2]]]; [congruence|lia|].
      destruct (Z.eqb_spec (mChannels b) 0); [contradiction|].
      rewrite Hc, Hch2. reflexivity. }
    rewrite Hassert. simpl.
    destruct (mData b) as [d|] eqn:Hmd; [|lia].
    rewrite memcpy_within by lia. simpl.
    rewrite size_t_wrap_small by lia.
    destruct (Resize_returns (mSize b + copyable)
                (set_mData (Some (take (Z.to_nat (mSize b)) d
                   ++ take (Z.to_nat copyable) (drop (Z.to_nat 0) data)
                   ++ drop (Z.to_nat (mSize b + copyable)) d)) b))
      as [b' Hr]; [lia|right; reflexivity|].
    exists b'. split; [exact Hr|].
    pose proof (Resize_size _ _ _ Hr) as Hsize.
    apply Resize_fields in Hr as (_ & Hcp & Hdata & _). simpl in *.
    rewrite Hsize, Hcp, Hdata, Hs'.
    repeat split; try lia.
    do 4 f_equal. lia.
  - exists b. split; [reflexivity|].
    assert (size' = mSize b) as -> by (unfold size'; lia).
    repeat split.
    destruct (mData b) as [d|]; simpl; [|reflexivity].
    rewrite Z.sub_diag. simpl. rewrite take_drop. reflexivity.
Qed.

Lemma Append_Invariant data n (b b' : AudioBlock T) :
  Invariant bld b → 0 ≤ n → Append bld data n b = Ok b' →
  Invariant bld b' ∧ mCapacity b' = mCapacity b.
Proof.
  intros Hinv Hn. unfold Append.
  destruct data as [d|]; [|intros [= <-]; split; [assumption|reflexivity]].
  destruct (n =? 0); [intros [= <-]; split; [assumption|reflexivity]|].
  apply DoAppend_Invariant; assumption.
Qed.

Lemma Append_appended (data : list T) n (b : AudioBlock T) :
  Invariant bld b → 0 ≤ n ≤ Z.of_nat (length data) → channels_divide bld n b →
  let size' := Z.min (mSize b + n) (mCapacity b) in
  ∃ b', Append bld (Some data) n b = Ok b'
        ∧ mSize b' = size'
        ∧ mCapacity b' = mCapacity b
        ∧ mData b' = (λ d, take (Z.to_nat (mSize b)) d
                            ++ take (Z.to_nat (size' - mSize b)) data
                            ++ drop (Z.to_nat size') d) <$> mData b.
Proof.
  intros Hinv Hn Hch size'. unfold Append.
  destruct (Z.eqb_spec n 0) as [->|Hne]; [|apply DoAppend_appended; assumption].
  pose proof Hinv as (Hsz & _).
  exists b. split; [reflexivity|].
  assert (size' = mSize b) as -> by (unfold size'; lia).
  repeat split.
  destruct (mData b) as [d|]; simpl; [|reflexivity].
  rewrite Z.sub_diag. simpl. rewrite take_drop. reflexivity.
Qed.

Lemma Append_block_Invariant (a b b' : AudioBlock T) :
  Invariant bld b → Invariant bld a → Append_block bld a b = Ok b' →
  Invariant bld b' ∧ mCapacity b' = mCapacity b.
Proof.
  intros Hinv Ha. unfold Append_block.
  repeat (destruct (c_assert bld _); simpl; [|discriminate]).
  destruct (_ || _); [intros [= <-]; split; [assumption|reflexivity]|].
  apply DoAppend_Invariant; [assumption|]. destruct Ha as (? & _).
  unfold Size. lia.
Qed.

(** ** GetSubBlock *)

Lemma GetSubBlock_Invariant start size (src dst dst' : AudioBlock T) :
  Invariant bld dst → Invariant bld src → 0 ≤ start → 0 ≤ size →
  GetSubBlock bld start size dst src = Ok dst' →
  Invariant bld dst' ∧ mCapacity dst' = mCapacity dst.
Proof.
  intros Hd Hs Hstart Hsize. unfold GetSubBlock.
  destruct (_ || _ || _) eqn:Hguard.
  - intros Hr. split.
    + eapply Resize_Invariant; [exact Hd| |exact Hr]. lia.
    + apply Resize_fields in Hr as (_ & -> & _). reflexivity.
  - apply orb_false_elim in Hguard as [Hguard _].
    apply orb_false_elim in Hguard as [_ Hguard].
    apply negb_false_iff, andb_true_iff in Hguard as [_ Hlt].
    apply Z.ltb_lt in Hlt.
    pose proof Hs as (Hssz & Hscap & _).
    rewrite size_t_wrap_small by lia.
    destruct (memcpy _ _ _ _ _) as [d|] eqn:Hcp; simpl; [|discriminate].
    intros Hr.
    assert (Hinv1 : Invariant bld (set_mData d dst)).
    { apply Invariant_set_mData; [assumption|].
      eapply memcpy_extent; [|eassumption]. lia. }
    split.
    + eapply Resize_Invariant; [exact Hinv1| |exact Hr]. lia.
    + apply Resize_fields in Hr as (_ & -> & _). reflexivity.
Qed.

(** The guard: a null block or a start outside the available data. *)
Lemma GetSubBlock_guarded start size (src dst : AudioBlock T) :
  IsNull src = true ∨ IsNull dst = true ∨ ¬ (0 ≤ start < mSize src) ∨ size < 0 →
  GetSubBlock bld start size dst src = Resize bld 0 dst.
Proof.
  intros Hg. unfold GetSubBlock.
  replace (_ || _ || _) with true; [reflexivity|]. symmetry.
  destruct Hg as [->|[->|[Hg|Hg]]];
    [reflexivity|destruct (IsNull src); reflexivity| |].
  - apply orb_true_iff. left. apply orb_true_iff. right.
    apply negb_true_iff, andb_false_iff.
    destruct (Z.leb_spec 0 start); [|left; reflexivity].
    right. apply Z.ltb_ge. lia.
  - apply orb_true_iff. right. apply negb_true_iff, Z.leb_gt. exact Hg.
Qed.

Lemma GetSubBlock_unguarded start size (src dst : AudioBlock T) :
  IsNull src = false → IsNull dst = false → 0 ≤ start < mSize src → 0 ≤ size →
  mSize src < size_t_range bld →
  GetSubBlock bld start size dst src
  = let sbsize := Z.min size (mSize src - start) in
    let* d := memcpy (Data dst) 0 (mData src) start sbsize in
    Resize bld sbsize (set_mData d dst).
Proof.
  intros Hs Hd Hstart Hsize Hbits. unfold GetSubBlock.
  rewrite Hs, Hd. simpl.
  replace (0 <=? start) with true by (symmetry; apply Z.leb_le; lia).
  replace (start <? mSize src) with true by (symmetry; apply Z.ltb_lt; lia).
  replace (0 <=? size) with true by (symmetry; apply Z.leb_le; lia).
  simpl. rewrite size_t_wrap_small by lia. reflexivity.
Qed.

(** When the sub-block fits the destination. *)
Lemma GetSubBlock_copied start size (src dst : AudioBlock T) :
  Invariant bld src → Invariant bld dst →
  IsNull src = false → IsNull dst = false → 0 ≤ start < mSize src → 0 ≤ size →
  let sbsize := Z.min size (mSize src - start) in
  sbsize ≤ mCapacity dst →
  ∃ dst', GetSubBlock bld start size dst src = Ok dst'
          ∧ mSize dst' = sbsize
          ∧ start + sbsize ≤ mSize src
          ∧ samples dst' = take (Z.to_nat sbsize) (drop (Z.to_nat start) (samples src))
                           ++ drop (Z.to_nat sbsize) (samples dst).
Proof.
  intros Hsrc Hdst Hns Hnd Hstart Hsize sbsize Hfit.
  pose proof Hsrc as (Hssz & Hscap & Hsd). pose proof Hdst as (Hdsz & Hdcap & Hdd).
  rewrite GetSubBlock_unguarded by (try assumption; lia).
  fold sbsize. cbv zeta. unfold Data, samples, IsNull in *.
  destruct (mData src) as [s|]; [|discriminate].
  destruct (mData dst) as [d|] eqn:Hmd; [|discriminate].
  rewrite memcpy_within by lia. simpl.
  destruct (Resize_returns sbsize
              (set_mData (Some (take (Z.to_nat 0) d
                 ++ take (Z.to_nat sbsize) (drop (Z.to_nat start) s)
                 ++ drop (Z.to_nat (0 + sbsize)) d)) dst))
    as [dst' Hr]; [lia|right; reflexivity|].
  exists dst'. split; [exact Hr|].
  pose proof (Resize_size _ _ _ Hr) as Hsz.
  apply Resize_fields in Hr as (_ & _ & Hdata & _). simpl in *.
  rewrite Hsz, Hdata. simpl. repeat split; lia.
Qed.

(** When it does not: the copy runs past the end of the destination. *)
Lemma GetSubBlock_overrun start size (src dst : AudioBlock T) :
  Invariant bld src → Invariant bld dst →
  IsNull src = false → IsNull dst = false → 0 ≤ start < mSize src → 0 ≤ size →
  mCapacity dst < Z.min size (mSize src - start) →
  GetSubBlock bld start size dst src = Err UndefinedBehaviour.
Proof.
  intros Hsrc Hdst Hns Hnd Hstart Hsize Hover.
  pose proof Hsrc as (Hssz & Hscap & Hsd). pose proof Hdst as (Hdsz & Hdcap & Hdd).
  rewrite GetSubBlock_unguarded by (try assumption; lia).
  cbv zeta. unfold Data, IsNull in *.
  destruct (mData dst) as [d|]; [|discriminate].
  rewrite memcpy_outside by lia. reflexivity.
Qed.

(** ** Copies *)

Lemma AudioBlock_copy_fields (b c : AudioBlock T) :
  AudioBlock_copy b = Ok c →
  mID c = 0 ∧ mCapacity c = mCapacity b ∧ mSize c = mSize b
  ∧ mDuration c = mDuration b ∧ mSampleRate c = mSampleRate b
  ∧ mChannels c = mChannels b ∧ mTimestamp c = mTimestamp b
  ∧ mNormFactor c = mNormFactor b.
Proof.
  unfold AudioBlock_copy.
  destruct (if mCapacity b =? 0 then _ else _); simpl; [|discriminate].
  intros [= <-]. simpl. repeat split.
Qed.

Lemma AudioBlock_copy_returns (b : AudioBlock T) :
  Invariant bld b →
  ∃ c, AudioBlock_copy b = Ok c ∧ samples c = samples b ∧ Invariant bld c.
Proof.
  intros (Hsz & Hcap & Hd). unfold AudioBlock_copy, samples.
  destruct (Z.eqb_spec (mCapacity b) 0) as [Hz|Hnz]; simpl.
  - eexists. split; [reflexivity|]. simpl. split.
    + destruct (mData b) as [d|]; [|reflexivity]. simpl.
      destruct d; [reflexivity|]. simpl in Hd. lia.
    + unfold Invariant. simpl. repeat split; lia.
  - destruct (mData b) as [d|]; [|contradiction].
    replace (mCapacity b <=? Z.of_nat (length d)) with true
      by (symmetry; apply Z.leb_le; lia).
    simpl. eexists. split; [reflexivity|]. simpl.
    assert (Htake : take (Z.to_nat (mCapacity b)) d = d) by (apply take_ge; lia).
    rewrite Htake. split; [reflexivity|].
    unfold Invariant. simpl. repeat split; lia.
Qed.

Lemma Swap_fields (b1 b2 : AudioBlock T) :
  let '(b1', b2') := Swap b1 b2 in
  mID b1' = mID b1 ∧ mID b2' = mID b2
  ∧ mCapacity b1' = mCapacity b2 ∧ mCapacity b2' = mCapacity b1
  ∧ mDuration b1' = mDuration b2 ∧ mDuration b2' = mDuration b1
  ∧ mSize b1' = mSize b2 ∧ mSize b2' = mSize b1
  ∧ mSampleRate b1' = mSampleRate b2 ∧ mSampleRate b2' = mSampleRate b1
  ∧ mChannels b1' = mChannels b2 ∧ mChannels b2' = mChannels b1
  ∧ mData b1' = mData b2 ∧ mData b2' = mData b1
  ∧ mTimestamp b1' = mTimestamp b2 ∧ mTimestamp b2' = mTimestamp b1
  ∧ mNormFactor b1' = mNormFactor b2 ∧ mNormFactor b2' = mNormFactor b1.
Proof. simpl. repeat split. Qed.

Lemma assign_fields (this arg this' : AudioBlock T) :
  assign this arg = Ok this' →
  mID this' = mID this ∧ mCapacity this' = mCapacity arg ∧ mSize this' = mSize arg
  ∧ mTimestamp this' = mTimestamp arg ∧ mNormFactor this' = mNormFactor arg.
Proof.
  unfold assign.
  destruct (AudioBlock_copy arg) as [c|] eqn:Hc; simpl; [|discriminate].
  intros [= <-]. simpl.
  apply AudioBlock_copy_fields in Hc as (_ & ? & ? & _ & _ & _ & ? & ?).
  repeat split; assumption.
Qed.

Lemma assign_returns (this arg : AudioBlock T) :
  Invariant bld arg →
  ∃ this', assign this arg = Ok this' ∧ samples this' = samples arg
           ∧ Invariant bld this'.
Proof.
  intros Ha. destruct (AudioBlock_copy_returns arg Ha) as (c & Hc & Hs & Hi).
  unfold assign. rewrite Hc. simpl. eexists. split; [reflexivity|].
  split; [exact Hs|]. exact Hi.
Qed.

(** ** Construction *)

Lemma ComputeNormalizationFactor_Invariant (b : AudioBlock T) :
  Invariant bld b → Invariant bld (ComputeNormalizationFactor b).
Proof. unfold ComputeNormalizationFactor. destruct is_Sfloat; intros Hi; exact Hi. Qed.

Lemma AudioBlock_default_Invariant : Invariant bld (AudioBlock_default (T := T)).
Proof.
  apply ComputeNormalizationFactor_Invariant. unfold Invariant. simpl.
  pose proof size_t_range_pos. repeat split; lia.
Qed.

Lemma AudioBlock_create_Invariant nsamples sampleRate nchans initSize (b : AudioBlock T) :
  0 ≤ nsamples < size_t_range bld →
  AudioBlock_create bld nsamples sampleRate nchans initSize = Ok b →
  Invariant bld b.
Proof.
  intros Hn. unfold AudioBlock_create, Create.
  repeat (destruct (c_assert bld _); simpl; [|discriminate]).
  destruct (nchans =? 0); simpl; [discriminate|].
  intros [= <-]. apply ComputeNormalizationFactor_Invariant.
  pose proof size_t_range_pos as Hpos.
  set (cap := if negb (nsamples mod nchans =? 0) then _ else nsamples).
  assert (Hcap : 0 ≤ cap < size_t_range bld).
  { unfold cap. destruct (negb _); [|exact Hn].
    unfold size_t_wrap at 1. apply Z.mod_pos_bound. exact Hpos. }
  set (size0 := if initSize <? 0 then cap else size_t_wrap bld initSize).
  assert (Hs0 : 0 ≤ size0).
  { unfold size0. destruct (initSize <? 0); [lia|].
    unfold size_t_wrap. apply Z.mod_pos_bound. exact Hpos. }
  unfold Invariant. simpl. rewrite length_replicate.
  destruct (Z.ltb_spec cap size0); repeat split; lia.
Qed.

(** ** Stores of samples and the channel count *)

Lemma SetChannels_Invariant nchans (b b' : AudioBlock T) :
  Invariant bld b → SetChannels bld nchans b = Ok b' → Invariant bld b'.
Proof.
  intros Hinv. unfold SetChannels.
  destruct (c_assert bld _); simpl; [|discriminate].
  intros [= <-]. exact Hinv.
Qed.

Lemma Data_store_Invariant i x (b b' : AudioBlock T) :
  Invariant bld b → Data_store i x b = Ok b' → Invariant bld b'.
Proof.
  intros Hinv. unfold Data_store.
  destruct (mData b) as [d|] eqn:Hd; [|discriminate].
  destruct (_ && _); [|discriminate]. intros [= <-].
  apply Invariant_set_mData; [exact Hinv|].
  rewrite Hd. simpl. rewrite length_insert. reflexivity.
Qed.

Lemma subscript_store_Invariant i x (b b' : AudioBlock T) :
  Invariant bld b → subscript_store bld i x b = Ok b' → Invariant bld b'.
Proof.
  intros Hinv. unfold subscript_store.
  destruct (c_assert bld _); simpl; [|discriminate].
  apply Data_store_Invariant, Hinv.
Qed.

(** ** Every reachable block satisfies the invariant *)

Lemma reachable_Invariant (b : AudioBlock T) : reachable bld b → Invariant bld b.
Proof.
  induction 1 as
    [ | ? ? ? ? ? Hn _ _ Hc
      | b c _ IH Hc
      | b a b' _ _ _ IHa Hc
      | |
      | nchans b b' _ IH _ Hr
      | i x b b' _ IH _ Hr
      | i x b b' _ IH Hr
      | n b b' _ IH Hn Hr
      | data n b b' w _ IH Hn Hr
      | data n b b' _ IH Hn Hr
      | a b b' _ IHb _ IHa Hr
      | start size src dst dst' _ IHs _ IHd Hst Hsz Hr ].
  - apply AudioBlock_default_Invariant.
  - eapply AudioBlock_create_Invariant; eassumption.
  - destruct (AudioBlock_copy_returns b IH) as (c' & Hc' & _ & Hi). congruence.
  - destruct (assign_returns b a IHa) as (c' & Hc' & _ & Hi). congruence.
  - assumption.
  - assumption.
  - eapply SetChannels_Invariant; eassumption.
  - eapply subscript_store_Invariant; eassumption.
  - eapply Data_store_Invariant; eassumption.
  - eapply Resize_Invariant; [exact IH| |exact Hr]. lia.
  - eapply SetData_Invariant; [exact IH| |exact Hr]. lia.
  - eapply Append_Invariant; [exact IH| |exact Hr]. lia.
  - eapply Append_block_Invariant; [exact IHb|exact IHa|exact Hr].
  - eapply GetSubBlock_Invariant; [exact IHd|exact IHs| | |exact Hr]; lia.
Qed.

Lemma Invariant_extent (b : AudioBlock T) :
  Invariant bld b → Z.of_nat (length (samples b)) = mCapacity b.
Proof.
  intros (_ & _ & Hd). unfold samples. destruct (mData b); simpl; lia.
Qed.

(** ** The claims on sizes *)

(** C8. For every block a client can hold, [Size()] is at most
    [Capacity()], and the mutating members keep the buffer and its
    capacity: [Resize(n)] sets the size to [min(n, Capacity())];
    [Append(data, n)] of a buffer of [n] samples sets the size to
    [min(oldSize + n, Capacity())] and writes only the prefix of the data
    that fits, after the samples already there; [SetData(data, n)] writes
    the first [min(n, Capacity())] samples and returns that number.
    Each member returns under the conditions it asserts. *)
Theorem AudioBlock_size_within_capacity (b : AudioBlock T) :
  reachable bld b →
  Size b ≤ Capacity b
  ∧ (∀ n, 0 ≤ n → NDEBUG bld = true ∨ IsNull b = false →
       ∃ b', Resize bld n b = Ok b'
             ∧ Size b' = Z.min n (Capacity b)
             ∧ Capacity b' = Capacity b ∧ Data b' = Data b)
  ∧ (∀ (data : list T) n,
       0 ≤ n ≤ Z.of_nat (length data) → channels_divide bld n b →
       ∃ b', Append bld (Some data) n b = Ok b'
             ∧ Size b' = Z.min (Size b + n) (Capacity b)
             ∧ Capacity b' = Capacity b
             ∧ length (samples b') = length (samples b)
             ∧ Data b' = (λ d, take (Z.to_nat (Size b)) d
                               ++ take (Z.to_nat (Size b' - Size b)) data
                               ++ drop (Z.to_nat (Size b')) d) <$> Data b)
  ∧ (∀ (data : list T) n,
       0 ≤ n → NDEBUG bld = true ∨ IsNull b = false →
       Z.min n (Capacity b) ≤ Z.of_nat (length data) →
       ∃ b', SetData bld (Some data) n b = Ok (b', Z.min n (Capacity b))
             ∧ Size b' = Z.min n (Capacity b)
             ∧ Capacity b' = Capacity b
             ∧ length (samples b') = length (samples b)
             ∧ Data b' = (λ d, take (Z.to_nat (Size b')) data
                               ++ drop (Z.to_nat (Size b')) d) <$> Data b).
Proof.
  intros Hreach. pose proof (reachable_Invariant b Hreach) as Hinv.
  unfold Size, Capacity, Data. split; [destruct Hinv as (? & _); lia|].
  split; [|split].
  - intros n Hn Hok. destruct (Resize_returns n b Hn Hok) as [b' Hr].
    exists b'. pose proof (Resize_size _ _ _ Hr).
    pose proof (Resize_fields _ _ _ Hr) as (_ & ? & ? & _). auto.
  - intros data n Hn Hch.
    destruct (Append_appended data n b Hinv Hn Hch) as (b' & Hr & Hs & Hc & Hd).
    exists b'. rewrite Hs. repeat split; try assumption.
    destruct (Append_Invariant _ _ _ _ Hinv (proj1 Hn) Hr) as [Hinv' _].
    apply Invariant_extent in Hinv, Hinv'. lia.
  - intros data n Hn Hok Hdata.
    destruct (SetData_written data n b Hinv Hn Hok Hdata) as (b' & Hr & Hs & Hc & Hd).
    exists b'. rewrite Hs. repeat split; try assumption.
    destruct (SetData_Invariant _ _ _ _ _ Hinv Hn Hr) as [Hinv' _].
    apply Invariant_extent in Hinv, Hinv'. lia.
Qed.

(** C9. The ID is left out of copies: the copy constructor gives a block
    with ID 0 and the capacity, size, samples, timestamp and
    normalisation factor of its source; the assignment operator keeps the
    ID of its target while taking those of the source; [Swap] exchanges
    every member but the ID. *)
Theorem AudioBlock_ID_not_copied (source target : AudioBlock T) :
  reachable bld source →
  (∃ c, AudioBlock_copy source = Ok c
        ∧ ID c = 0
        ∧ Capacity c = Capacity source ∧ Size c = Size source
        ∧ samples c = samples source
        ∧ Timestamp c = Timestamp source ∧ NormFactor c = NormFactor source)
  ∧ (∃ t', assign target source = Ok t'
           ∧ ID t' = ID target
           ∧ Capacity t' = Capacity source ∧ Size t' = Size source
           ∧ samples t' = samples source
           ∧ Timestamp t' = Timestamp source ∧ NormFactor t' = NormFactor source)
  ∧ (let '(b1, b2) := Swap target source in
     ID b1 = ID target ∧ ID b2 = ID source
     ∧ mCapacity b1 = mCapacity source ∧ mCapacity b2 = mCapacity target
     ∧ mDuration b1 = mDuration source ∧ mDuration b2 = mDuration target
     ∧ mSize b1 = mSize source ∧ mSize b2 = mSize target
     ∧ mSampleRate b1 = mSampleRate source ∧ mSampleRate b2 = mSampleRate target
     ∧ mChannels b1 = mChannels source ∧ mChannels b2 = mChannels target
     ∧ mData b1 = mData source ∧ mData b2 = mData target
     ∧ mTimestamp b1 = mTimestamp source ∧ mTimestamp b2 = mTimestamp target
     ∧ mNormFactor b1 = mNormFactor source ∧ mNormFactor b2 = mNormFactor target).
Proof.
  intros Hreach. pose proof (reachable_Invariant source Hreach) as Hinv.
  unfold ID, Capacity, Size, Timestamp, NormFactor.
  split; [|split].
  - destruct (AudioBlock_copy_returns source Hinv) as (c & Hc & Hs & _).
    exists c. pose proof (AudioBlock_copy_fields _ _ Hc) as (? & ? & ? & _ & _ & _ & ? & ?).
    repeat split; assumption.
  - destruct (assign_returns target source Hinv) as (t' & Ht & Hs & _).
    exists t'. pose proof (assign_fields _ _ _ Ht) as (? & ? & ? & ? & ?).
    repeat split; assumption.
  - apply Swap_fields.
Qed.

(** [GetSubBlock] where it does what its callers expect, on blocks a
    client can hold, with a start and a size of type [size_t]. If either
    block is null or the start is not strictly less than the size of the
    source, then, where the destination is not null or assertions are
    compiled out, the destination is resized to 0 and its buffer is left
    as it was. Otherwise, if [min(size, sourceSize - start)] samples fit
    the capacity of the destination, exactly that many samples are copied
    from offset [start] of the source to the front of the destination,
    whose size becomes that number; the samples read lie within the
    available data of the source. *)
Theorem GetSubBlock_within_destination (src dst : AudioBlock T) (start size : Z) :
  reachable bld src → reachable bld dst → 0 ≤ start → 0 ≤ size →
  (IsNull src = true ∨ IsNull dst = true ∨ Size src ≤ start →
   NDEBUG bld = true ∨ IsNull dst = false →
   ∃ dst', GetSubBlock bld start size dst src = Ok dst'
           ∧ Size dst' = 0 ∧ Data dst' = Data dst)
  ∧ (IsNull src = false → IsNull dst = false → start < Size src →
     Z.min size (Size src - start) ≤ Capacity dst →
     ∃ dst', GetSubBlock bld start size dst src = Ok dst'
             ∧ Size dst' = Z.min size (Size src - start)
             ∧ start + Size dst' ≤ Size src
             ∧ samples dst'
               = take (Z.to_nat (Size dst')) (drop (Z.to_nat start) (samples src))
                 ++ drop (Z.to_nat (Size dst')) (samples dst)).
Proof.
  intros Hsrc Hdst Hstart Hsize.
  apply reachable_Invariant in Hsrc, Hdst. unfold Size, Capacity, Data. split.
  - intros Hguard Hok.
    rewrite GetSubBlock_guarded by (destruct Hguard as [?|[?|?]]; auto; right; right; left; lia).
    destruct (Resize_returns 0 dst ltac:(lia) Hok) as [dst' Hr].
    exists dst'. split; [exact Hr|].
    pose proof (Resize_size _ _ _ Hr) as Hs.
    apply Resize_fields in Hr as (_ & _ & Hd & _).
    destruct Hdst as (? & _). split; [lia|exact Hd].
  - intros Hns Hnd Hlt Hfit.
    destruct (GetSubBlock_copied start size src dst Hsrc Hdst Hns Hnd
                ltac:(lia) Hsize Hfit) as (dst' & Hr & Hs & Hin & Hd).
    exists dst'. rewrite Hs. auto.
Qed.

End Proofs.

(** ** The members at concrete blocks *)

(** The blocks of the examples are built by the constructor. *)
Ltac constructed n r c i :=
  apply (reach_create debug64 n r c i);
  [ unfold size_t_range; simpl; lia
  | unfold size_t_range; simpl; lia
  | lia
  | reflexivity ].

(** Six samples appended to a block with room for two more: two are
    taken. *)
Lemma AudioBlock_size_within_capacity_witness :
  reachable debug64 stereo4
  ∧ Size stereo4 ≤ Capacity stereo4
  ∧ ∃ b', Append debug64 (Some [11; 12; 13; 14; 15; 16]) 6 stereo4 = Ok b'
          ∧ Size b' = 4 ∧ Data b' = Some [0; 0; 11; 12].
Proof.
  assert (Hreach : reachable debug64 stereo4)
    by constructed 4 (float_of_size 8000) 2 2.
  destruct (AudioBlock_size_within_capacity debug64 stereo4 Hreach)
    as (Hsize & _ & Happend & _).
  split; [exact Hreach|]. split; [exact Hsize|].
  destruct (Happend [11; 12; 13; 14; 15; 16] 6) as (b' & Hr & Hs & _ & _ & Hd).
  - simpl. lia.
  - right. right. split; [discriminate|reflexivity].
  - exists b'. split; [exact Hr|]. split; [exact Hs|].
    rewrite Hd, Hs. reflexivity.
Defined.

(** A block with ID 7 copied and assigned to a block with ID 9. *)
Lemma AudioBlock_ID_not_copied_witness :
  reachable debug64 (SetID 7 mono2)
  ∧ (∃ c, AudioBlock_copy (SetID 7 mono2) = Ok c ∧ ID c = 0)
  ∧ (∃ t', assign (SetID 9 mono4) (SetID 7 mono2) = Ok t' ∧ ID t' = 9 ∧ Capacity t' = 2).
Proof.
  assert (Hreach : reachable debug64 (SetID 7 mono2))
    by (apply reach_SetID; constructed 2 (float_of_size 8000) 1 (-1)).
  destruct (AudioBlock_ID_not_copied debug64 (SetID 7 mono2) (SetID 9 mono4) Hreach)
    as ((c & Hc & Hid & _) & (t' & Ht & Htid & Hcap & _) & _).
  split; [exact Hreach|]. split.
  - exists c. split; assumption.
  - exists t'. repeat split; assumption.
Defined.

(** Two samples from offset 1 of the block 1, 2, 3, 4 into a block of
    two. *)
Lemma GetSubBlock_within_destination_witness :
  reachable debug64 ramp4 ∧ reachable debug64 mono2
  ∧ ∃ dst', GetSubBlock debug64 1 2 mono2 ramp4 = Ok dst'
            ∧ Size dst' = 2 ∧ samples dst' = [2; 3].
Proof.
  assert (Hsrc : reachable debug64 ramp4).
  { apply (reach_SetData debug64 (Some [1; 2; 3; 4]) 4 mono4 ramp4 4);
      [ constructed 4 (float_of_size 8000) 1 (-1)
      | unfold size_t_range; simpl; lia
      | reflexivity ]. }
  assert (Hdst : reachable debug64 mono2)
    by constructed 2 (float_of_size 8000) 1 (-1).
  split; [exact Hsrc|]. split; [exact Hdst|].
  destruct (GetSubBlock_within_destination debug64 ramp4 mono2 1 2 Hsrc Hdst)
    as [_ Hcopy]; [lia|lia|].
  destruct Hcopy as (dst' & Hr & Hs & _ & Hd);
    [reflexivity|reflexivity|simpl; lia|simpl; lia|].
  exists dst'. split; [exact Hr|]. split; [exact Hs|]. rewrite Hd, Hs. reflexivity.
Defined.

(** C10. The code falls short of the claim. Asked for four samples of a
    full block of four into a block with room for two, [GetSubBlock]
    passes its guard, computes a sub-block of four samples and hands all
    four to [memcpy], which writes past the buffer of two: the copy is
    bounded by the source only, where [SetData] and [DoAppend] bound
    theirs by the capacity. The call does not return a destination of
    size four, in any build. With a null destination and assertions
    enabled, the guard calls [Resize(0)] on the block it has just found
    null, which stops on [assert(!IsNull())] instead of resizing to 0. *)
Lemma GetSubBlock_overruns_destination :
  IsNull mono4 = false ∧ IsNull mono2 = false ∧ 0 < Size mono4
  ∧ Capacity mono2 < Z.min 4 (Size mono4 - 0)
  ∧ GetSubBlock debug64 0 4 mono2 mono4 = Err UndefinedBehaviour
  ∧ GetSubBlock release64 0 4 mono2 mono4 = Err UndefinedBehaviour
  ∧ ¬ (∃ dst', GetSubBlock debug64 0 4 mono2 mono4 = Ok dst'
               ∧ Size dst' = Z.min 4 (Size mono4 - 0))
  ∧ GetSubBlock debug64 0 4 AudioBlock_default mono4 = Err AssertionFailed.
Proof.
  repeat split.
  intros (dst' & Hr & _). vm_compute in Hr. discriminate Hr.
Qed.

End AudioBlockProofs.

(** * Properties of KVDataStore.h *)

Module KVDataStoreProofs.
Import KVDataStore.

(** C1, as amended. [IsNull] holds exactly of the blocks whose three
    pointers, list header, header and body, are all null; [BodySize]
    plays no part. *)
Theorem IsNull_iff_all_unset (hdr : PListBlock) :
  IsNull hdr = true ↔ ListHeader hdr = None ∧ Header hdr = None ∧ Body hdr = None.
Proof.
  unfold IsNull.
  destruct (ListHeader hdr), (Header hdr), (Body hdr); simpl;
    split; try discriminate; try tauto;
    intros (? & ? & ?); discriminate.
Qed.

(** C1, as stated, fails: a block that carries only a list header has
    header and body unset and is not null. *)
Lemma IsNull_not_header_and_body :
  let hdr := mkPListBlock (Some (mkPListHeader 1 10)) None None 0 in
  ¬ (IsNull hdr = true ↔ Header hdr = None ∧ Body hdr = None).
Proof.
  simpl. intros [_ Hback]. specialize (Hback (conj eq_refl eq_refl)). discriminate.
Qed.

(** C6. A freshly constructed cache is empty: list id zero, accumulator
    zero, no block in the buffer. *)
Theorem BlockCache_new_empty :
  list_id BlockCache_new = 0
  ∧ accum BlockCache_new = 0
  ∧ buffer BlockCache_new = ∅
  ∧ ∀ bid, buffer BlockCache_new !! bid = None.
Proof.
  repeat split.
Qed.

End KVDataStoreProofs.

(** * Properties of TCDataStore.h *)

Module TCDataStoreProofs.
Import KVDataStore TCDataStore.

(** ** The codec *)

Lemma Z_of_byte_of_Z z : 0 ≤ z < 256 → Z_of_byte (byte_of_Z z) = z.
Proof.
  intros Hz. unfold Z_of_byte, byte_of_Z.
  destruct (Byte.of_N (Z.to_N z)) as [b|] eqn:Hb.
  - simpl. apply Byte.to_of_N in Hb. rewrite Hb. lia.
  - apply Byte.of_N_None_iff in Hb. lia.
Qed.

Lemma Z_of_byte_range b : 0 ≤ Z_of_byte b < 256.
Proof.
  unfold Z_of_byte. pose proof (Byte.to_N_bounded b). lia.
Qed.

Lemma get_put_varint_fuel fuel n rest :
  0 ≤ n < 128 ^ Z.of_nat (S fuel) →
  get_varint (put_varint_fuel (S fuel) n ++ rest) = Some (n, rest).
Proof.
  revert n. induction fuel as [|fuel IH]; intros n Hn.
  - change (128 ^ Z.of_nat 1) with 128 in Hn. simpl.
    destruct (Z.ltb_spec n 128) as [Hlt|Hge]; [|lia].
    simpl. rewrite Z_of_byte_of_Z by lia.
    destruct (Z.ltb_spec n 128); [reflexivity|lia].
  - change (put_varint_fuel (S (S fuel)) n)
      with (if n <? 128 then [byte_of_Z n]
            else byte_of_Z (128 + n mod 128) :: put_varint_fuel (S fuel) (n / 128)).
    destruct (Z.ltb_spec n 128) as [Hlt|Hge].
    + simpl. rewrite Z_of_byte_of_Z by lia.
      destruct (Z.ltb_spec n 128); [reflexivity|lia].
    + pose proof (Z.mod_pos_bound n 128 eq_refl) as Hmod.
      rewrite <- app_comm_cons.
      change (get_varint (?b :: ?l))
        with (if Z_of_byte b <? 128 then Some (Z_of_byte b, l)
              else match get_varint l with
                   | Some (hi, rest') => Some (Z_of_byte b - 128 + 128 * hi, rest')
                   | None => None
                   end).
      rewrite Z_of_byte_of_Z by lia.
      destruct (Z.ltb_spec (128 + n mod 128) 128); [lia|].
      rewrite IH.
      * f_equal. f_equal. pose proof (Z.div_mod n 128). lia.
      * rewrite (Nat2Z.inj_succ (S fuel)), Z.pow_succ_r in Hn by lia.
        split; [apply Z.div_pos; lia|].
        apply Z.div_lt_upper_bound; lia.
Qed.

Lemma varint_fuel_enough n : 0 ≤ n → n < 128 ^ Z.of_nat (S (Z.to_nat (Z.log2 n))).
Proof.
  intros Hn. pose proof (Z.log2_nonneg n) as Hl.
  rewrite Nat2Z.inj_succ, Z2Nat.id by lia.
  destruct (Z.eq_dec n 0) as [->|Hnz].
  - simpl. lia.
  - pose proof (Z.log2_spec n ltac:(lia)) as [_ Hup].
    eapply Z.lt_le_trans; [exact Hup|].
    apply Z.pow_le_mono_l. lia.
Qed.

Lemma get_put_varint n rest :
  0 ≤ n → get_varint (put_varint n ++ rest) = Some (n, rest).
Proof.
  intros Hn. unfold put_varint. apply get_put_varint_fuel.
  split; [exact Hn|]. apply varint_fuel_enough. exact Hn.
Qed.

Lemma put_varint_nonempty n : (1 ≤ length (put_varint n))%nat.
Proof.
  unfold put_varint. simpl. destruct (n <? 128); simpl; lia.
Qed.

Lemma zigzag_nonneg z : 0 ≤ zigzag z.
Proof. unfold zigzag. destruct (Z.ltb_spec z 0); lia. Qed.

Lemma unzigzag_zigzag z : unzigzag (zigzag z) = z.
Proof.
  unfold unzigzag, zigzag. destruct (Z.ltb_spec z 0).
  - replace (-2 * z - 1) with (1 + 2 * (- z - 1)) by lia.
    rewrite Z.even_add_mul_2. simpl.
    replace (1 + 2 * (- z - 1) + 1) with ((- z) * 2) by lia.
    rewrite Z.div_mul by lia. lia.
  - rewrite Z.even_mul. simpl.
    rewrite Z.mul_comm, Z.div_mul by lia. reflexivity.
Qed.

Lemma get_put_int z rest : get_int (put_int z ++ rest) = Some (z, rest).
Proof.
  unfold get_int, put_int. rewrite get_put_varint by apply zigzag_nonneg.
  rewrite unzigzag_zigzag. reflexivity.
Qed.

Lemma get_put_list_header lhdr rest :
  get_list_header (put_list_header lhdr ++ rest) = Some (lhdr, rest).
Proof.
  unfold get_list_header, put_list_header.
  rewrite <- app_assoc, get_put_int, get_put_int. destruct lhdr; reflexivity.
Qed.

Lemma get_put_block_header hdr rest :
  get_block_header (put_block_header hdr ++ rest) = Some (hdr, rest).
Proof.
  unfold get_block_header, put_block_header.
  rewrite <- !app_assoc, !get_put_int. simpl.
  destruct hdr as [id size records first]. simpl.
  destruct first; rewrite Z_of_byte_of_Z by lia; reflexivity.
Qed.

Lemma put_block_header_length hdr :
  MIN_HEADER_SIZE ≤ Z.of_nat (length (put_block_header hdr)).
Proof.
  unfold put_block_header, put_int, MIN_HEADER_SIZE. rewrite !length_app. simpl.
  pose proof (put_varint_nonempty (zigzag (bh_block_id hdr))).
  pose proof (put_varint_nonempty (zigzag (bh_body_size hdr))).
  pose proof (put_varint_nonempty (zigzag (bh_record_count hdr))).
  lia.
Qed.

Lemma RawBlockToBlock_encode_block hdr body :
  let raw := encode_block None hdr body in
  RawBlockToBlock raw (Z.of_nat (length raw)) false
  = Ok (mkPListBlock None (Some (sized hdr body)) (Some body) (Z.of_nat (length body))).
Proof.
  intros raw. unfold RawBlockToBlock.
  rewrite Nat2Z.id, firstn_all. subst raw. unfold encode_block. simpl app.
  pose proof (put_block_header_length (sized hdr body)) as Hlen.
  rewrite length_app.
  destruct (Z.ltb_spec (Z.of_nat (length (put_block_header (sized hdr body)) + length body))
                       MIN_HEADER_SIZE); [lia|].
  simpl. rewrite get_put_block_header. simpl.
  rewrite Z.eqb_refl. reflexivity.
Qed.

Lemma RawBlockToBlock_encode_first lhdr hdr body :
  bh_block_id hdr = 0 →
  let raw := encode_block (Some lhdr) hdr body in
  RawBlockToBlock raw (Z.of_nat (length raw)) true
  = Ok (mkPListBlock (Some lhdr) (Some (sized hdr body)) (Some body)
                     (Z.of_nat (length body))).
Proof.
  intros Hid raw. unfold RawBlockToBlock.
  rewrite Nat2Z.id, firstn_all. subst raw. unfold encode_block.
  rewrite Hid. simpl (0 =? 0). cbv iota.
  pose proof (put_block_header_length (sized hdr body)) as Hlen.
  rewrite !length_app.
  match goal with |- context [?a <? MIN_HEADER_SIZE] =>
    destruct (Z.ltb_spec a MIN_HEADER_SIZE); [lia|] end.
  rewrite get_put_list_header. simpl. rewrite get_put_block_header. simpl.
  rewrite Z.eqb_refl. reflexivity.
Qed.

(** C2. Round trip of the block codec. For a valid pair of a block
    header and a body, valid in that the header records the length of the
    body, decoding the encoded bytes gives back the header and the body;
    with the list header of block 0 in front, it gives back the list
    header as well. Both directions are functions of their arguments. *)
Theorem decode_encode_round_trip (hdr : PListBlockHeader) (body : list byte) :
  bh_body_size hdr = Z.of_nat (length body) →
  (let raw := encode_block None hdr body in
   RawBlockToBlock raw (Z.of_nat (length raw)) false
   = Ok (mkPListBlock None (Some hdr) (Some body) (Z.of_nat (length body))))
  ∧ (∀ lhdr, bh_block_id hdr = 0 →
       let raw := encode_block (Some lhdr) hdr body in
       RawBlockToBlock raw (Z.of_nat (length raw)) true
       = Ok (mkPListBlock (Some lhdr) (Some hdr) (Some body) (Z.of_nat (length body)))).
Proof.
  intros Hvalid.
  assert (Hs : sized hdr body = hdr).
  { unfold sized. rewrite <- Hvalid. destruct hdr; reflexivity. }
  split.
  - intros raw. subst raw. rewrite RawBlockToBlock_encode_block, Hs. reflexivity.
  - intros lhdr Hid raw. subst raw.
    rewrite RawBlockToBlock_encode_first, Hs by exact Hid. reflexivity.
Qed.

(** ** The index: what a flush, a cache switch and a cache write show *)

Lemma flush_fold_lookup (lid : Z) (idx : TCIndex) (m : gmap Z (list byte)) :
  let idx' := map_fold (λ bid raw acc, WriteBlock lid bid raw (Z.of_nat (length raw)) acc)
                       idx m in
  m_BlocksCache idx' = m_BlocksCache idx
  ∧ (∀ l, m_DBHandle idx' !! HeaderKey l = m_DBHandle idx !! HeaderKey l)
  ∧ (∀ l b, m_DBHandle idx' !! BlockKey l b
            = if l =? lid
              then match m !! b with
                   | Some raw => Some raw
                   | None => m_DBHandle idx !! BlockKey l b
                   end
              else m_DBHandle idx !! BlockKey l b).
Proof.
  cbv zeta.
  apply (map_fold_weak_ind
    (λ (r : TCIndex) (m : gmap Z (list byte)),
       m_BlocksCache r = m_BlocksCache idx
       ∧ (∀ l, m_DBHandle r !! HeaderKey l = m_DBHandle idx !! HeaderKey l)
       ∧ (∀ l b, m_DBHandle r !! BlockKey l b
                 = if l =? lid
                   then match m !! b with
                        | Some raw => Some raw
                        | None => m_DBHandle idx !! BlockKey l b
                        end
                   else m_DBHandle idx !! BlockKey l b))).
  - split; [reflexivity|]. split; [reflexivity|].
    intros l b. rewrite lookup_empty. destruct (l =? lid); reflexivity.
  - intros i x m' r Hnone (Hc & Hh & Hb). simpl. split; [exact Hc|]. split.
    + intros l. rewrite lookup_insert_ne by discriminate. apply Hh.
    + intros l b. destruct (decide (BlockKey lid i = BlockKey l b)) as [Heq|Hne].
      * injection Heq as <- <-. rewrite lookup_insert_eq, Z.eqb_refl, lookup_insert_eq.
        rewrite Nat2Z.id, firstn_all. reflexivity.
      * rewrite lookup_insert_ne by exact Hne. rewrite Hb.
        destruct (Z.eqb_spec l lid) as [->|]; [|reflexivity].
        rewrite lookup_insert_ne by congruence. reflexivity.
Qed.

Lemma FlushBlockCache_header l idx :
  m_DBHandle (FlushBlockCache idx) !! HeaderKey l = m_DBHandle idx !! HeaderKey l.
Proof.
  unfold FlushBlockCache, ClearCache, set_cache. simpl.
  apply (flush_fold_lookup (list_id (m_BlocksCache idx)) idx (buffer (m_BlocksCache idx))).
Qed.

Lemma FlushBlockCache_raw_block l b idx :
  raw_block l b (FlushBlockCache idx) = raw_block l b idx.
Proof.
  destruct (flush_fold_lookup (list_id (m_BlocksCache idx)) idx
              (buffer (m_BlocksCache idx))) as (_ & _ & Hb).
  cbv zeta in Hb.
  assert (Hflushed : raw_block l b (FlushBlockCache idx)
                     = m_DBHandle (FlushBlockCache idx) !! BlockKey l b).
  { unfold raw_block, FlushBlockCache, ClearCache, set_cache, cache_clear, cache_get.
    cbn [m_BlocksCache m_DBHandle list_id buffer BlockCache_new].
    rewrite lookup_empty. destruct (0 =? l); reflexivity. }
  rewrite Hflushed. unfold FlushBlockCache, ClearCache, set_cache.
  cbn [m_DBHandle]. rewrite Hb. unfold raw_block, cache_get.
  rewrite (Z.eqb_sym l). destruct (list_id (m_BlocksCache idx) =? l); reflexivity.
Qed.

Lemma switched_list lid idx : list_id (m_BlocksCache (switched lid idx)) = lid.
Proof.
  unfold switched. destruct (Z.eqb_spec (list_id (m_BlocksCache idx)) lid); [assumption|].
  reflexivity.
Qed.

Lemma switched_db lid idx : m_DBHandle (switched lid idx) = m_DBHandle idx.
Proof. unfold switched. destruct (_ =? _); reflexivity. Qed.

Lemma switched_raw_block lid b idx :
  raw_block lid b (switched lid idx) = raw_block lid b idx.
Proof.
  unfold switched. destruct (Z.eqb_spec (list_id (m_BlocksCache idx)) lid) as [|Hne];
    [reflexivity|].
  unfold raw_block, cache_get. simpl. rewrite Z.eqb_refl, lookup_empty.
  destruct (Z.eqb_spec (list_id (m_BlocksCache idx)) lid); [contradiction|reflexivity].
Qed.

(** The block written to the cache, with or without the flush that may
    follow. *)
Lemma cached_raw_block cfg lid bid raw n idx :
  list_id (m_BlocksCache idx) = lid →
  let cache := cache_accumulate n (cache_put bid raw (m_BlocksCache idx)) in
  let idx' := if FLUSH_THRESHOLD cfg <? accum cache
              then FlushBlockCache (set_cache cache idx) else set_cache cache idx in
  raw_block lid bid idx' = Some raw
  ∧ (∀ b, b ≠ bid → raw_block lid b idx' = raw_block lid b idx)
  ∧ (∀ l, m_DBHandle idx' !! HeaderKey l = m_DBHandle idx !! HeaderKey l).
Proof.
  intros Hlid cache idx'.
  assert (Hkeep : raw_block lid bid (set_cache cache idx) = Some raw
                  ∧ (∀ b, b ≠ bid → raw_block lid b (set_cache cache idx) = raw_block lid b idx)).
  { unfold raw_block, cache_get. simpl. rewrite Hlid, Z.eqb_refl. split.
    - rewrite lookup_insert_eq. reflexivity.
    - intros b Hb. rewrite lookup_insert_ne by congruence. reflexivity. }
  destruct Hkeep as [Hput Hframe]. subst idx'.
  destruct (FLUSH_THRESHOLD cfg <? accum cache).
  - split; [rewrite FlushBlockCache_raw_block; exact Hput|]. split.
    + intros b Hb. rewrite FlushBlockCache_raw_block. apply Hframe, Hb.
    + intros l. rewrite FlushBlockCache_header. reflexivity.
  - split; [exact Hput|]. split; [exact Hframe|]. reflexivity.
Qed.

Lemma stored_block_encoded lid bid idx hdr body :
  raw_block lid bid idx = Some (encode_block None hdr body) →
  stored_block lid bid idx = Ok (Some (sized hdr body, body)).
Proof.
  intros Hraw. unfold stored_block. rewrite Hraw.
  rewrite RawBlockToBlock_encode_block. reflexivity.
Qed.

Lemma stored_block_same lid bid idx idx' :
  raw_block lid bid idx' = raw_block lid bid idx →
  stored_block lid bid idx' = stored_block lid bid idx.
Proof. intros Hraw. unfold stored_block. rewrite Hraw. reflexivity. Qed.

(** ** AppendChunk *)

(** What a successful [AppendChunk] did: one block of the list holds
    [body'], which ends with the whole chunk; that block is either new,
    with the chunk as its body, or the last block of the list, which had
    room; the other blocks and all list headers of the collection are as
    before. *)
Lemma AppendChunk_Ok cfg lid lhdr hdr chunk chunk_size new_block idx idx' lhdr' hdr' :
  AppendChunk cfg lid lhdr hdr chunk chunk_size new_block idx = Ok (idx', lhdr', hdr') →
  let data := take (Z.to_nat chunk_size) chunk in
  let last := lh_block_count lhdr - 1 in
  ∃ body',
    raw_block lid (bh_block_id hdr') idx' = Some (encode_block None hdr' body')
    ∧ bh_body_size hdr' = Z.of_nat (length body')
    ∧ Z.of_nat (length body') ≤ BLOCK_CAPACITY cfg
    ∧ (∀ b, b ≠ bh_block_id hdr' → raw_block lid b idx' = raw_block lid b idx)
    ∧ (∀ l, m_DBHandle idx' !! HeaderKey l = m_DBHandle idx !! HeaderKey l)
    ∧ lh_record_count lhdr' = lh_record_count lhdr + bh_record_count hdr
    ∧ ((body' = data ∧ bh_block_id hdr' = last + 1
        ∧ lh_block_count lhdr' = lh_block_count lhdr + 1)
       ∨ (∃ h body,
            new_block = false ∧ 0 < lh_block_count lhdr
            ∧ stored_block lid last idx = Ok (Some (h, body))
            ∧ Z.of_nat (length body) + Z.of_nat (length data) ≤ BLOCK_CAPACITY cfg
            ∧ body' = body ++ data ∧ bh_block_id hdr' = last
            ∧ lh_block_count lhdr' = lh_block_count lhdr)).
Proof.
  intros Happ data last. unfold AppendChunk in Happ. fold data last in Happ.
  destruct (Z.ltb_spec (BLOCK_CAPACITY cfg) (Z.of_nat (length data))) as [|Hfits];
    [discriminate|].
  set (idx1 := switched lid idx) in Happ.
  set (fresh := (mkPListBlockHeader (last + 1) (Z.of_nat (length data))
                   (bh_record_count hdr) (last + 1 =? 0), data,
                 mkPListHeader (lh_block_count lhdr + 1) (lh_record_count lhdr))) in Happ.
  destruct (if new_block || (lh_block_count lhdr <=? 0) then Ok None
            else stored_block lid last idx1) as [current|] eqn:Hcur;
    [|discriminate].
  simpl in Happ.
  assert (Hplaced :
    ∃ h1 body1 lh1,
      match current with
      | Some (h, body) =>
          if BLOCK_CAPACITY cfg <? Z.of_nat (length body) + Z.of_nat (length data)
          then fresh
          else (mkPListBlockHeader last (Z.of_nat (length body) + Z.of_nat (length data))
                  (bh_record_count h + bh_record_count hdr) (bh_is_first h),
                body ++ data, lhdr)
      | None => fresh
      end = (h1, body1, lh1)
      ∧ bh_body_size h1 = Z.of_nat (length body1)
      ∧ Z.of_nat (length body1) ≤ BLOCK_CAPACITY cfg
      ∧ lh_record_count lh1 = lh_record_count lhdr
      ∧ ((body1 = data ∧ bh_block_id h1 = last + 1
          ∧ lh_block_count lh1 = lh_block_count lhdr + 1)
         ∨ (∃ h body,
              new_block = false ∧ 0 < lh_block_count lhdr
              ∧ stored_block lid last idx = Ok (Some (h, body))
              ∧ Z.of_nat (length body) + Z.of_nat (length data) ≤ BLOCK_CAPACITY cfg
              ∧ body1 = body ++ data ∧ bh_block_id h1 = last
              ∧ lh_block_count lh1 = lh_block_count lhdr))).
  { assert (Hfresh : ∃ h1 body1 lh1,
              fresh = (h1, body1, lh1)
              ∧ bh_body_size h1 = Z.of_nat (length body1)
              ∧ Z.of_nat (length body1) ≤ BLOCK_CAPACITY cfg
              ∧ lh_record_count lh1 = lh_record_count lhdr
              ∧ body1 = data ∧ bh_block_id h1 = last + 1
              ∧ lh_block_count lh1 = lh_block_count lhdr + 1).
    { eexists _, _, _. split; [reflexivity|]. simpl. repeat split. exact Hfits. }
    destruct current as [[h body]|].
    - destruct (Z.ltb_spec (BLOCK_CAPACITY cfg)
                  (Z.of_nat (length body) + Z.of_nat (length data))) as [Hover|Hroom].
      + destruct Hfresh as (h1 & body1 & lh1 & ? & ? & ? & ? & ? & ? & ?).
        exists h1, body1, lh1. repeat split; try assumption. left. auto.
      + eexists _, _, _. split; [reflexivity|]. simpl.
        rewrite length_app, Nat2Z.inj_add.
        repeat split; try lia.
        right. exists h, body.
        destruct new_block; [discriminate|].
        destruct (Z.leb_spec (lh_block_count lhdr) 0); [discriminate|]. simpl in Hcur.
        assert (Hsame : stored_block lid last idx = stored_block lid last idx1)
          by (symmetry; apply stored_block_same, switched_raw_block).
        rewrite Hsame, Hcur. repeat split; try lia.
    - destruct Hfresh as (h1 & body1 & lh1 & ? & ? & ? & ? & ? & ? & ?).
      exists h1, body1, lh1. repeat split; try assumption. left. auto. }
  destruct Hplaced as (h1 & body1 & lh1 & Heq & Hsize & Hcap & Hrec & Hwhere).
  rewrite Heq in Happ. injection Happ as <- <- <-.
  destruct (cached_raw_block cfg lid (bh_block_id h1) (encode_block None h1 body1)
              (Z.of_nat (length data)) idx1 (switched_list lid idx))
    as (Hput & Hframe & Hhdr).
  cbv zeta in Hput, Hframe, Hhdr.
  exists body1. split; [exact Hput|]. split; [exact Hsize|]. split; [exact Hcap|].
  split; [|split; [|split]].
  - intros b Hb. rewrite Hframe by exact Hb. apply switched_raw_block.
  - intros l. rewrite Hhdr. unfold idx1. rewrite switched_db. reflexivity.
  - simpl. lia.
  - simpl. exact Hwhere.
Qed.

(** C4. No chunk is split. After a successful [AppendChunk], one block
    of the list holds the whole chunk at the end of its body, within the
    block capacity, and no other block of the list has changed: that block
    is either a new one whose body is the chunk alone, or the last block
    with the chunk after what it held. If the chunk would overflow the
    last block, it is the new block. *)
Theorem AppendChunk_chunk_in_one_block
    cfg lid lhdr hdr chunk chunk_size new_block idx idx' lhdr' hdr' :
  AppendChunk cfg lid lhdr hdr chunk chunk_size new_block idx = Ok (idx', lhdr', hdr') →
  let data := take (Z.to_nat chunk_size) chunk in
  let last := lh_block_count lhdr - 1 in
  let target := bh_block_id hdr' in
  (∃ before,
     stored_block lid target idx' = Ok (Some (hdr', before ++ data))
     ∧ Z.of_nat (length (before ++ data)) ≤ BLOCK_CAPACITY cfg
     ∧ ((before = [] ∧ target = last + 1)
        ∨ (∃ h, stored_block lid last idx = Ok (Some (h, before)) ∧ target = last)))
  ∧ (∀ b, b ≠ target → raw_block lid b idx' = raw_block lid b idx)
  ∧ (∀ h body,
       stored_block lid last idx = Ok (Some (h, body)) →
       BLOCK_CAPACITY cfg < Z.of_nat (length body) + Z.of_nat (length data) →
       target = last + 1 ∧ stored_block lid target idx' = Ok (Some (hdr', data))).
Proof.
  intros Happ data last target.
  destruct (AppendChunk_Ok _ _ _ _ _ _ _ _ _ _ _ Happ)
    as (body' & Hraw & Hsize & Hcap & Hframe & _ & _ & Hwhere).
  fold data last target in Hraw, Hframe, Hwhere.
  assert (Hstored : stored_block lid target idx' = Ok (Some (hdr', body'))).
  { rewrite (stored_block_encoded _ _ _ _ _ Hraw). unfold sized. rewrite <- Hsize.
    destruct hdr'; reflexivity. }
  split; [|split].
  - destruct Hwhere as [(-> & Ht & _)|(h & body & _ & _ & Hold & _ & -> & Ht & _)].
    + exists []. split; [exact Hstored|]. split; [exact Hcap|]. left. auto.
    + exists body. split; [exact Hstored|]. split; [exact Hcap|]. right. eauto.
  - exact Hframe.
  - intros h body Hold Hover.
    destruct Hwhere as [(-> & Ht & _)|(h2 & body2 & _ & _ & Hold2 & Hroom & _)].
    + split; [exact Ht|exact Hstored].
    + rewrite Hold in Hold2. injection Hold2 as _ <-. lia.
Qed.

(** C5. The header of a list whose header key is absent from the
    collection is the zero-valued header, not an error. *)
Theorem GetPListHeader_absent (lid : Z) (idx : TCIndex) :
  m_DBHandle idx !! HeaderKey lid = None →
  GetPListHeader lid idx = Ok zero_list_header
  ∧ lh_block_count zero_list_header = 0 ∧ lh_record_count zero_list_header = 0.
Proof.
  intros Habsent. unfold GetPListHeader. rewrite Habsent. repeat split.
Qed.

(** ** Merge *)

Lemma GetPListHeader_same l idx idx' :
  m_DBHandle idx' !! HeaderKey l = m_DBHandle idx !! HeaderKey l →
  GetPListHeader l idx' = GetPListHeader l idx.
Proof. intros Hsame. unfold GetPListHeader. rewrite Hsame. reflexivity. Qed.

Lemma GetPListHeader_put l lhdr idx :
  m_DBHandle idx !! HeaderKey l = Some (put_list_header lhdr) →
  GetPListHeader l idx = Ok lhdr.
Proof.
  intros Hput. unfold GetPListHeader. rewrite Hput.
  rewrite <- (app_nil_r (put_list_header lhdr)), get_put_list_header. reflexivity.
Qed.

Lemma merge_blocks_headers cfg other lid bids lhdr self self' lhdr' :
  merge_blocks cfg other lid bids lhdr self = Ok (self', lhdr') →
  ∀ l, m_DBHandle self' !! HeaderKey l = m_DBHandle self !! HeaderKey l.
Proof.
  revert lhdr self. induction bids as [|bid bids IH]; intros lhdr self Hm l.
  - simpl in Hm. injection Hm as <- _. reflexivity.
  - simpl in Hm.
    destruct (stored_block lid bid other) as [[[h body]|]|]; simpl in Hm;
      [|eauto|discriminate].
    destruct (AppendChunk cfg lid lhdr h body (Z.of_nat (length body)) false self)
      as [[[self1 lhdr1] hdr1]|] eqn:Happ; simpl in Hm; [|discriminate].
    rewrite (IH _ _ Hm l).
    destruct (AppendChunk_Ok _ _ _ _ _ _ _ _ _ _ _ Happ) as (_ & _ & _ & _ & _ & Hh & _).
    apply Hh.
Qed.

Lemma merge_list_headers cfg other lid self self' :
  merge_list cfg other lid self = Ok self' →
  (∃ mine theirs blocks,
     GetPListHeader lid self = Ok mine
     ∧ GetPListHeader lid other = Ok theirs
     ∧ GetPListHeader lid self'
       = Ok (mkPListHeader blocks (lh_record_count mine + lh_record_count theirs)))
  ∧ (∀ l, l ≠ lid →
       m_DBHandle self' !! HeaderKey l = m_DBHandle self !! HeaderKey l).
Proof.
  unfold merge_list. intros Hm.
  destruct (GetPListHeader lid self) as [mine|]; simpl in Hm; [|discriminate].
  destruct (GetPListHeader lid other) as [theirs|]; simpl in Hm; [|discriminate].
  destruct (merge_blocks cfg other lid (seqZ 0 (lh_block_count theirs)) mine self)
    as [[self1 lhdr1]|] eqn:Hblocks; simpl in Hm; [|discriminate].
  injection Hm as <-. split.
  - exists mine, theirs, (lh_block_count lhdr1). repeat split.
    apply GetPListHeader_put. rewrite FlushBlockCache_header.
    unfold UpdateListHeader. simpl. apply lookup_insert_eq.
  - intros l Hne. rewrite FlushBlockCache_header.
    unfold UpdateListHeader. simpl. rewrite lookup_insert_ne by congruence.
    eapply merge_blocks_headers. exact Hblocks.
Qed.

Lemma merge_lists_totals cfg other lids self self' :
  NoDup lids → merge_lists cfg other lids self = Ok self' →
  ∀ l,
    (l ∈ lids →
       ∃ mine theirs blocks,
         GetPListHeader l self = Ok mine
         ∧ GetPListHeader l other = Ok theirs
         ∧ GetPListHeader l self'
           = Ok (mkPListHeader blocks (lh_record_count mine + lh_record_count theirs)))
    ∧ (l ∉ lids → m_DBHandle self' !! HeaderKey l = m_DBHandle self !! HeaderKey l).
Proof.
  intros Hnd. revert self. induction Hnd as [|lid lids Hnotin Hnd IH]; intros self Hm l.
  - simpl in Hm. injection Hm as <-. split; [|reflexivity].
    intros Hin. apply elem_of_nil in Hin. contradiction.
  - simpl in Hm.
    destruct (merge_list cfg other lid self) as [self1|] eqn:Hone; simpl in Hm;
      [|discriminate].
    destruct (merge_list_headers _ _ _ _ _ Hone) as [Hthis Hothers].
    destruct (IH _ Hm l) as [IHin IHout]. split.
    + intros Hin. apply elem_of_cons in Hin as [->|Hin].
      * destruct Hthis as (mine & theirs & blocks & Hmine & Htheirs & Hnew).
        exists mine, theirs, blocks. repeat split; try assumption.
        rewrite <- Hnew. apply GetPListHeader_same, (proj2 (IH _ Hm lid)), Hnotin.
      * destruct (IHin Hin) as (mine & theirs & blocks & Hmine & Htheirs & Hnew).
        exists mine, theirs, blocks. repeat split; try assumption.
        rewrite <- Hmine. symmetry. apply GetPListHeader_same, Hothers.
        intros ->. contradiction.
    + intros Hout. apply not_elem_of_cons in Hout as [Hne Hout].
      rewrite (IHout Hout). apply Hothers, Hne.
Qed.

Lemma elem_of_list_ids l idx :
  l ∈ list_ids idx ↔ is_Some (m_DBHandle idx !! HeaderKey l).
Proof.
  unfold list_ids. rewrite elem_of_elements, elem_of_set_omap. split.
  - intros (k & Hk & Hl). destruct k as [l'|]; simpl in Hl; [|discriminate].
    injection Hl as ->. apply elem_of_dom in Hk. exact Hk.
  - intros Hsome. exists (HeaderKey l). split; [|reflexivity].
    apply elem_of_dom. exact Hsome.
Qed.

(** C3. Merge totals. After a merge of a delta index into a main index,
    the record count in the main index's header of every list is the sum
    of the record counts the list had in main and in delta before the
    merge, a list absent from an index counting for zero there. *)
Theorem Merge_record_totals cfg (delta main main' : TCIndex) :
  Merge cfg delta main = Ok main' →
  ∀ l mine theirs,
    GetPListHeader l main = Ok mine →
    GetPListHeader l delta = Ok theirs →
    ∃ lhdr', GetPListHeader l main' = Ok lhdr'
             ∧ lh_record_count lhdr' = lh_record_count mine + lh_record_count theirs.
Proof.
  unfold Merge. intros Hm l mine theirs Hmine Htheirs.
  assert (Hnd : NoDup (list_ids delta)) by (unfold list_ids; apply NoDup_elements).
  destruct (merge_lists_totals _ _ _ _ _ Hnd Hm l) as [Hin Hout].
  destruct (decide (l ∈ list_ids delta)) as [Hl|Hl].
  - destruct (Hin Hl) as (mine' & theirs' & blocks & Hmine' & Htheirs' & Hnew).
    rewrite Hmine in Hmine'. rewrite Htheirs in Htheirs'.
    injection Hmine' as <-. injection Htheirs' as <-.
    eexists. split; [exact Hnew|]. reflexivity.
  - assert (Habsent : m_DBHandle delta !! HeaderKey l = None).
    { apply eq_None_not_Some. intros Hsome. apply Hl, elem_of_list_ids, Hsome. }
    unfold GetPListHeader in Htheirs. rewrite Habsent in Htheirs.
    injection Htheirs as <-.
    exists mine. split.
    + rewrite <- Hmine. apply GetPListHeader_same, Hout, Hl.
    + simpl. lia.
Qed.

(** ** The operations return on well-formed indexes *)

Lemma block_ok_encoded cfg hdr body :
  Z.of_nat (length body) ≤ BLOCK_CAPACITY cfg →
  block_ok cfg (encode_block None hdr body).
Proof.
  intros Hcap. exists (sized hdr body), body. split; [|exact Hcap].
  apply RawBlockToBlock_encode_block.
Qed.

Lemma well_formed_raw_block cfg lid bid idx raw :
  well_formed cfg idx → raw_block lid bid idx = Some raw → block_ok cfg raw.
Proof.
  intros (_ & Hdb & Hcache). unfold raw_block, cache_get.
  destruct (list_id (m_BlocksCache idx) =? lid).
  - destruct (buffer (m_BlocksCache idx) !! bid) as [r|] eqn:Hr.
    + intros [= <-]. eapply Hcache, Hr.
    + apply Hdb.
  - apply Hdb.
Qed.

Lemma well_formed_stored_block cfg lid bid idx :
  well_formed cfg idx →
  stored_block lid bid idx = Ok None
  ∨ ∃ h body, stored_block lid bid idx = Ok (Some (h, body))
              ∧ Z.of_nat (length body) ≤ BLOCK_CAPACITY cfg.
Proof.
  intros Hwf. unfold stored_block.
  destruct (raw_block lid bid idx) as [raw|] eqn:Hraw; [|left; reflexivity].
  destruct (well_formed_raw_block _ _ _ _ _ Hwf Hraw) as (h & body & -> & Hcap).
  right. exists h, body. split; [reflexivity|exact Hcap].
Qed.

Lemma well_formed_GetPListHeader cfg lid idx :
  well_formed cfg idx → ∃ lhdr, GetPListHeader lid idx = Ok lhdr.
Proof.
  intros (Hh & _). unfold GetPListHeader.
  destruct (m_DBHandle idx !! HeaderKey lid) as [raw|] eqn:Hraw; [|eauto].
  destruct (Hh _ _ Hraw) as [lhdr ->]. eauto.
Qed.

Lemma well_formed_switched cfg lid idx :
  well_formed cfg idx → well_formed cfg (switched lid idx).
Proof.
  intros (Hh & Hdb & Hcache). unfold switched.
  destruct (_ =? _); [repeat split; assumption|].
  split; [exact Hh|]. split; [exact Hdb|].
  simpl. intros b raw Hb. rewrite lookup_empty in Hb. discriminate.
Qed.

Lemma well_formed_FlushBlockCache cfg idx :
  well_formed cfg idx → well_formed cfg (FlushBlockCache idx).
Proof.
  intros (Hh & Hdb & Hcache).
  destruct (flush_fold_lookup (list_id (m_BlocksCache idx)) idx
              (buffer (m_BlocksCache idx))) as (_ & Hfh & Hfb).
  cbv zeta in Hfh, Hfb.
  unfold FlushBlockCache, ClearCache, set_cache, cache_clear. split; [|split].
  - cbn [m_DBHandle]. intros l raw. rewrite Hfh. apply Hh.
  - cbn [m_DBHandle]. intros l b raw. rewrite Hfb.
    destruct (l =? list_id (m_BlocksCache idx)); [|apply Hdb].
    destruct (buffer (m_BlocksCache idx) !! b) as [r|] eqn:Hr; [|apply Hdb].
    intros [= <-]. eapply Hcache, Hr.
  - cbn [m_BlocksCache buffer BlockCache_new]. intros b raw Hb.
    rewrite lookup_empty in Hb. discriminate.
Qed.

Lemma well_formed_UpdateListHeader cfg lid lhdr idx :
  well_formed cfg idx → well_formed cfg (UpdateListHeader lid lhdr idx).
Proof.
  intros (Hh & Hdb & Hcache). unfold UpdateListHeader. split; [|split]; simpl.
  - intros l raw. destruct (decide (lid = l)) as [->|Hne].
    + rewrite lookup_insert_eq. intros [= <-]. exists lhdr.
      rewrite <- (app_nil_r (put_list_header lhdr)). apply get_put_list_header.
    + rewrite lookup_insert_ne by congruence. apply Hh.
  - intros l b raw. rewrite lookup_insert_ne by discriminate. apply Hdb.
  - exact Hcache.
Qed.

Lemma well_formed_cached cfg bid hdr body n idx :
  well_formed cfg idx → Z.of_nat (length body) ≤ BLOCK_CAPACITY cfg →
  well_formed cfg
    (set_cache (cache_accumulate n
                  (cache_put bid (encode_block None hdr body) (m_BlocksCache idx))) idx).
Proof.
  intros (Hh & Hdb & Hcache) Hcap. split; [exact Hh|]. split; [exact Hdb|].
  simpl. intros b raw. destruct (decide (bid = b)) as [->|Hne].
  - rewrite lookup_insert_eq. intros [= <-]. apply block_ok_encoded, Hcap.
  - rewrite lookup_insert_ne by exact Hne. apply Hcache.
Qed.

(** [AppendChunk] returns on a well-formed index for every chunk that a
    block can hold, and leaves the index well-formed. *)
Lemma AppendChunk_returns cfg lid lhdr hdr chunk chunk_size new_block idx :
  well_formed cfg idx →
  Z.of_nat (length (take (Z.to_nat chunk_size) chunk)) ≤ BLOCK_CAPACITY cfg →
  ∃ idx' lhdr' hdr',
    AppendChunk cfg lid lhdr hdr chunk chunk_size new_block idx = Ok (idx', lhdr', hdr')
    ∧ well_formed cfg idx'.
Proof.
  intros Hwf Hfits. unfold AppendChunk.
  set (data := take (Z.to_nat chunk_size) chunk) in *.
  destruct (Z.ltb_spec (BLOCK_CAPACITY cfg) (Z.of_nat (length data))); [lia|].
  pose proof (well_formed_switched cfg lid idx Hwf) as Hwf1.
  set (idx1 := switched lid idx) in *.
  set (last := lh_block_count lhdr - 1).
  assert (Hcur : ∃ current,
            (if new_block || (lh_block_count lhdr <=? 0) then Ok None
             else stored_block lid last idx1) = Ok current
            ∧ match current with
              | Some (_, body) => Z.of_nat (length body) ≤ BLOCK_CAPACITY cfg
              | None => True
              end).
  { destruct (new_block || (lh_block_count lhdr <=? 0)); [exists None; auto|].
    destruct (well_formed_stored_block cfg lid last idx1 Hwf1)
      as [->|(h & body & -> & Hcap)].
    - exists None. auto.
    - exists (Some (h, body)). auto. }
  destruct Hcur as (current & -> & Hbody). simpl.
  set (placed := match current with
                 | Some (h, body) => if _ <? _ then _ else _
                 | None => _
                 end).
  assert (Hplaced : Z.of_nat (length (snd (fst placed))) ≤ BLOCK_CAPACITY cfg).
  { unfold placed. destruct current as [[h body]|]; [|assumption].
    destruct (Z.ltb_spec (BLOCK_CAPACITY cfg)
                (Z.of_nat (length body) + Z.of_nat (length data))); [assumption|].
    simpl. rewrite length_app. lia. }
  destruct placed as [[hdr' body'] lhdr']. simpl in Hplaced.
  eexists _, _, _. split; [reflexivity|].
  pose proof (well_formed_cached cfg (bh_block_id hdr') hdr' body'
                (Z.of_nat (length data)) idx1 Hwf1 Hplaced) as Hwf2.
  destruct (_ <? _); [apply well_formed_FlushBlockCache|]; exact Hwf2.
Qed.

Lemma merge_blocks_returns cfg other lid bids lhdr self :
  well_formed cfg other → well_formed cfg self →
  ∃ self' lhdr', merge_blocks cfg other lid bids lhdr self = Ok (self', lhdr')
                 ∧ well_formed cfg self'.
Proof.
  intros Hother. revert lhdr self.
  induction bids as [|bid bids IH]; intros lhdr self Hself.
  - eexists _, _. split; [reflexivity|exact Hself].
  - simpl.
    destruct (well_formed_stored_block cfg lid bid other Hother)
      as [->|(h & body & -> & Hcap)]; simpl; [apply IH, Hself|].
    destruct (AppendChunk_returns cfg lid lhdr h body (Z.of_nat (length body)) false
                self Hself) as (self1 & lhdr1 & hdr1 & -> & Hwf1).
    { rewrite Nat2Z.id, firstn_all. exact Hcap. }
    simpl. apply IH, Hwf1.
Qed.

Lemma merge_list_returns cfg other lid self :
  well_formed cfg other → well_formed cfg self →
  ∃ self', merge_list cfg other lid self = Ok self' ∧ well_formed cfg self'.
Proof.
  intros Hother Hself. unfold merge_list.
  destruct (well_formed_GetPListHeader cfg lid self Hself) as [mine ->].
  destruct (well_formed_GetPListHeader cfg lid other Hother) as [theirs ->]. simpl.
  destruct (merge_blocks_returns cfg other lid (seqZ 0 (lh_block_count theirs))
              mine self Hother Hself) as (self1 & lhdr1 & -> & Hwf1).
  simpl. eexists. split; [reflexivity|].
  apply well_formed_FlushBlockCache, well_formed_UpdateListHeader, Hwf1.
Qed.

(** [Merge] returns on well-formed indexes. *)
Lemma Merge_returns cfg (delta main : TCIndex) :
  well_formed cfg delta → well_formed cfg main →
  ∃ main', Merge cfg delta main = Ok main' ∧ well_formed cfg main'.
Proof.
  intros Hdelta. unfold Merge. generalize (list_ids delta) as lids.
  intros lids. revert main. induction lids as [|lid lids IH]; intros main Hmain.
  - eexists. split; [reflexivity|exact Hmain].
  - simpl. destruct (merge_list_returns cfg delta lid main Hdelta Hmain)
      as (main1 & -> & Hwf1).
    simpl. apply IH, Hwf1.
Qed.

Lemma empty_index_well_formed cfg : well_formed cfg empty_index.
Proof.
  unfold well_formed, empty_index. simpl.
  repeat split; intros; rewrite lookup_empty in *; discriminate.
Qed.

(** ** The index at concrete inputs *)

(** A header of block 0 with three records and a body of three bytes. *)
Lemma decode_encode_round_trip_witness :
  let hdr := mkPListBlockHeader 0 3 3 true in
  let body := bytes_of [1; 2; 3] in
  bh_body_size hdr = Z.of_nat (length body)
  ∧ RawBlockToBlock (encode_block None hdr body)
                    (Z.of_nat (length (encode_block None hdr body))) false
    = Ok (mkPListBlock None (Some hdr) (Some body) 3).
Proof.
  intros hdr body.
  assert (Hvalid : bh_body_size hdr = Z.of_nat (length body)) by reflexivity.
  split; [exact Hvalid|].
  exact (proj1 (decode_encode_round_trip hdr body Hvalid)).
Defined.

(** The delta of the example merged into the main index: list 7 had
    ten records in main and three in delta, list 3 none in main and five
    in delta. *)
Lemma Merge_record_totals_witness :
  Merge small_blocks delta_example main_example = Ok merged_example
  ∧ (∃ lhdr', GetPListHeader 7 merged_example = Ok lhdr' ∧ lh_record_count lhdr' = 10 + 3)
  ∧ (∃ lhdr', GetPListHeader 3 merged_example = Ok lhdr' ∧ lh_record_count lhdr' = 0 + 5).
Proof.
  assert (Hm : Merge small_blocks delta_example main_example = Ok merged_example)
    by (vm_compute; reflexivity).
  split; [exact Hm|]. split.
  - apply (Merge_record_totals small_blocks delta_example main_example merged_example Hm
             7 (mkPListHeader 1 10) (mkPListHeader 1 3));
      vm_compute; reflexivity.
  - apply (Merge_record_totals small_blocks delta_example main_example merged_example Hm
             3 (mkPListHeader 0 0) (mkPListHeader 1 5));
      vm_compute; reflexivity.
Defined.

(** A chunk of five bytes for list 7 of the example, whose last block
    holds five bytes of the eight a block takes: the chunk is the body
    of the new block 1. *)
Lemma AppendChunk_chunk_in_one_block_witness :
  ∃ idx' lhdr' hdr',
    AppendChunk small_blocks 7 (mkPListHeader 1 10) (mkPListBlockHeader 0 0 4 false)
                (bytes_of [31; 32; 33; 34; 35]) 5 false main_example
    = Ok (idx', lhdr', hdr')
    ∧ bh_block_id hdr' = 1
    ∧ stored_block 7 1 idx' = Ok (Some (hdr', bytes_of [31; 32; 33; 34; 35])).
Proof.
  destruct (AppendChunk small_blocks 7 (mkPListHeader 1 10)
              (mkPListBlockHeader 0 0 4 false)
              (bytes_of [31; 32; 33; 34; 35]) 5 false main_example)
    as [[[idx' lhdr'] hdr']|e] eqn:Happ; [|vm_compute in Happ; discriminate Happ].
  exists idx', lhdr', hdr'. split; [reflexivity|].
  destruct (AppendChunk_chunk_in_one_block _ _ _ _ _ _ _ _ _ _ _ Happ)
    as (_ & _ & Hover).
  destruct (Hover (mkPListBlockHeader 0 5 10 true) (bytes_of [1; 2; 3; 4; 5]))
    as [Ht Hs].
  - vm_compute. reflexivity.
  - vm_compute. reflexivity.
  - simpl in Ht. rewrite Ht in Hs. split; assumption.
Defined.

(** List 9 has no header in the main index of the example. *)
Lemma GetPListHeader_absent_witness :
  m_DBHandle main_example !! HeaderKey 9 = None
  ∧ GetPListHeader 9 main_example = Ok zero_list_header.
Proof.
  assert (Habsent : m_DBHandle main_example !! HeaderKey 9 = None)
    by (vm_compute; reflexivity).
  split; [exact Habsent|].
  exact (proj1 (GetPListHeader_absent 9 main_example Habsent)).
Defined.

End TCDataStoreProofs.

(** * Further properties of AudioBlock.h *)

Module AudioBlockMore.
Import AudioBlock AudioBlockProofs.

Section Members.
Context {T : Type} `{Sample T}.
Variable bld : Build.

(** ** Construction *)

Lemma c_assert_passes (c : bool) :
  NDEBUG bld = true ∨ c = true → c_assert bld c = Ok tt.
Proof.
  unfold c_assert. intros [->| ->]; [reflexivity|].
  destruct (NDEBUG bld); reflexivity.
Qed.

Lemma c_assert_fails (c : bool) :
  NDEBUG bld = false → c = false → c_assert bld c = Err AssertionFailed.
Proof. unfold c_assert. intros -> ->. reflexivity. Qed.

Lemma ComputeNormalizationFactor_fields (b : AudioBlock T) :
  let b' := ComputeNormalizationFactor b in
  mCapacity b' = mCapacity b ∧ mSize b' = mSize b ∧ mData b' = mData b
  ∧ mChannels b' = mChannels b ∧ mSampleRate b' = mSampleRate b
  ∧ mID b' = mID b ∧ mDuration b' = mDuration b ∧ mTimestamp b' = mTimestamp b.
Proof.
  unfold ComputeNormalizationFactor. destruct is_Sfloat; simpl; repeat split.
Qed.

(** The capacity [Create] computes when the rounding does not wrap. *)
Lemma rounded_capacity nsamples nchans :
  0 ≤ nsamples → 0 < nchans → nsamples + nchans ≤ size_t_range bld →
  let cap := if negb (nsamples mod nchans =? 0)
             then size_t_wrap bld (size_t_wrap bld (nsamples - nsamples mod nchans) + nchans)
             else nsamples in
  cap mod nchans = 0 ∧ nsamples ≤ cap < nsamples + nchans.
Proof.
  intros Hn Hc Hfit cap. subst cap.
  pose proof (Z.mod_pos_bound nsamples nchans Hc) as Hmod.
  pose proof (Z.div_mod nsamples nchans ltac:(lia)) as Hdiv.
  pose proof (Z.mod_le nsamples nchans Hn Hc) as Hle.
  destruct (Z.eqb_spec (nsamples mod nchans) 0) as [Hz|Hnz]; simpl.
  - split; [exact Hz|lia].
  - rewrite (size_t_wrap_small bld (nsamples - nsamples mod nchans)) by lia.
    rewrite size_t_wrap_small by lia.
    split; [|lia].
    replace (nsamples - nsamples mod nchans + nchans)
      with ((nsamples / nchans + 1) * nchans) by lia.
    apply Z.mod_mul. lia.
Qed.

(** X1. The constructor rounds the capacity up to a whole number of
    frames. For a positive number of samples and of channels, a positive
    sample rate (or assertions off) and a rounding that stays within
    [size_t], [AudioBlock(nsamples, sampleRate, nchans, initSize)]
    returns a block whose capacity is the least multiple of the channel
    count that is at least [nsamples], whose samples are all zero, and
    whose size is the capacity for a negative [initSize] and
    [min(initSize, capacity)] otherwise. *)
Theorem AudioBlock_create_rounds_up nsamples sampleRate nchans initSize :
  0 < nsamples → 0 < nchans → nsamples + nchans ≤ size_t_range bld →
  initSize < size_t_range bld →
  NDEBUG bld = true ∨ SFltb fzero sampleRate = true →
  ∃ b, AudioBlock_create bld nsamples sampleRate nchans initSize = Ok b
       ∧ Capacity b mod nchans = 0
       ∧ nsamples ≤ Capacity b < nsamples + nchans
       ∧ Size b = (if initSize <? 0 then Capacity b else Z.min initSize (Capacity b))
       ∧ Data b = Some (replicate (Z.to_nat (Capacity b)) zero_sample)
       ∧ Channels b = nchans ∧ SampleRate b = sampleRate ∧ ID b = 0.
Proof.
  intros Hn Hc Hfit Hinit Hrate.
  unfold AudioBlock_create, Create.
  rewrite (c_assert_passes (0 <? nsamples)) by (right; apply Z.ltb_lt; lia).
  cbn [bind]. rewrite (c_assert_passes _ Hrate). cbn [bind].
  rewrite (c_assert_passes (0 <? nchans)) by (right; apply Z.ltb_lt; lia).
  cbn [bind]. rewrite (c_assert_passes (IsNull null_members)) by (right; reflexivity).
  cbn [bind]. change (negb (IsNull (T := T) null_members)) with false. cbv iota.
  destruct (Z.eqb_spec nchans 0); [lia|].
  destruct (rounded_capacity nsamples nchans ltac:(lia) Hc Hfit) as [Hmul Hbound].
  cbv zeta in Hmul, Hbound.
  set (cap := if negb (nsamples mod nchans =? 0) then _ else nsamples) in *.
  cbn [bind]. eexists. split; [reflexivity|].
  unfold Capacity, Size, Data, Channels, SampleRate, ID.
  destruct (ComputeNormalizationFactor_fields
              (mkAudioBlock cap
                 (fdiv (float_of_size
                          (if cap <? (if initSize <? 0 then cap
                                      else size_t_wrap bld initSize)
                           then cap
                           else if initSize <? 0 then cap
                                else size_t_wrap bld initSize))
                       (fmul (float_of_size nchans) sampleRate))
                 (if cap <? (if initSize <? 0 then cap else size_t_wrap bld initSize)
                  then cap
                  else if initSize <? 0 then cap else size_t_wrap bld initSize)
                 sampleRate nchans (Some (replicate (Z.to_nat cap) zero_sample))
                 (mID (null_members (T := T))) (mTimestamp (null_members (T := T)))
                 (mNormFactor (null_members (T := T)))))
    as (-> & -> & -> & -> & -> & -> & _).
  simpl. repeat split; try assumption; try lia.
  destruct (Z.ltb_spec initSize 0).
  - destruct (Z.ltb_spec cap cap); lia.
  - rewrite size_t_wrap_small by lia. destruct (Z.ltb_spec cap initSize); lia.
Qed.

(** The block the constructor returns, when it returns. *)
Lemma AudioBlock_create_Ok nsamples sampleRate nchans initSize (b : AudioBlock T) :
  AudioBlock_create bld nsamples sampleRate nchans initSize = Ok b →
  let cap := if negb (nsamples mod nchans =? 0)
             then size_t_wrap bld (size_t_wrap bld (nsamples - nsamples mod nchans) + nchans)
             else nsamples in
  let size0 := if initSize <? 0 then cap else size_t_wrap bld initSize in
  let size := if cap <? size0 then cap else size0 in
  nchans ≠ 0 ∧ mCapacity b = cap ∧ mSize b = size
  ∧ mData b = Some (replicate (Z.to_nat cap) zero_sample)
  ∧ mChannels b = nchans ∧ mSampleRate b = sampleRate
  ∧ mID b = 0 ∧ mTimestamp b = 0
  ∧ mDuration b = fdiv (float_of_size size) (fmul (float_of_size nchans) sampleRate).
Proof.
  unfold AudioBlock_create, Create.
  repeat (destruct (c_assert bld _); cbn [bind]; [|discriminate]).
  change (negb (IsNull (T := T) null_members)) with false. cbv iota.
  destruct (Z.eqb_spec nchans 0); [discriminate|]. cbn [bind].
  intros [= <-]. cbv zeta.
  match goal with
  | |- context [ComputeNormalizationFactor ?x] =>
      destruct (ComputeNormalizationFactor_fields x)
        as (-> & -> & -> & -> & -> & -> & -> & ->)
  end.
  simpl. repeat split; assumption.
Qed.

(** X2. What the constructor does with arguments it is not meant for.
    With assertions on, a number of samples or of channels that is not
    positive, or a sample rate that is not greater than zero, stops the
    constructor on an [assert]. With assertions off, zero channels is a
    division by zero ([nsamples % nchans]), and zero samples with a
    positive channel count gives a block that is not null and has
    capacity and size zero. *)
Theorem AudioBlock_create_degenerate nsamples sampleRate nchans initSize :
  (NDEBUG bld = false →
   nsamples ≤ 0 ∨ nchans ≤ 0 ∨ SFltb fzero sampleRate = false →
   AudioBlock_create (T := T) bld nsamples sampleRate nchans initSize
   = Err AssertionFailed)
  ∧ (NDEBUG bld = true → nchans = 0 →
     AudioBlock_create (T := T) bld nsamples sampleRate nchans initSize
     = Err UndefinedBehaviour)
  ∧ (NDEBUG bld = true → 0 < nchans → nsamples = 0 →
     ∃ b, AudioBlock_create (T := T) bld nsamples sampleRate nchans initSize = Ok b
          ∧ IsNull b = false ∧ Capacity b = 0 ∧ Size b = 0).
Proof.
  split; [|split].
  - unfold AudioBlock_create, Create, c_assert. intros -> Hbad.
    destruct (Z.ltb_spec 0 nsamples); simpl; [|reflexivity].
    destruct (SFltb fzero sampleRate); simpl; [|reflexivity].
    destruct (Z.ltb_spec 0 nchans); simpl; [|reflexivity].
    destruct Hbad as [?|[?|?]]; [lia|lia|discriminate].
  - unfold AudioBlock_create, Create, c_assert. intros -> ->. reflexivity.
  - intros Hrel Hc ->.
    destruct (AudioBlock_create (T := T) bld 0 sampleRate nchans initSize)
      as [b|e] eqn:Hcreate.
    + exists b. split; [reflexivity|].
      destruct (AudioBlock_create_Ok _ _ _ _ _ Hcreate)
        as (_ & Hcap & Hsize & Hdata & _).
      cbv zeta in Hcap, Hsize, Hdata.
      rewrite Z.mod_0_l in Hcap, Hsize, Hdata by lia. simpl in Hcap, Hsize, Hdata.
      unfold IsNull, Capacity, Size. rewrite Hdata, Hcap, Hsize.
      repeat split.
      pose proof (Z.mod_pos_bound initSize (size_t_range bld) (size_t_range_pos bld)).
      unfold size_t_wrap.
      destruct (initSize <? 0); [reflexivity|].
      destruct (Z.ltb_spec 0 (initSize mod size_t_range bld)); lia.
    + exfalso. revert Hcreate. unfold AudioBlock_create, Create, c_assert.
      rewrite Hrel. cbn [bind]. change (negb (IsNull (T := T) null_members)) with false.
      cbv iota. destruct (Z.eqb_spec nchans 0); [lia|]. discriminate.
Qed.

(** ** Resize *)

(** X3. A resize forgets the one before it: after [Resize(n)],
    [Resize(m)] gives the block that [Resize(m)] gives at once, samples,
    size and duration included. A block that was shrunk can be grown
    back up to its capacity without loss. *)
Theorem Resize_Resize n m (b b1 : AudioBlock T) :
  Resize bld n b = Ok b1 → Resize bld m b1 = Resize bld m b.
Proof.
  unfold Resize, c_assert, IsNull.
  destruct (NDEBUG bld); simpl.
  - intros [= <-]. simpl. reflexivity.
  - destruct (mData b) eqn:Hd; simpl; [|discriminate].
    destruct (0 <=? n); simpl; [|discriminate].
    intros [= <-]. simpl. rewrite Hd. reflexivity.
Qed.

(** ** Sample access *)

(** X4. The bounds of [operator[]]. An index below the size reads the
    sample stored there. An index at or past the size stops on the
    [assert] when assertions are on; with assertions off it reads the
    buffer up to the capacity, and is an access outside the buffer from
    the capacity on. *)
Theorem subscript_bounds i (b : AudioBlock T) :
  reachable bld b → 0 ≤ i →
  (i < Size b →
   ∃ x, samples b !! Z.to_nat i = Some x ∧ subscript bld i b = Ok x)
  ∧ (Size b ≤ i → NDEBUG bld = false → subscript bld i b = Err AssertionFailed)
  ∧ (Size b ≤ i < Capacity b → NDEBUG bld = true →
     ∃ x, samples b !! Z.to_nat i = Some x ∧ subscript bld i b = Ok x)
  ∧ (Capacity b ≤ i → NDEBUG bld = true → subscript bld i b = Err UndefinedBehaviour).
Proof.
  intros Hreach Hi. apply reachable_Invariant in Hreach as (Hsz & _ & Hd).
  unfold Size, Capacity, subscript, samples.
  assert (Hin : i < mCapacity b →
                ∃ x, default [] (mData b) !! Z.to_nat i = Some x
                     ∧ match mData b with
                       | Some d => match d !! Z.to_nat i with
                                   | Some x => Ok x
                                   | None => Err UndefinedBehaviour
                                   end
                       | None => Err UndefinedBehaviour
                       end = Ok x).
  { intros Hlt. destruct (mData b) as [d|]; [|lia]. simpl.
    destruct (lookup_lt_is_Some_2 d (Z.to_nat i) ltac:(lia)) as [x Hx].
    exists x. rewrite Hx. auto. }
  split; [|split; [|split]].
  - intros Hlt. rewrite c_assert_passes.
    + apply Hin. lia.
    + right. apply andb_true_iff. split; [apply Z.leb_le|apply Z.ltb_lt]; lia.
  - intros Hge Hdebug. rewrite c_assert_fails; [reflexivity|exact Hdebug|].
    apply andb_false_iff. right. apply Z.ltb_ge. lia.
  - intros Hbetween Hrel. rewrite c_assert_passes by (left; exact Hrel).
    apply Hin. lia.
  - intros Hge Hrel. rewrite c_assert_passes by (left; exact Hrel). simpl.
    destruct (mData b) as [d|]; [|reflexivity].
    rewrite lookup_ge_None_2 by lia. reflexivity.
Qed.

(** X5. A store through [operator[]] is read back by it, leaves every
    other sample as it reads, and changes neither size nor capacity. *)
Theorem subscript_store_then_read i x (b b' : AudioBlock T) :
  subscript_store bld i x b = Ok b' →
  subscript bld i b' = Ok x
  ∧ (∀ j, 0 ≤ j → j ≠ i → subscript bld j b' = subscript bld j b)
  ∧ Size b' = Size b ∧ Capacity b' = Capacity b.
Proof.
  unfold subscript_store, subscript.
  destruct (c_assert bld ((0 <=? i) && (i <? mSize b))) as [[]|] eqn:Hassert;
    simpl; [|discriminate].
  destruct (mData b) as [d|] eqn:Hd; [|discriminate].
  destruct ((0 <=? i) && (i <? Z.of_nat (length d))) eqn:Hin; [|discriminate].
  apply andb_true_iff in Hin as [Hi Hlen].
  apply Z.leb_le in Hi. apply Z.ltb_lt in Hlen.
  intros [= <-]. simpl. rewrite Hassert. simpl.
  split; [|split; [|split; reflexivity]].
  - rewrite list_lookup_insert_eq by lia. reflexivity.
  - intros j Hj Hne.
    rewrite list_lookup_insert_ne by lia. reflexivity.
Qed.

(** X6. What [SetData] wrote is what [operator[]] reads. Whenever
    [SetData(data, n)] returns, it returns [min(n, Capacity())], and
    every index below that number reads the sample of [data] at that
    index. *)
Theorem SetData_then_read (data : list T) n (b b' : AudioBlock T) w :
  reachable bld b → 0 ≤ n → SetData bld (Some data) n b = Ok (b', w) →
  w = Z.min n (Capacity b)
  ∧ ∀ i, 0 ≤ i < w →
      ∃ x, data !! Z.to_nat i = Some x ∧ subscript bld i b' = Ok x.
Proof.
  intros Hreach Hn Hset. pose proof (reachable_Invariant bld b Hreach) as Hinv.
  pose proof (SetData_Invariant bld _ _ _ _ _ Hinv Hn Hset) as (Hinv' & Hcap & Hw).
  unfold SetData in Hset.
  destruct (c_assert bld (negb (IsNull b))); simpl in Hset; [|discriminate].
  assert (Hstep : ∃ b1, (if negb (n =? mSize b) then Resize bld n b else Ok b) = Ok b1
                        ∧ mSize b1 = Z.min n (mCapacity b) ∧ mData b1 = mData b).
  { destruct (Z.eqb_spec n (mSize b)) as [->|Hne]; simpl in *.
    - exists b. destruct Hinv as (? & _). repeat split; lia.
    - destruct (Resize bld n b) as [b1|] eqn:Hr; [|discriminate].
      exists b1. pose proof (Resize_size bld _ _ _ Hr).
      pose proof (Resize_fields bld _ _ _ Hr) as (_ & _ & ? & _). auto. }
  destruct Hstep as (b1 & Hb1 & Hs1 & Hd1). rewrite Hb1 in Hset. simpl in Hset.
  rewrite Hs1, Hd1 in Hset. unfold Capacity.
  destruct (memcpy (mData b) 0 (Some data) 0 (Z.min n (mCapacity b))) as [d'|] eqn:Hcp;
    simpl in Hset; [|discriminate].
  injection Hset as <- <-. split; [reflexivity|].
  intros i Hi. unfold memcpy in Hcp.
  destruct (Z.eqb_spec (Z.min n (mCapacity b)) 0); [lia|].
  destruct (mData b) as [d|]; [|discriminate].
  destruct ((0 <=? 0) && (0 + Z.min n (mCapacity b) <=? Z.of_nat (length d))
            && (0 <=? 0) && (0 + Z.min n (mCapacity b) <=? Z.of_nat (length data)))
    eqn:Hin; [|discriminate].
  apply andb_true_iff in Hin as [_ Hlen].
  apply Z.leb_le in Hlen. injection Hcp as <-.
  assert (Hidx : (Z.to_nat i < length data)%nat) by lia.
  destruct (lookup_lt_is_Some_2 data (Z.to_nat i) Hidx) as [x Hx].
  exists x. split; [exact Hx|].
  unfold subscript, set_mData. cbn [mData mSize]. rewrite c_assert_passes.
  - cbn [bind]. change (Z.to_nat 0) with 0%nat. rewrite drop_0.
    rewrite lookup_app_l by (rewrite length_take; lia).
    rewrite lookup_take_lt by lia. rewrite Hx. reflexivity.
  - right. apply andb_true_iff. split; [apply Z.leb_le|apply Z.ltb_lt]; lia.
Qed.

(** ** Append *)

Lemma Resize_exact n (b : AudioBlock T) :
  0 ≤ n → NDEBUG bld = true ∨ IsNull b = false →
  Resize bld n b
  = Ok (mkAudioBlock (mCapacity b) (duration_of (Z.min n (mCapacity b)) b)
          (Z.min n (mCapacity b)) (mSampleRate b) (mChannels b) (mData b)
          (mID b) (mTimestamp b) (mNormFactor b)).
Proof.
  intros Hn Hok. unfold Resize.
  rewrite c_assert_passes
    by (destruct Hok as [?| ->]; [left; assumption|right; reflexivity]).
  cbn [bind]. rewrite c_assert_passes by (right; apply Z.leb_le; lia).
  cbn [bind]. unfold set_mDuration, set_mSize, duration_of. cbn.
  replace (if mCapacity b <? n then mCapacity b else n) with (Z.min n (mCapacity b))
    by (destruct (Z.ltb_spec (mCapacity b) n); lia).
  reflexivity.
Qed.

(** Whenever [Append] returns, the block is [appended], the data is
    there for the samples copied and the assertion on channels held. *)
Lemma Append_Ok data n (b b' : AudioBlock T) :
  Invariant bld b → 0 ≤ n → Append bld data n b = Ok b' →
  b' = appended data n b
  ∧ (n = 0 ∨ mCapacity b - mSize b = 0 ∨ data = None
     ∨ ∃ s, data = Some s
            ∧ Z.min n (mCapacity b - mSize b) ≤ Z.of_nat (length s)
            ∧ (NDEBUG bld = true
               ∨ (mChannels b ≠ 0
                  ∧ Z.min n (mCapacity b - mSize b) mod mChannels b = 0))).
Proof.
  intros (Hsz & Hcap & Hd) Hn. unfold Append, appended.
  destruct data as [s|]; [|intros [= <-]; auto].
  destruct (Z.eqb_spec n 0) as [->|Hn0]; [intros [= <-]; auto|].
  unfold DoAppend. rewrite size_t_wrap_small by lia.
  destruct (Z.ltb_spec 0 (mCapacity b - mSize b)) as [Hav|Hav].
  2: { intros [= <-]. destruct (Z.leb_spec (mCapacity b - mSize b) 0); [|lia].
       split; [reflexivity|]. right. left. lia. }
  destruct (Z.leb_spec (mCapacity b - mSize b) 0); [lia|]. cbn [orb].
  set (copyable := if n <=? mCapacity b - mSize b then n else mCapacity b - mSize b).
  assert (Hc : copyable = Z.min n (mCapacity b - mSize b)).
  { unfold copyable. destruct (Z.leb_spec n (mCapacity b - mSize b)); lia. }
  destruct (if NDEBUG bld then Ok tt
            else if mChannels b =? 0 then Err UndefinedBehaviour
            else c_assert bld (copyable mod mChannels b =? 0)) as [[]|] eqn:Hassert;
    cbn [bind]; [|discriminate].
  destruct (mData b) as [d|] eqn:Hmd; [|lia].
  unfold memcpy. destruct (Z.eqb_spec copyable 0); [lia|].
  destruct ((0 <=? mSize b) && (mSize b + copyable <=? Z.of_nat (length d))
            && (0 <=? 0) && (0 + copyable <=? Z.of_nat (length s))) eqn:Hin;
    cbn [bind]; [|discriminate].
  apply andb_true_iff in Hin as [_ Hlen]. apply Z.leb_le in Hlen.
  rewrite size_t_wrap_small by lia.
  rewrite Resize_exact by (try lia; right; reflexivity).
  intros [= <-]. split.
  - unfold set_mData, duration_of, samples. cbn. rewrite Hmd. cbn.
    replace (Z.min (mSize b + copyable) (mCapacity b))
      with (Z.min (mSize b + n) (mCapacity b)) by lia.
    replace (Z.min (mSize b + n) (mCapacity b) - mSize b) with copyable by lia.
    replace (mSize b + copyable) with (Z.min (mSize b + n) (mCapacity b)) by lia.
    reflexivity.
  - right. right. right. exists s. split; [reflexivity|]. split; [lia|].
    unfold c_assert in Hassert. destruct (NDEBUG bld); [left; reflexivity|].
    right. destruct (Z.eqb_spec (mChannels b) 0); [discriminate|].
    split; [assumption|].
    destruct (Z.eqb_spec (copyable mod mChannels b) 0); [|discriminate].
    rewrite <- Hc. assumption.
Qed.

(** [Append] returns when the data is there and the assertion holds. *)
Lemma Append_returns (s : list T) n (b : AudioBlock T) :
  Invariant bld b → 0 ≤ n →
  Z.min n (mCapacity b - mSize b) ≤ Z.of_nat (length s) →
  n = 0 ∨ channels_divide bld n b →
  Append bld (Some s) n b = Ok (appended (Some s) n b).
Proof.
  intros Hinv Hn Hlen Hch.
  assert (Hret : ∃ b', Append bld (Some s) n b = Ok b').
  { pose proof Hinv as (Hsz & Hcap & Hd). unfold Append.
    destruct (Z.eqb_spec n 0); [eauto|]. destruct Hch as [?|Hch]; [lia|].
    unfold DoAppend. rewrite size_t_wrap_small by lia.
    destruct (Z.ltb_spec 0 (mCapacity b - mSize b)) as [Hav|Hav]; [|eauto].
    set (copyable := if n <=? mCapacity b - mSize b then n else mCapacity b - mSize b).
    assert (Hc : copyable = Z.min n (mCapacity b - mSize b)).
    { unfold copyable. destruct (Z.leb_spec n (mCapacity b - mSize b)); lia. }
    assert (Hassert : (if NDEBUG bld then Ok tt
                       else if mChannels b =? 0 then Err UndefinedBehaviour
                       else c_assert bld (copyable mod mChannels b =? 0)) = Ok tt).
    { unfold c_assert. destruct (NDEBUG bld) eqn:Hnd; [reflexivity|].
      destruct Hch as [Hch|[Hch|[Hch1 Hch2]]]; [congruence|lia|].
      destruct (Z.eqb_spec (mChannels b) 0); [contradiction|].
      rewrite Hc, Hch2. reflexivity. }
    rewrite Hassert. cbn [bind].
    destruct (mData b) as [d|] eqn:Hmd; [|lia].
    rewrite memcpy_within by lia. cbn [bind].
    rewrite size_t_wrap_small by lia.
    apply Resize_returns; [lia|right; reflexivity]. }
  destruct Hret as [b' Hb']. rewrite Hb'. f_equal.
  apply (Append_Ok _ _ _ _ Hinv Hn Hb').
Qed.

Lemma appended_fields data n (b : AudioBlock T) :
  Invariant bld b → 0 ≤ n →
  let b' := appended data n b in
  mCapacity b' = mCapacity b
  ∧ mSize b ≤ mSize b' ≤ mCapacity b
  ∧ mChannels b' = mChannels b ∧ mSampleRate b' = mSampleRate b
  ∧ mID b' = mID b ∧ mTimestamp b' = mTimestamp b ∧ mNormFactor b' = mNormFactor b
  ∧ take (Z.to_nat (mSize b)) (samples b') = take (Z.to_nat (mSize b)) (samples b)
  ∧ (mSize b = mCapacity b → b' = b).
Proof.
  intros (Hsz & Hcap & Hd) Hn b'. subst b'. unfold appended.
  destruct data as [s|]; [|repeat split; intros; try reflexivity; lia].
  destruct (Z.eqb_spec n 0); cbn [orb];
    [repeat split; intros; try reflexivity; lia|].
  destruct (Z.leb_spec (mCapacity b - mSize b) 0);
    [repeat split; intros; try reflexivity; lia|].
  assert (Hlen : Z.of_nat (length (samples b)) = mCapacity b).
  { unfold samples. destruct (mData b); simpl; lia. }
  cbn [mCapacity mSize mChannels mSampleRate mID mTimestamp mNormFactor].
  repeat split; try lia.
  unfold samples at 1. cbn [mData default from_option id].
  rewrite take_app_le by (rewrite length_take; lia).
  rewrite take_take. f_equal. lia.
Qed.

(** X7. What [Append] never does. Whenever [Append(data, n)] returns,
    whatever the data pointer, the count and the build, the capacity is
    unchanged, the size has not decreased and is within the capacity, the
    samples that were available are as they were, and so are the ID, the
    timestamp, the channels and the sample rate; a full block is left
    exactly as it was. *)
Theorem Append_keeps_available data n (b b' : AudioBlock T) :
  reachable bld b → 0 ≤ n → Append bld data n b = Ok b' →
  Capacity b' = Capacity b
  ∧ Size b ≤ Size b' ≤ Capacity b
  ∧ take (Z.to_nat (Size b)) (samples b') = take (Z.to_nat (Size b)) (samples b)
  ∧ ID b' = ID b ∧ Timestamp b' = Timestamp b
  ∧ Channels b' = Channels b ∧ SampleRate b' = SampleRate b
  ∧ (Size b = Capacity b → b' = b).
Proof.
  intros Hreach Hn Happ. pose proof (reachable_Invariant bld b Hreach) as Hinv.
  destruct (Append_Ok _ _ _ _ Hinv Hn Happ) as [-> _].
  destruct (appended_fields data n b Hinv Hn)
    as (Hc & Hs & Hch & Hr & Hid & Hts & _ & Hpre & Hfull).
  unfold Capacity, Size, ID, Timestamp, Channels, SampleRate.
  repeat split; try assumption; lia.
Qed.

Lemma samples_extent (b : AudioBlock T) :
  Invariant bld b → Z.of_nat (length (samples b)) = mCapacity b.
Proof.
  intros (_ & _ & Hd). unfold samples. destruct (mData b); simpl; lia.
Qed.

(** Appending twice is appending the concatenation. *)
Lemma appended_appended (data1 data2 : list T) n1 n2 (b : AudioBlock T) :
  Invariant bld b → n1 = Z.of_nat (length data1) → 0 ≤ n2 →
  appended (Some data2) n2 (appended (Some data1) n1 b)
  = appended (Some (data1 ++ data2)) (n1 + n2) b.
Proof.
  intros Hinv Hn1 Hn2. pose proof (samples_extent b Hinv) as Hlen.
  destruct Hinv as (Hsz & _ & _).
  destruct (Z.eq_dec n1 0) as [Hz|Hnz].
  { assert (data1 = []) as -> by (apply length_zero_iff_nil; lia).
    subst n1. simpl length. change (Z.of_nat 0) with 0.
    unfold appended at 2. cbn [Z.eqb orb]. reflexivity. }
  unfold appended at 2 3.
  destruct (Z.eqb_spec n1 0); [contradiction|].
  destruct (Z.eqb_spec (n1 + n2) 0); [lia|]. cbn [orb].
  destruct (Z.leb_spec (mCapacity b - mSize b) 0) as [Hfull|Hroom].
  { unfold appended. destruct (Z.leb_spec (mCapacity b - mSize b) 0); [|lia].
    rewrite orb_true_r. reflexivity. }
  cbv zeta. unfold appended.
  cbn [mCapacity mSize mChannels mSampleRate mID mTimestamp mNormFactor].
  set (s := mSize b) in *. set (c := mCapacity b) in *.
  destruct (Z.eqb_spec n2 0) as [->|Hn2z]; cbn [orb].
  { rewrite Z.add_0_r. rewrite (take_app_le data1 data2) by lia. reflexivity. }
  destruct (Z.leb_spec (c - Z.min (s + n1) c) 0) as [Hfull1|Hroom1].
  { replace (Z.min (s + (n1 + n2)) c) with (Z.min (s + n1) c) by lia.
    rewrite (take_app_le data1 data2) by lia. reflexivity. }
  replace (Z.min (s + n1) c) with (s + n1) by lia.
  replace (Z.min (s + n1 + n2) c) with (Z.min (s + (n1 + n2)) c) by lia.
  set (s2 := Z.min (s + (n1 + n2)) c).
  unfold duration_of. cbn [mChannels mSampleRate].
  repeat match goal with
  | |- context [samples (mkAudioBlock ?a ?b0 ?c0 ?d ?e (Some ?l) ?f ?g ?h)] =>
      change (samples (mkAudioBlock a b0 c0 d e (Some l) f g h)) with l
  end.
  f_equal. f_equal.
  replace (s + n1 - s) with n1 by lia.
  rewrite (take_ge data1) by lia.
  assert (Hpre : length (take (Z.to_nat s) (samples b) ++ data1) = Z.to_nat (s + n1)).
  { rewrite length_app, length_take. lia. }
  assert (Hs2 : s + n1 ≤ s2 ≤ c) by (unfold s2; lia).
  rewrite (app_assoc _ data1).
  rewrite (take_app_le (take (Z.to_nat s) (samples b) ++ data1)) by lia.
  rewrite (take_ge (take (Z.to_nat s) (samples b) ++ data1)) by lia.
  rewrite drop_app_ge by lia. rewrite Hpre, drop_drop.
  rewrite (take_app_ge data1 data2) by lia.
  rewrite <- !app_assoc. f_equal. f_equal. f_equal; f_equal; lia.
Qed.

(** X8. Appending in two steps is appending at once. If [Append] of a
    buffer [data1] of [n1] samples returns and [Append] of [n2] samples
    of [data2] returns after it, then [Append] of the [n1 + n2] samples of
    the two buffers laid end to end returns the same block, samples, size
    and duration included. *)
Theorem Append_Append (data1 data2 : list T) n1 n2 (b b1 b2 : AudioBlock T) :
  reachable bld b →
  n1 = Z.of_nat (length data1) → 0 ≤ n2 ≤ Z.of_nat (length data2) →
  Append bld (Some data1) n1 b = Ok b1 →
  Append bld (Some data2) n2 b1 = Ok b2 →
  Append bld (Some (data1 ++ data2)) (n1 + n2) b = Ok b2.
Proof.
  intros Hreach Hn1 Hn2 Hfirst Hsecond.
  pose proof (reachable_Invariant bld b Hreach) as Hinv.
  assert (Hn1' : 0 ≤ n1) by lia.
  destruct (Append_Invariant bld _ _ _ _ Hinv Hn1' Hfirst) as [Hinv1 Hcap1].
  destruct (Append_Ok _ _ _ _ Hinv Hn1' Hfirst) as [Hb1 Hwhy1].
  destruct (Append_Ok _ _ _ _ Hinv1 (proj1 Hn2) Hsecond) as [Hb2 Hwhy2].
  rewrite Hb2, Hb1, (appended_appended data1 data2 n1 n2 b Hinv Hn1 (proj1 Hn2)).
  apply Append_returns; [exact Hinv|lia|rewrite length_app; lia|].
  destruct (Z.eq_dec (n1 + n2) 0) as [?|Hnz]; [left; assumption|right].
  pose proof (appended_fields (Some data1) n1 b Hinv Hn1')
    as (_ & Hs1 & Hch1 & _).
  rewrite <- Hb1 in Hs1, Hch1. pose proof Hinv as (Hsz & _ & _).
  unfold channels_divide.
  destruct (NDEBUG bld) eqn:Hnd; [left; reflexivity|right].
  destruct (Z.eq_dec (mCapacity b - mSize b) 0) as [?|Hroom]; [left; assumption|right].
  assert (Hsize1 : mSize b1 = Z.min (mSize b + n1) (mCapacity b)).
  { rewrite Hb1. unfold appended.
    destruct (Z.eqb_spec n1 0); cbn [orb]; [lia|].
    destruct (Z.leb_spec (mCapacity b - mSize b) 0); [lia|]. reflexivity. }
  destruct Hwhy1 as [Hz1|[?|[?|(s1 & _ & _ & Hdiv1)]]]; [|lia|discriminate|].
  - (* nothing appended first: the second append is the whole *)
    assert (mSize b1 = mSize b) as Hsame by lia.
    destruct Hwhy2 as [?|[?|[?|(s2 & _ & _ & Hdiv2)]]]; [lia|lia|discriminate|].
    destruct Hdiv2 as [?|[Hc2 Hm2]]; [congruence|].
    rewrite Hch1 in Hc2, Hm2. rewrite Hcap1, Hsame in Hm2.
    split; [exact Hc2|]. rewrite Hz1. exact Hm2.
  - destruct Hdiv1 as [?|[Hc1 Hm1]]; [congruence|].
    split; [exact Hc1|].
    destruct (Z.le_gt_cases (mCapacity b - mSize b) n1) as [Hfill|Hpart].
    + replace (Z.min (n1 + n2) (mCapacity b - mSize b))
        with (Z.min n1 (mCapacity b - mSize b)) by lia.
      exact Hm1.
    + replace (Z.min n1 (mCapacity b - mSize b)) with n1 in Hm1 by lia.
      destruct Hwhy2 as [Hz2|[?|[?|(s2 & _ & _ & Hdiv2)]]]; [|lia|discriminate|].
      * replace (Z.min (n1 + n2) (mCapacity b - mSize b)) with n1 by lia.
        exact Hm1.
      * destruct Hdiv2 as [?|[_ Hm2]]; [congruence|].
        rewrite Hch1, Hcap1, Hsize1 in Hm2.
        replace (Z.min (n1 + n2) (mCapacity b - mSize b))
          with (n1 + Z.min n2 (mCapacity b - Z.min (mSize b + n1) (mCapacity b)))
          by lia.
        rewrite Z.add_mod, Hm1, Hm2 by exact Hc1.
        rewrite Z.add_0_l. apply Z.mod_0_l. exact Hc1.
Qed.

Lemma appended_size_samples (s : list T) n (b : AudioBlock T) :
  Invariant bld b → 0 ≤ n →
  let b' := appended (Some s) n b in
  mSize b' = Z.min (mSize b + n) (mCapacity b)
  ∧ samples b' = take (Z.to_nat (mSize b)) (samples b)
                 ++ take (Z.to_nat (mSize b' - mSize b)) s
                 ++ drop (Z.to_nat (mSize b')) (samples b).
Proof.
  intros Hinv Hn b'. subst b'. pose proof (samples_extent b Hinv) as Hlen.
  destruct Hinv as (Hsz & _ & _). unfold appended.
  destruct (Z.eqb_spec n 0) as [->|Hnz]; cbn [orb].
  - split; [lia|]. rewrite Z.sub_diag. simpl take at 2.
    rewrite app_nil_l, take_drop. reflexivity.
  - destruct (Z.leb_spec (mCapacity b - mSize b) 0).
    + split; [lia|]. rewrite Z.sub_diag. simpl take at 2.
      rewrite app_nil_l, take_drop. reflexivity.
    + cbn [mSize]. split; reflexivity.
Qed.

Lemma Append_block_returns (a b : AudioBlock T) :
  Invariant bld a → Invariant bld b →
  NDEBUG bld = true
  ∨ (IsNull a = false ∧ IsNull b = false ∧ Channels a = Channels b
     ∧ SFeqb (SampleRate a) (SampleRate b) = true) →
  Size a = 0 ∨ channels_divide bld (Size a) b →
  ∃ b', Append_block bld a b = Ok b'
        ∧ Size b' = Z.min (Size b + Size a) (Capacity b)
        ∧ Capacity b' = Capacity b
        ∧ samples b' = take (Z.to_nat (Size b)) (samples b)
                       ++ take (Z.to_nat (Size b' - Size b)) (samples a)
                       ++ drop (Z.to_nat (Size b')) (samples b).
Proof.
  intros Ha Hb Hasserts Hch.
  pose proof (samples_extent a Ha) as Hlena.
  pose proof Ha as (Hsza & _ & Hda).
  unfold Size, Capacity, Channels, SampleRate in *.
  exists (appended (Some (samples a)) (mSize a) b).
  destruct (appended_size_samples (samples a) (mSize a) b Hb ltac:(lia)) as [Hs Hd].
  destruct (appended_fields (Some (samples a)) (mSize a) b Hb ltac:(lia)) as (Hc & _).
  cbv zeta in Hs, Hd, Hc.
  split; [|split; [exact Hs|split; [exact Hc|exact Hd]]].
  unfold Append_block, Channels, SampleRate.
  rewrite c_assert_passes
    by (destruct Hasserts as [?|(-> & -> & _)]; [left; assumption|right; reflexivity]).
  cbn [bind]. rewrite c_assert_passes
    by (destruct Hasserts as [?|(_ & _ & -> & _)];
        [left; assumption|right; apply Z.eqb_refl]).
  cbn [bind]. rewrite c_assert_passes
    by (destruct Hasserts as [?|(_ & _ & _ & ->)]; [left; assumption|right; reflexivity]).
  cbn [bind]. unfold Size, Data, IsNull.
  destruct (mData a) as [da|] eqn:Hmda.
  - cbn [orb]. destruct (Z.eqb_spec (mSize a) 0) as [Hz|Hnz].
    + unfold appended. rewrite Hz. reflexivity.
    + assert (Hsame : DoAppend bld (Some da) (mSize a) b
                      = Append bld (Some da) (mSize a) b).
      { unfold Append. destruct (Z.eqb_spec (mSize a) 0); [contradiction|reflexivity]. }
      rewrite Hsame. unfold samples. rewrite Hmda. cbn [default from_option id].
      apply Append_returns; [exact Hb|lia|lia|].
      destruct Hch as [?|?]; [lia|right; assumption].
  - cbn [orb]. unfold appended.
    replace (mSize a) with 0 by lia. reflexivity.
Qed.

(** X9. [Append(AudioBlock&)] appends the available samples of the
    other block, not its whole buffer. Where its assertions hold (or
    are compiled out), it returns a block of the same capacity whose size
    is [min(Size() + block.Size(), Capacity())] and whose samples are the
    available ones, then the first samples of the other block that fit,
    then what the buffer held beyond. *)
Theorem Append_block_appends (a b : AudioBlock T) :
  reachable bld a → reachable bld b →
  NDEBUG bld = true
  ∨ (IsNull a = false ∧ IsNull b = false ∧ Channels a = Channels b
     ∧ SFeqb (SampleRate a) (SampleRate b) = true) →
  Size a = 0 ∨ channels_divide bld (Size a) b →
  ∃ b', Append_block bld a b = Ok b'
        ∧ Size b' = Z.min (Size b + Size a) (Capacity b)
        ∧ Capacity b' = Capacity b
        ∧ samples b' = take (Z.to_nat (Size b)) (samples b)
                       ++ take (Z.to_nat (Size b' - Size b)) (samples a)
                       ++ drop (Z.to_nat (Size b')) (samples b).
Proof.
  intros Ha Hb. apply Append_block_returns; apply reachable_Invariant; assumption.
Qed.

(** ** A range of one block appended to another *)

Lemma GetSubBlock_fields start size (src dst dst' : AudioBlock T) :
  GetSubBlock bld start size dst src = Ok dst' →
  mChannels dst' = mChannels dst ∧ mSampleRate dst' = mSampleRate dst
  ∧ (IsNull dst = false → IsNull dst' = false).
Proof.
  unfold GetSubBlock, IsNull, Data. destruct (_ || _ || _).
  - intros Hr. apply Resize_fields in Hr.
    destruct Hr as (_ & _ & -> & _ & -> & -> & _). auto.
  - destruct (memcpy _ _ _ _ _) as [d|] eqn:Hcp; cbn [bind]; [|discriminate].
    intros Hr. apply Resize_fields in Hr.
    destruct Hr as (_ & _ & -> & _ & -> & -> & _). cbn.
    split; [reflexivity|]. split; [reflexivity|].
    apply memcpy_null in Hcp. destruct d; [reflexivity|].
    destruct Hcp as [_ Hcp]. rewrite (Hcp eq_refl). discriminate.
Qed.

(** X10. [GetSubBlock] followed by [Append(AudioBlock&)] moves a range
    of samples from one block behind the available samples of another.
    For three reachable blocks that are not null, a start within the
    source, a range of [n = min(size, Size() - start)] samples that fits
    the intermediate block and the room left in the target, and the
    assertions of the append satisfied (or compiled out), both calls
    return, the target grows by [n] samples, and its available samples are
    those it had followed by the [n] samples of the source from
    [start]. *)
Theorem GetSubBlock_then_Append (src dst out : AudioBlock T) start size :
  reachable bld src → reachable bld dst → reachable bld out →
  IsNull src = false → IsNull dst = false → IsNull out = false →
  0 ≤ start < Size src → 0 ≤ size →
  Z.min size (Size src - start) ≤ Capacity dst →
  Size out + Z.min size (Size src - start) ≤ Capacity out →
  NDEBUG bld = true
  ∨ (Channels dst = Channels out
     ∧ SFeqb (SampleRate dst) (SampleRate out) = true
     ∧ Channels out ≠ 0
     ∧ Z.min size (Size src - start) mod Channels out = 0) →
  ∃ dst' out',
    GetSubBlock bld start size dst src = Ok dst'
    ∧ Append_block bld dst' out = Ok out'
    ∧ Size out' = Size out + Z.min size (Size src - start)
    ∧ take (Z.to_nat (Size out')) (samples out')
      = take (Z.to_nat (Size out)) (samples out)
        ++ take (Z.to_nat (Z.min size (Size src - start)))
             (drop (Z.to_nat start) (samples src)).
Proof.
  intros Hsrc Hdst Hout Hns Hnd Hno Hstart Hsize Hfit Hroom Hasserts.
  apply reachable_Invariant in Hsrc, Hdst, Hout.
  unfold Size, Capacity, Channels, SampleRate in *.
  set (n := Z.min size (mSize src - start)) in *.
  destruct (GetSubBlock_copied bld start size src dst Hsrc Hdst Hns Hnd Hstart Hsize Hfit)
    as (dst' & Hget & Hsz' & Hin & Hd').
  fold n in Hsz', Hin, Hd'.
  destruct (GetSubBlock_Invariant bld start size src dst dst' Hdst Hsrc
              ltac:(lia) Hsize Hget) as [Hinv' Hcap'].
  destruct (GetSubBlock_fields start size src dst dst' Hget) as (Hch' & Hsr' & Hnn').
  specialize (Hnn' Hnd).
  destruct (Append_block_returns dst' out Hinv' Hout) as (out' & Happ & Hs & _ & Hd).
  - destruct Hasserts as [?|(Hc & Hr & _)]; [left; assumption|right].
    unfold Channels, SampleRate. rewrite Hch', Hsr'. auto.
  - right. unfold channels_divide.
    destruct Hasserts as [?|(_ & _ & Hc0 & Hmod)]; [left; assumption|].
    right. right. unfold Size. rewrite Hsz'.
    split; [exact Hc0|]. rewrite Z.min_l by lia. exact Hmod.
  - exists dst', out'. unfold Size, Capacity in *.
    split; [exact Hget|]. split; [exact Happ|].
    rewrite Hsz' in Hs. rewrite Z.min_l in Hs by lia.
    split; [exact Hs|].
    pose proof (samples_extent src Hsrc) as Hlsrc.
    pose proof (samples_extent out Hout) as Hlout.
    pose proof (samples_extent dst Hdst) as Hldst.
    destruct Hout as (Hso & _). destruct Hsrc as (Hss & _).
    assert (Hn0 : 0 ≤ n) by (unfold n; lia).
    rewrite Hd, Hs.
    replace (mSize out + n - mSize out) with n by lia.
    rewrite Hd'.
    rewrite (take_app_le (take (Z.to_nat n) (drop (Z.to_nat start) (samples src))))
      by (rewrite length_take, length_drop; lia).
    rewrite take_take, Nat.min_id.
    rewrite take_app_ge by (rewrite length_take; lia).
    rewrite length_take. f_equal.
    rewrite take_app_le by (rewrite !length_take, length_drop; lia).
    rewrite take_ge; [reflexivity|].
    rewrite !length_take, length_drop. lia.
Qed.

Lemma reachable_keeping_channels_reachable (b : AudioBlock T) :
  reachable_keeping_channels bld b → reachable bld b.
Proof.
  induction 1.
  - apply reach_default.
  - eapply reach_create; [| | |eassumption]; assumption.
  - eapply reach_copy; eassumption.
  - eapply reach_assign; [| |eassumption]; assumption.
  - apply reach_SetID; assumption.
  - apply reach_SetTimestamp; assumption.
  - eapply reach_subscript_store; eassumption.
  - eapply reach_Data_store; eassumption.
  - eapply reach_Resize; eassumption.
  - eapply reach_SetData; eassumption.
  - eapply reach_Append; eassumption.
  - eapply reach_Append_block; [| |eassumption]; assumption.
  - eapply reach_GetSubBlock; [| | | |eassumption]; assumption.
Qed.

Lemma AudioBlock_create_returns nsamples sampleRate nchans initSize :
  0 < nsamples → 0 < nchans →
  NDEBUG bld = true ∨ SFltb fzero sampleRate = true →
  ∃ b : AudioBlock T, AudioBlock_create bld nsamples sampleRate nchans initSize = Ok b.
Proof.
  intros Hn Hc Hrate.
  unfold AudioBlock_create, Create.
  rewrite (c_assert_passes (0 <? nsamples)) by (right; apply Z.ltb_lt; lia).
  cbn [bind]. rewrite (c_assert_passes _ Hrate). cbn [bind].
  rewrite (c_assert_passes (0 <? nchans)) by (right; apply Z.ltb_lt; lia).
  cbn [bind]. rewrite (c_assert_passes (IsNull null_members)) by (right; reflexivity).
  cbn [bind]. change (negb (IsNull (T := T) null_members)) with false. cbv iota.
  destruct (Z.eqb_spec nchans 0); [lia|].
  cbn [bind]. eexists. reflexivity.
Qed.

Lemma Invariant_not_null (b : AudioBlock T) :
  Invariant bld b → 0 < mSize b → IsNull b = false.
Proof.
  intros (Hsz & _ & Hd) Hpos. unfold IsNull.
  destruct (mData b); [reflexivity|lia].
Qed.

Lemma not_null_samples (b : AudioBlock T) :
  IsNull b = false → mData b = Some (samples b).
Proof.
  unfold IsNull, samples. destruct (mData b); [reflexivity|discriminate].
Qed.

(** ** Duration *)

Lemma Resize_in_step n (b b' : AudioBlock T) :
  Resize bld n b = Ok b' → mDuration b' = duration_of (mSize b') b'.
Proof.
  unfold Resize.
  destruct (c_assert bld (negb (IsNull b))); cbn [bind]; [|discriminate].
  destruct (c_assert bld (0 <=? n)); cbn [bind]; [|discriminate].
  intros [= <-]. reflexivity.
Qed.

Lemma reachable_keeping_channels_in_step (b : AudioBlock T) :
  reachable_keeping_channels bld b →
  IsNull b = false → mDuration b = duration_of (mSize b) b.
Proof.
  induction 1 as
    [ | ? ? ? ? ? _ _ _ Hc
      | b c _ IH Hc
      | b a b' _ _ _ IHa Hc
      | id b _ IH
      | t b _ IH
      | i x b b' _ IH _ Hr
      | i x b b' _ IH Hr
      | n b b' _ IH _ Hr
      | data n b b' w _ IH _ Hr
      | data n b b' Hb IH Hn Hr
      | a b b' Hb IHb Ha IHa Hr
      | start size src dst dst' _ IHs _ IHd _ _ Hr ].
  - unfold AudioBlock_default, IsNull.
    destruct (ComputeNormalizationFactor_fields (null_members (T := T)))
      as (_ & _ & -> & _).
    discriminate.
  - intros _. destruct (AudioBlock_create_Ok _ _ _ _ _ Hc)
      as (_ & _ & Hs & _ & Hch & Hr & _ & _ & Hd).
    cbv zeta in Hs, Hd. unfold duration_of. rewrite Hd, Hs, Hch, Hr. reflexivity.
  - revert Hc. unfold AudioBlock_copy, IsNull.
    destruct (Z.eqb_spec (mCapacity b) 0); cbn [bind].
    + intros [= <-]. discriminate.
    + destruct (mData b) as [s|] eqn:Hs; [|discriminate].
      destruct (_ <=? _); cbn [bind]; [|discriminate].
      intros [= <-] _. unfold duration_of. cbn.
      apply IH. unfold IsNull. rewrite Hs. reflexivity.
  - revert Hc. unfold assign, AudioBlock_copy, IsNull.
    destruct (Z.eqb_spec (mCapacity a) 0); cbn [bind].
    + intros [= <-]. discriminate.
    + destruct (mData a) as [s|] eqn:Hs; [|discriminate].
      destruct (_ <=? _); cbn [bind]; [|discriminate].
      intros [= <-] _. unfold duration_of. cbn.
      apply IHa. unfold IsNull. rewrite Hs. reflexivity.
  - exact IH.
  - exact IH.
  - revert Hr. unfold subscript_store.
    destruct (c_assert bld _); cbn [bind]; [|discriminate].
    destruct (mData b) as [d|] eqn:Hd; [|discriminate].
    destruct (_ && _); [|discriminate]. intros [= <-] _.
    apply IH. unfold IsNull. rewrite Hd. reflexivity.
  - revert Hr. unfold Data_store.
    destruct (mData b) as [d|] eqn:Hd; [|discriminate].
    destruct (_ && _); [|discriminate]. intros [= <-] _.
    apply IH. unfold IsNull. rewrite Hd. reflexivity.
  - intros _. eapply Resize_in_step, Hr.
  - revert Hr. unfold SetData.
    destruct (c_assert bld _); cbn [bind]; [|discriminate].
    destruct (negb (n =? mSize b)).
    + destruct (Resize bld n b) as [b1|] eqn:Hres; cbn [bind]; [|discriminate].
      destruct (memcpy _ _ _ _ _); cbn [bind]; [|discriminate].
      intros [= <- _] _. apply (Resize_in_step _ _ _ Hres).
    + cbn [bind]. destruct (memcpy (mData b) 0 data 0 (mSize b)) as [d|] eqn:Hcp;
        cbn [bind]; [|discriminate].
      intros [= <- _] Hnn. apply IH. unfold IsNull in *. cbn in Hnn.
      destruct (mData b); [reflexivity|].
      apply memcpy_null in Hcp. destruct Hcp as [Hcp _].
      rewrite (Hcp eq_refl) in Hnn. discriminate.
  - apply reachable_keeping_channels_reachable in Hb.
    apply reachable_Invariant in Hb.
    destruct (Append_Ok _ _ _ _ Hb (proj1 Hn) Hr) as [-> _].
    unfold appended. destruct data as [s|]; [|exact IH].
    destruct (_ || _); [exact IH|]. intros _. reflexivity.
  - apply reachable_keeping_channels_reachable in Hb.
    apply reachable_Invariant in Hb.
    apply reachable_keeping_channels_reachable in Ha.
    apply reachable_Invariant in Ha.
    revert Hr. unfold Append_block.
    repeat (destruct (c_assert bld _); cbn [bind]; [|discriminate]).
    destruct (IsNull a || (Size a =? 0)) eqn:Hskip; [intros [= <-]; exact IHb|].
    apply orb_false_elim in Hskip as [Hna Hsz]. apply Z.eqb_neq in Hsz.
    unfold Data, Size, IsNull in *. destruct (mData a) as [da|]; [|discriminate].
    intros Hr.
    assert (Happ : Append bld (Some da) (mSize a) b = Ok b').
    { unfold Append. destruct (Z.eqb_spec (mSize a) 0); [contradiction|exact Hr]. }
    destruct Ha as (? & _).
    destruct (Append_Ok (Some da) (mSize a) b b' Hb ltac:(lia) Happ) as [-> _].
    unfold appended. destruct (_ || _); [exact IHb|]. intros _. reflexivity.
  - intros _. revert Hr. unfold GetSubBlock.
    destruct (_ || _ || _); [apply Resize_in_step|].
    destruct (memcpy _ _ _ _ _); cbn [bind]; [|discriminate].
    apply Resize_in_step.
Qed.

(** X11. The duration follows the size. For every block that is not
    null and that a client reaches without [SetChannels], [Duration()] is
    [Size() / (Channels() * SampleRate())] as [Resize] computes it, and
    for a full block it is [MaxDuration()]. *)
Theorem Duration_follows_Size (b : AudioBlock T) :
  reachable_keeping_channels bld b → IsNull b = false →
  Duration b = duration_of (Size b) b
  ∧ (Size b = Capacity b → Duration b = MaxDuration b).
Proof.
  intros Hreach Hnn.
  pose proof (reachable_keeping_channels_in_step b Hreach Hnn) as Hstep.
  unfold Duration, Size, Capacity, MaxDuration. rewrite Hnn.
  split; [exact Hstep|]. intros <-. exact Hstep.
Qed.

(** ** The normalisation factor *)

Lemma DoAppend_NormFactor data n (b b' : AudioBlock T) :
  DoAppend bld data n b = Ok b' → mNormFactor b' = mNormFactor b.
Proof.
  unfold DoAppend. destruct (0 <? _); [|intros [= <-]; reflexivity].
  destruct (if NDEBUG bld then _ else _); cbn [bind]; [|discriminate].
  destruct (memcpy _ _ _ _ _); cbn [bind]; [|discriminate].
  intros Hr. apply Resize_fields in Hr.
  destruct Hr as (_ & _ & _ & _ & _ & _ & _ & ->). reflexivity.
Qed.

Lemma reachable_NormFactor (b : AudioBlock T) :
  reachable bld b → mNormFactor b = norm_factor_of T.
Proof.
  induction 1 as
    [ | ? ? ? ? ? _ _ _ Hc
      | b c _ IH Hc
      | b a b' _ _ _ IHa Hc
      | id b _ IH
      | t b _ IH
      | n b b' _ IH _ Hr
      | i x b b' _ IH _ Hr
      | i x b b' _ IH Hr
      | n b b' _ IH _ Hr
      | data n b b' w _ IH _ Hr
      | data n b b' _ IH _ Hr
      | a b b' _ IH _ _ Hr
      | start size src dst dst' _ _ _ IH _ _ Hr ].
  - unfold AudioBlock_default, ComputeNormalizationFactor, norm_factor_of.
    destruct is_Sfloat; reflexivity.
  - revert Hc. unfold AudioBlock_create.
    destruct (Create _ _ _ _ _ _) as [b0|] eqn:Hb0; cbn [bind]; [|discriminate].
    intros [= <-]. unfold ComputeNormalizationFactor, norm_factor_of.
    destruct is_Sfloat; [|reflexivity].
    revert Hb0. unfold Create.
    repeat (destruct (c_assert bld _); cbn [bind]; [|discriminate]).
    change (negb (IsNull (T := T) null_members)) with false. cbv iota.
    destruct (_ =? 0); [discriminate|]. intros [= <-]. reflexivity.
  - revert Hc. unfold AudioBlock_copy.
    destruct (if mCapacity b =? 0 then _ else _); cbn [bind]; [|discriminate].
    intros [= <-]. exact IH.
  - revert Hc. unfold assign, AudioBlock_copy.
    destruct (if mCapacity a =? 0 then _ else _); cbn [bind]; [|discriminate].
    intros [= <-]. exact IHa.
  - exact IH.
  - exact IH.
  - revert Hr. unfold SetChannels.
    destruct (c_assert bld _); cbn [bind]; [|discriminate].
    intros [= <-]. exact IH.
  - revert Hr. unfold subscript_store.
    destruct (c_assert bld _); cbn [bind]; [|discriminate].
    destruct (mData b); [|discriminate].
    destruct (_ && _); [|discriminate]. intros [= <-]. exact IH.
  - revert Hr. unfold Data_store.
    destruct (mData b); [|discriminate].
    destruct (_ && _); [|discriminate]. intros [= <-]. exact IH.
  - apply Resize_fields in Hr.
    destruct Hr as (_ & _ & _ & _ & _ & _ & _ & ->). exact IH.
  - revert Hr. unfold SetData.
    destruct (c_assert bld _); cbn [bind]; [|discriminate].
    destruct (negb (n =? mSize b)).
    + destruct (Resize bld n b) as [b1|] eqn:Hres; cbn [bind]; [|discriminate].
      destruct (memcpy _ _ _ _ _); cbn [bind]; [|discriminate].
      intros [= <- _]. apply Resize_fields in Hres.
      destruct Hres as (_ & _ & _ & _ & _ & _ & _ & Hnf).
      cbn. rewrite Hnf. exact IH.
    + cbn [bind]. destruct (memcpy _ _ _ _ _); cbn [bind]; [|discriminate].
      intros [= <- _]. exact IH.
  - revert Hr. unfold Append. destruct data; [|intros [= <-]; exact IH].
    destruct (n =? 0); [intros [= <-]; exact IH|].
    intros Hr. apply DoAppend_NormFactor in Hr. rewrite Hr. exact IH.
  - revert Hr. unfold Append_block.
    repeat (destruct (c_assert bld _); cbn [bind]; [|discriminate]).
    destruct (_ || _); [intros [= <-]; exact IH|].
    intros Hr. apply DoAppend_NormFactor in Hr. rewrite Hr. exact IH.
  - revert Hr. unfold GetSubBlock.
    destruct (_ || _ || _).
    + intros Hr. apply Resize_fields in Hr.
      destruct Hr as (_ & _ & _ & _ & _ & _ & _ & ->). exact IH.
    + destruct (memcpy _ _ _ _ _); cbn [bind]; [|discriminate].
      intros Hr. apply Resize_fields in Hr.
      destruct Hr as (_ & _ & _ & _ & _ & _ & _ & ->). exact IH.
Qed.

(** X12. The normalisation factor depends on the sample type alone.
    Every block a client reaches has the factor its constructor computed,
    [2^(8*sizeof(T)-1)], or 1 for [Sfloat]: no member changes it, and
    copies and assignments take it over from blocks of the same type. *)
Theorem NormFactor_of_type (b : AudioBlock T) :
  reachable bld b → NormFactor b = norm_factor_of T.
Proof. exact (reachable_NormFactor b). Qed.

End Members.

(** * Normalisation *)

Section Normalising.
Context {T : Type} `{Sample T} `{ToFloat T}.
Variable bld : Build.

Lemma read_sample_within (this : AudioBlock T) (src : list T) (k : nat) x :
  mData this = Some src → src !! k = Some x →
  read_sample this (Z.of_nat k) = Ok x.
Proof.
  intros Hs Hx. unfold read_sample. rewrite Hs, Nat2Z.id, Hx. reflexivity.
Qed.

Lemma normalize_loop_app store is1 is2 (this : AudioBlock T) nblock :
  normalize_loop store (is1 ++ is2) this nblock
  = let* b := normalize_loop store is1 this nblock in
    normalize_loop store is2 this b.
Proof.
  revert nblock. induction is1 as [|i is1 IH]; intros nblock; [reflexivity|].
  cbn [app normalize_loop].
  destruct (read_sample this i); cbn [bind]; [|reflexivity].
  destruct (store i _ nblock); cbn [bind]; [|reflexivity].
  apply IH.
Qed.

(** The loop over the indexes [k, k + m), for a destination written by
    [store] as long as the index is below [limit]. *)
Lemma normalize_loop_stores
    (store : Z → float → AudioBlock float → result Fault (AudioBlock float))
    (limit : AudioBlock float → Z) (this : AudioBlock T) (src : list T) :
  (∀ i x b d, mData b = Some d → 0 ≤ i < Z.of_nat (length d) → i < limit b →
     store i x b = Ok (set_mData (Some (<[Z.to_nat i := x]> d)) b)) →
  (∀ d b, limit (set_mData d b) = limit b) →
  mData this = Some src →
  ∀ (m k : nat) nblock d,
    mData nblock = Some d →
    (k + m ≤ length src)%nat → (k + m ≤ length d)%nat →
    Z.of_nat (k + m) ≤ limit nblock →
    normalize_loop store (seqZ (Z.of_nat k) (Z.of_nat m)) this nblock
    = Ok (set_mData (Some (take k d ++ (normalised this <$> take m (drop k src))
                           ++ drop (k + m) d)) nblock).
Proof.
  intros Hstore Hlimit Hsrc. induction m as [|m IH]; intros k nblock d Hd Hks Hkd Hlim.
  - cbn. rewrite Nat.add_0_r, take_0. cbn. rewrite take_drop.
    destruct nblock; cbn in Hd |- *. rewrite Hd. reflexivity.
  - rewrite seqZ_cons by lia. cbn [normalize_loop].
    destruct (lookup_lt_is_Some_2 src k ltac:(lia)) as [x Hx].
    rewrite (read_sample_within this src k x Hsrc Hx). cbn [bind].
    rewrite (Hstore _ _ _ d Hd) by lia. cbn [bind].
    replace (Z.succ (Z.of_nat k)) with (Z.of_nat (S k)) by lia.
    replace (Z.pred (Z.of_nat (S m))) with (Z.of_nat m) by lia.
    rewrite Nat2Z.id.
    rewrite (IH (S k) _ (<[k := normalised this x]> d)); cycle 1.
    + reflexivity.
    + lia.
    + rewrite length_insert. lia.
    + rewrite Hlimit. lia.
    + unfold set_mData. cbn. do 2 f_equal.
      rewrite (take_S_r _ k (normalised this x))
        by (apply list_lookup_insert_eq; lia).
      rewrite take_insert_ge by lia.
      rewrite drop_insert_lt by lia.
      rewrite (drop_S src x k Hx). cbn.
      rewrite <- app_assoc. cbn.
      replace (S (k + m))%nat with (k + S m)%nat by lia. reflexivity.
Qed.

Lemma subscript_store_stores i x (b : AudioBlock float) d :
  mData b = Some d → 0 ≤ i < Z.of_nat (length d) → i < mSize b →
  subscript_store bld i x b = Ok (set_mData (Some (<[Z.to_nat i := x]> d)) b).
Proof.
  intros Hd Hi Hsz. unfold subscript_store.
  rewrite c_assert_passes
    by (right; apply andb_true_iff; split; [apply Z.leb_le|apply Z.ltb_lt]; lia).
  cbn [bind]. rewrite Hd.
  destruct (Z.leb_spec 0 i); [|lia].
  destruct (Z.ltb_spec i (Z.of_nat (length d))); [|lia]. reflexivity.
Qed.

Lemma Data_store_stores i x (b : AudioBlock float) d :
  mData b = Some d → 0 ≤ i < Z.of_nat (length d) → i < mCapacity b →
  Data_store i x b = Ok (set_mData (Some (<[Z.to_nat i := x]> d)) b).
Proof.
  intros Hd Hi _. unfold Data_store. rewrite Hd.
  destruct (Z.leb_spec 0 i); [|lia].
  destruct (Z.ltb_spec i (Z.of_nat (length d))); [|lia]. reflexivity.
Qed.

(** The destination of [Normalize(nblock)] when the loop starts. *)
Lemma Normalize_into_resized (this : AudioBlock T) (nblock : AudioBlock float) :
  Invariant bld this → Invariant bld nblock → IsNull nblock = false →
  ∃ nb, (if negb (Size nblock =? mSize this) then Resize bld (mSize this) nblock
         else Ok nblock) = Ok nb
        ∧ mSize nb = Z.min (mSize this) (mCapacity nblock)
        ∧ mCapacity nb = mCapacity nblock ∧ mData nb = mData nblock
        ∧ mChannels nb = mChannels nblock ∧ mSampleRate nb = mSampleRate nblock
        ∧ mID nb = mID nblock ∧ mTimestamp nb = mTimestamp nblock.
Proof.
  intros (Hts & _) (Hns & _) Hnn. unfold Size.
  destruct (Z.eqb_spec (mSize nblock) (mSize this)) as [Heq|Hne]; cbn [negb].
  - eexists. split; [reflexivity|]. repeat split; lia.
  - rewrite Resize_exact by (auto; lia). eexists. split; [reflexivity|].
    cbn. repeat split; reflexivity.
Qed.

(** X13. [Normalize(nblock)] into a block that can hold the samples. For
    two reachable blocks that are not null, and a destination whose
    capacity is at least the size of this block, the call returns; the
    destination then has the size of this block, its first samples are
    the samples of this block divided by the normalisation factor, and
    the samples behind them and the other members are as before. *)
Theorem Normalize_into_result (this : AudioBlock T) (nblock : AudioBlock float) :
  reachable bld this → reachable bld nblock →
  IsNull this = false → IsNull nblock = false →
  Size this ≤ Capacity nblock →
  ∃ r, Normalize_into bld nblock this = Ok r
       ∧ Size r = Size this ∧ Capacity r = Capacity nblock
       ∧ samples r
         = (normalised this <$> take (Z.to_nat (Size this)) (samples this))
           ++ drop (Z.to_nat (Size this)) (samples nblock)
       ∧ Channels r = Channels nblock ∧ SampleRate r = SampleRate nblock
       ∧ ID r = ID nblock ∧ Timestamp r = Timestamp nblock.
Proof.
  intros Hthis Hnb Hnt Hnn Hfit.
  apply reachable_Invariant in Hthis. apply reachable_Invariant in Hnb.
  unfold Size, Capacity, Channels, SampleRate, ID, Timestamp in *.
  unfold Normalize_into. rewrite Hnt, Hnn. cbn [negb andb].
  rewrite c_assert_passes by (right; reflexivity). cbn [bind].
  destruct (Normalize_into_resized this nblock Hthis Hnb Hnn)
    as (nb & -> & Hsz & Hcap & Hd & Hch & Hsr & Hid & Hts).
  cbn [bind].
  pose proof (samples_extent bld this Hthis) as Hlt.
  pose proof (samples_extent bld nblock Hnb) as Hln.
  destruct Hthis as (Hts1 & _). 
  rewrite (not_null_samples nblock Hnn) in Hd.
  replace (seqZ 0 (mSize this))
    with (seqZ (Z.of_nat 0) (Z.of_nat (Z.to_nat (mSize this))))
    by (f_equal; lia).
  rewrite (normalize_loop_stores (subscript_store bld) mSize this (samples this)
             subscript_store_stores (λ _ _, eq_refl) (not_null_samples this Hnt)
             _ _ nb (samples nblock) Hd) by lia.
  eexists. split; [reflexivity|].
  unfold samples at 1. cbn. rewrite drop_0.
  repeat split; try assumption; lia.
Qed.

(** X14. [Normalize(nblock)] into a block that is too small. For two
    reachable blocks that are not null, and a destination whose capacity
    is less than the size of this block, the call runs into a fault:
    [Resize] leaves the destination with its capacity as size, and the
    store of the first sample behind it fails the assertion of
    [operator[]] in a debug build and, in a release build, is a store
    past the end of the buffer, which is undefined behaviour. Nothing is
    said of what a release build does after that store. *)
Theorem Normalize_into_overrun (this : AudioBlock T) (nblock : AudioBlock float) :
  reachable bld this → reachable bld nblock →
  IsNull this = false → IsNull nblock = false →
  Capacity nblock < Size this →
  Normalize_into bld nblock this
  = Err (if NDEBUG bld then UndefinedBehaviour else AssertionFailed).
Proof.
  intros Hthis Hnb Hnt Hnn Hfit.
  apply reachable_Invariant in Hthis. apply reachable_Invariant in Hnb.
  unfold Size, Capacity in *.
  unfold Normalize_into. rewrite Hnt, Hnn. cbn [negb andb].
  rewrite c_assert_passes by (right; reflexivity). cbn [bind].
  destruct (Normalize_into_resized this nblock Hthis Hnb Hnn)
    as (nb & -> & Hsz & Hcap & Hd & _).
  cbn [bind].
  pose proof (samples_extent bld this Hthis) as Hlt.
  pose proof (samples_extent bld nblock Hnb) as Hln.
  destruct Hthis as (Hts1 & _). destruct Hnb as (Hns1 & _).
  rewrite (not_null_samples nblock Hnn) in Hd.
  set (c := mCapacity nblock) in *.
  assert (Hsplit : seqZ 0 (mSize this) = seqZ 0 c ++ seqZ (0 + c) (mSize this - c)).
  { rewrite <- seqZ_app by lia. f_equal. lia. }
  rewrite Hsplit, normalize_loop_app.
  replace (seqZ 0 c) with (seqZ (Z.of_nat 0) (Z.of_nat (Z.to_nat c)))
    by (f_equal; lia).
  rewrite (normalize_loop_stores (subscript_store bld) mSize this (samples this)
             subscript_store_stores (λ _ _, eq_refl) (not_null_samples this Hnt)
             _ _ nb (samples nblock) Hd) by lia.
  cbn [bind]. rewrite seqZ_cons by lia. cbn [normalize_loop].
  destruct (lookup_lt_is_Some_2 (samples this) (Z.to_nat c) ltac:(lia)) as [x Hx].
  replace (0 + c) with (Z.of_nat (Z.to_nat c)) by lia.
  rewrite (read_sample_within this _ _ x (not_null_samples this Hnt) Hx).
  cbn [bind]. unfold subscript_store, c_assert. cbn [mSize set_mData mData].
  rewrite Hsz.
  destruct (Z.ltb_spec (Z.of_nat (Z.to_nat c)) (Z.min (mSize this) c)); [lia|].
  rewrite andb_false_r.
  destruct (NDEBUG bld); cbn [bind negb orb]; [|reflexivity].
  match goal with
  | |- context [?a <? ?b] => destruct (Z.ltb_spec a b) as [Hlt'|]
  end.
  - exfalso. revert Hlt'.
    rewrite !length_app, length_fmap, !length_take, !length_drop. lia.
  - rewrite andb_false_r. reflexivity.
Qed.

(** X15. [Normalize()], the generic template. For a reachable block with
    samples, a positive number of channels and a positive sample rate (or
    assertions off), the new block has the least multiple of the channel
    count that is at least [Size()] as capacity and as size: the first
    [Size()] samples are the samples of this block divided by the
    normalisation factor, and the samples behind them, when [Size()] is
    not a multiple of the channel count, are zero. *)
Theorem Normalize_result (this : AudioBlock T) :
  reachable bld this →
  0 < Size this → 0 < Channels this →
  Size this + Channels this ≤ size_t_range bld →
  NDEBUG bld = true ∨ SFltb fzero (SampleRate this) = true →
  ∃ r, Normalize bld this = Ok r
       ∧ Capacity r mod Channels this = 0
       ∧ Size this ≤ Capacity r < Size this + Channels this
       ∧ Size r = Capacity r
       ∧ samples r
         = (normalised this <$> take (Z.to_nat (Size this)) (samples this))
           ++ replicate (Z.to_nat (Capacity r - Size this)) fzero
       ∧ Channels r = Channels this ∧ SampleRate r = SampleRate this.
Proof.
  intros Hthis Hpos Hch Hfit Hrate.
  apply reachable_Invariant in Hthis.
  unfold Size, Capacity, Channels, SampleRate in *.
  pose proof (Invariant_not_null bld this Hthis Hpos) as Hnt.
  unfold Normalize. rewrite Hnt. cbn [negb].
  rewrite c_assert_passes by (right; reflexivity). cbn [bind].
  destruct (AudioBlock_create_returns (T := float) bld (mSize this) (mSampleRate this)
              (mChannels this) (-1) Hpos Hch Hrate) as [nb Hnb].
  rewrite Hnb. cbn [bind].
  destruct (AudioBlock_create_Ok bld _ _ _ _ nb Hnb)
    as (_ & Hcap & Hsz & Hd & Hc & Hsr & _).
  destruct (rounded_capacity bld (mSize this) (mChannels this) ltac:(lia) Hch Hfit)
    as [Hmul Hbound].
  cbv zeta in Hcap, Hsz, Hmul, Hbound.
  set (cap := if negb (mSize this mod mChannels this =? 0) then _ else mSize this) in *.
  change (-1 <? 0) with true in Hsz. cbv iota in Hsz.
  rewrite Z.ltb_irrefl in Hsz.
  pose proof (samples_extent bld this Hthis) as Hlt.
  destruct Hthis as (Hts1 & _).
  replace (seqZ 0 (mSize this))
    with (seqZ (Z.of_nat 0) (Z.of_nat (Z.to_nat (mSize this))))
    by (f_equal; lia).
  rewrite (normalize_loop_stores Data_store mCapacity this (samples this)
             Data_store_stores (λ _ _, eq_refl) (not_null_samples this Hnt)
             _ _ nb _ Hd) by (rewrite ?length_replicate; lia).
  eexists. split; [reflexivity|].
  unfold samples at 1. cbn [set_mData mData mCapacity mSize mChannels mSampleRate
                             default from_option id].
  rewrite Hcap, Hsz, Hc, Hsr, take_0, drop_replicate. cbn [app Nat.add].
  repeat split; try assumption; try lia.
  unfold samples, set_mData. cbn [mData default from_option id].
  rewrite drop_0. change (zero_sample (T := float)) with fzero.
  do 2 f_equal. lia.
Qed.

End Normalising.

Section NormalisingFloat.
Variable bld : Build.

(** X16. [Normalize()] of a block of [Sfloat] samples is a copy. For a
    reachable block with samples, a positive number of channels and a
    positive sample rate (or assertions off), the new block has the
    capacity rounded up to a multiple of the channel count, the size and
    the available samples of this block, and zeros behind them. *)
Theorem Normalize_Sfloat_copies (this : AudioBlock float) :
  reachable bld this →
  0 < Size this → 0 < Channels this →
  Size this + Channels this ≤ size_t_range bld →
  NDEBUG bld = true ∨ SFltb fzero (SampleRate this) = true →
  ∃ r, Normalize_Sfloat bld this = Ok r
       ∧ Capacity r mod Channels this = 0
       ∧ Size this ≤ Capacity r < Size this + Channels this
       ∧ Size r = Size this
       ∧ samples r
         = take (Z.to_nat (Size this)) (samples this)
           ++ replicate (Z.to_nat (Capacity r - Size this)) fzero
       ∧ Channels r = Channels this ∧ SampleRate r = SampleRate this.
Proof.
  intros Hthis Hpos Hch Hfit Hrate.
  apply reachable_Invariant in Hthis.
  unfold Size, Capacity, Channels, SampleRate in *.
  pose proof (Invariant_not_null bld this Hthis Hpos) as Hnt.
  unfold Normalize_Sfloat. rewrite Hnt. cbn [negb].
  rewrite c_assert_passes by (right; reflexivity). cbn [bind].
  destruct (AudioBlock_create_returns (T := float) bld (mSize this) (mSampleRate this)
              (mChannels this) (-1) Hpos Hch Hrate) as [nb Hnb].
  rewrite Hnb. cbn [bind].
  assert (Hrange : 0 ≤ mSize this < size_t_range bld) by lia.
  pose proof (AudioBlock_create_Invariant bld _ _ _ _ nb Hrange Hnb) as Hinv.
  destruct (AudioBlock_create_Ok bld _ _ _ _ nb Hnb)
    as (_ & Hcap & Hsz & Hd & Hc & Hsr & _).
  destruct (rounded_capacity bld (mSize this) (mChannels this) ltac:(lia) Hch Hfit)
    as [Hmul Hbound].
  cbv zeta in Hcap, Hsz, Hmul, Hbound.
  set (cap := if negb (mSize this mod mChannels this =? 0) then _ else mSize this) in *.
  pose proof (samples_extent bld this Hthis) as Hlt.
  destruct Hthis as (Hts1 & _).
  rewrite (not_null_samples this Hnt).
  destruct (SetData_written bld (samples this) (mSize this) nb Hinv ltac:(lia))
    as (r & Hr & Hrsz & Hrcap & Hrd).
  { right. unfold IsNull. rewrite Hd. reflexivity. }
  { lia. }
  rewrite Hr. cbn [bind fst]. exists r. split; [reflexivity|].
  rewrite Hrcap, Hrsz, Hcap.
  assert (Hch' : mChannels r = mChannels this ∧ mSampleRate r = mSampleRate this).
  { revert Hr. unfold SetData.
    destruct (c_assert bld _); cbn [bind]; [|discriminate].
    destruct (negb (mSize this =? mSize nb)).
    - destruct (Resize bld (mSize this) nb) as [b1|] eqn:Hres; cbn [bind]; [|discriminate].
      destruct (memcpy _ _ _ _ _); cbn [bind]; [|discriminate].
      intros [= <- _]. apply Resize_fields in Hres.
      destruct Hres as (_ & _ & _ & _ & Hc1 & Hs1 & _).
      cbn. rewrite Hc1, Hs1. auto.
    - cbn [bind]. destruct (memcpy _ _ _ _ _); cbn [bind]; [|discriminate].
      intros [= <- _]. cbn. auto. }
  destruct Hch' as [-> ->].
  unfold samples at 1. rewrite Hrd, Hd. cbn [fmap option_fmap option_map default from_option id].
  rewrite drop_replicate.
  replace (Z.min (mSize this) (mCapacity nb)) with (mSize this) by lia.
  repeat split; try assumption; try lia.
  do 2 f_equal. lia.
Qed.

End NormalisingFloat.

Section NormalisingS16bit.
Variable bld : Build.

Lemma range_check_sound n x :
  range_check n x = true →
  ∀ y, x ≤ y < x + Z.of_nat n → S16bit_normalises y = true.
Proof.
  revert x. induction n as [|n IH]; intros x Hc y Hy; [lia|].
  cbn [range_check] in Hc. apply andb_true_iff in Hc as [Hx Hrest].
  destruct (Z.eq_dec y x) as [->|Hne]; [exact Hx|].
  apply (IH (x + 1) Hrest). lia.
Qed.

Lemma S16bit_range_checked : range_check (Z.to_nat (2 ^ 16)) (- 2 ^ 15) = true.
Proof. vm_compute. reflexivity. Qed.

Lemma int16_normalises x : int16 x → S16bit_normalises x = true.
Proof.
  intros Hx. apply (range_check_sound _ _ S16bit_range_checked).
  unfold int16 in Hx. rewrite Z2Nat.id by lia. lia.
Qed.

(** X17. A 16-bit sample is normalised into [-1, 1] without rounding.
    For a reachable block of [S16bit] samples and an [int16_t] value [x],
    [x / mNormFactor], as the two [Normalize] members compute it, is at
    least -1 and at most 1, and multiplied by [NormFactor()] it is [x]
    again. *)
Theorem S16bit_normalised_exact (this : AudioBlock Z) (x : Z) :
  reachable bld this → int16 x →
  in_unit_range (normalised this x) = true
  ∧ SFeqb (fmul (normalised this x) (NormFactor this)) (to_float x) = true.
Proof.
  intros Hthis Hx. unfold normalised, NormFactor.
  rewrite (reachable_NormFactor bld this Hthis).
  pose proof (int16_normalises x Hx) as Hn. unfold S16bit_normalises in Hn.
  apply andb_true_iff in Hn. exact Hn.
Qed.

Lemma normalize_loop_Forall (P : float → Prop)
    (store : Z → float → AudioBlock float → result Fault (AudioBlock float))
    (this : AudioBlock Z) :
  (∀ i y b b', store i y b = Ok b' →
     ∃ d, mData b = Some d ∧ mData b' = Some (<[Z.to_nat i := y]> d)) →
  (∀ x, x ∈ samples this → P (normalised this x)) →
  ∀ indexes nblock r,
    Forall P (samples nblock) →
    normalize_loop store indexes this nblock = Ok r →
    Forall P (samples r).
Proof.
  intros Hstore Hsrc. induction indexes as [|i indexes IH]; intros nblock r Hnb.
  - intros [= <-]. exact Hnb.
  - cbn [normalize_loop]. unfold read_sample, samples in *.
    destruct (mData this) as [src|]; [|discriminate].
    destruct (src !! Z.to_nat i) as [x|] eqn:Hx; [|discriminate].
    cbn [bind]. destruct (store i _ nblock) as [b'|] eqn:Hst; cbn [bind]; [|discriminate].
    apply IH. destruct (Hstore _ _ _ _ Hst) as (d & Hd & ->).
    rewrite Hd in Hnb. cbn in Hnb |- *.
    apply Forall_insert; [exact Hnb|].
    apply Hsrc. cbn. eapply list_elem_of_lookup_2, Hx.
Qed.


Lemma S16bit_samples_normalise (this : AudioBlock Z) :
  reachable bld this → Forall int16 (samples this) →
  ∀ x, x ∈ samples this → in_unit_range (normalised this x) = true.
Proof.
  intros Hthis Hall x Hx. unfold normalised.
  rewrite (reachable_NormFactor bld this Hthis).
  rewrite Forall_forall in Hall.
  pose proof (int16_normalises x (Hall x Hx)) as Hn. unfold S16bit_normalises in Hn.
  apply andb_true_iff in Hn. exact (proj1 Hn).
Qed.

(** X18. The two [Normalize] members on 16-bit samples return samples in
    [-1, 1]. For a reachable block of [S16bit] samples holding [int16_t]
    values, every sample of the block [Normalize()] returns is at least
    -1 and at most 1, up to its capacity; and [Normalize(nblock)] leaves
    a destination whose samples were in that range with samples in that
    range. *)
Theorem Normalize_S16bit_unit_range (this : AudioBlock Z) :
  reachable bld this → Forall int16 (samples this) →
  (∀ r, Normalize bld this = Ok r →
        Forall (λ y, in_unit_range y = true) (samples r))
  ∧ (∀ nblock r,
       Forall (λ y, in_unit_range y = true) (samples nblock) →
       Normalize_into bld nblock this = Ok r →
       Forall (λ y, in_unit_range y = true) (samples r)).
Proof.
  intros Hthis Hall.
  pose proof (S16bit_samples_normalise this Hthis Hall) as Hsrc.
  split.
  - intros r. unfold Normalize.
    destruct (c_assert bld _); cbn [bind]; [|discriminate].
    destruct (AudioBlock_create bld _ _ _ _) as [nb|] eqn:Hnb; cbn [bind];
      [|discriminate].
    apply (normalize_loop_Forall _ Data_store this); [|exact Hsrc|].
    + intros i y b b'. unfold Data_store.
      destruct (mData b) as [d|]; [|discriminate].
      destruct (_ && _); [|discriminate]. intros [= <-].
      exists d. split; reflexivity.
    + destruct (AudioBlock_create_Ok bld _ _ _ _ nb Hnb) as (_ & _ & _ & Hd & _).
      unfold samples. rewrite Hd. cbn [default from_option id].
      apply Forall_replicate. reflexivity.
  - intros nblock r Hnb. unfold Normalize_into.
    destruct (c_assert bld _); cbn [bind]; [|discriminate].
    destruct (if negb _ then _ else _) as [nb|] eqn:Hres; cbn [bind]; [|discriminate].
    apply (normalize_loop_Forall _ (subscript_store bld) this); [|exact Hsrc|].
    + intros i y b b'. unfold subscript_store.
      destruct (c_assert bld _); cbn [bind]; [|discriminate].
      destruct (mData b) as [d|]; [|discriminate].
      destruct (_ && _); [|discriminate]. intros [= <-].
      exists d. split; reflexivity.
    + assert (Hd : mData nb = mData nblock).
      { revert Hres. destruct (negb _); [|intros [= <-]; reflexivity].
        intros Hres. apply Resize_fields in Hres.
        destruct Hres as (_ & _ & -> & _). reflexivity. }
      unfold samples in *. rewrite Hd. exact Hnb.
Qed.

End NormalisingS16bit.

(** * The members at concrete blocks *)

(** Five samples asked for two channels, three of them available: the
    block has room for six. *)
Lemma AudioBlock_create_rounds_up_witness :
  ∃ b : AudioBlock Z,
    AudioBlock_create debug64 5 (float_of_size 8000) 2 3 = Ok b
    ∧ Capacity b = 6 ∧ Size b = 3.
Proof.
  destruct (AudioBlock_create_rounds_up (T := Z) debug64 5 (float_of_size 8000) 2 3)
    as (b & Hb & Hmod & Hcap & Hsz & _).
  - lia.
  - lia.
  - unfold size_t_range. simpl. lia.
  - unfold size_t_range. simpl. lia.
  - right. reflexivity.
  - exists b. split; [exact Hb|].
    assert (Hc : Capacity b = 6).
    { destruct (Z.eq_dec (Capacity b) 5) as [E|]; [|lia].
      rewrite E in Hmod. discriminate. }
    split; [exact Hc|]. rewrite Hsz, Hc. reflexivity.
Defined.

(** No sample at all: an assertion failure with assertions on, an empty
    block that is not null with assertions off. *)
Lemma AudioBlock_create_degenerate_witness :
  AudioBlock_create (T := Z) debug64 0 (float_of_size 8000) 1 (-1) = Err AssertionFailed
  ∧ ∃ b : AudioBlock Z,
      AudioBlock_create release64 0 (float_of_size 8000) 1 (-1) = Ok b
      ∧ IsNull b = false ∧ Capacity b = 0.
Proof.
  split.
  - apply (AudioBlock_create_degenerate (T := Z) debug64 0 (float_of_size 8000) 1 (-1));
      [reflexivity|left; lia].
  - destruct (AudioBlock_create_degenerate (T := Z) release64 0 (float_of_size 8000) 1 (-1))
      as (_ & _ & Hempty).
    destruct Hempty as (b & Hb & Hnn & Hc & _); [reflexivity|lia|reflexivity|].
    exists b. repeat split; assumption.
Defined.

(** A resize to three samples does not show in a later resize to two. *)
Lemma Resize_Resize_witness :
  Resize debug64 2 (block_of (Resize debug64 3 mono4)) = Resize debug64 2 mono4.
Proof.
  apply (Resize_Resize debug64 3 2 mono4). reflexivity.
Defined.

(** The third sample of 1, 2, 3, 4 is read; there is no fifth. *)
Lemma subscript_bounds_witness :
  reachable debug64 ramp4
  ∧ subscript debug64 2 ramp4 = Ok 3
  ∧ subscript debug64 4 ramp4 = Err AssertionFailed.
Proof.
  assert (Hsrc : reachable debug64 ramp4).
  { apply (reach_SetData debug64 (Some [1; 2; 3; 4]) 4 mono4 ramp4 4);
      [ constructed 4 (float_of_size 8000) 1 (-1)
      | unfold size_t_range; simpl; lia
      | reflexivity ]. }
  split; [exact Hsrc|].
  destruct (subscript_bounds debug64 2 ramp4 Hsrc) as (Hin & _); [lia|].
  destruct (subscript_bounds debug64 4 ramp4 Hsrc) as (_ & Hout & _); [lia|].
  split.
  - destruct Hin as (x & Hx & Hr); [simpl; lia|].
    injection Hx as <-. exact Hr.
  - apply Hout; [simpl; lia|reflexivity].
Defined.

(** A sample stored at index 1 is the sample read at index 1. *)
Lemma subscript_store_then_read_witness :
  subscript debug64 1 (block_of (subscript_store debug64 1 9 ramp4)) = Ok 9.
Proof.
  apply (subscript_store_then_read debug64 1 9 ramp4). reflexivity.
Defined.

(** The samples 1, 2, 3, 4 set in a block are read back from it. *)
Lemma SetData_then_read_witness :
  reachable debug64 mono4
  ∧ ∃ x, [1; 2; 3; 4] !! 2%nat = Some x ∧ subscript debug64 2 ramp4 = Ok x.
Proof.
  assert (Hreach : reachable debug64 mono4)
    by constructed 4 (float_of_size 8000) 1 (-1).
  split; [exact Hreach|].
  destruct (SetData_then_read debug64 [1; 2; 3; 4] 4 mono4 ramp4 4 Hreach)
    as [_ Hread]; [lia|reflexivity|].
  apply (Hread 2). lia.
Defined.

(** Six samples appended to a block with room for two: the capacity and
    the two available samples stay. *)
Lemma Append_keeps_available_witness :
  reachable debug64 stereo4
  ∧ ∃ b', Append debug64 (Some [11; 12; 13; 14; 15; 16]) 6 stereo4 = Ok b'
          ∧ Capacity b' = Capacity stereo4
          ∧ Size stereo4 ≤ Size b' ≤ Capacity stereo4.
Proof.
  assert (Hreach : reachable debug64 stereo4)
    by constructed 4 (float_of_size 8000) 2 2.
  split; [exact Hreach|].
  eexists. split; [reflexivity|].
  destruct (Append_keeps_available debug64 (Some [11; 12; 13; 14; 15; 16]) 6 stereo4 _
              Hreach ltac:(lia) eq_refl) as (Hc & Hs & _).
  split; assumption.
Defined.

(** Two samples and then one, appended to an empty block of four, are the
    three samples appended at once. *)
Lemma Append_Append_witness :
  reachable debug64 empty4
  ∧ Append debug64 (Some [1; 2; 3]) 3 empty4
    = Append debug64 (Some [3]) 1 (block_of (Append debug64 (Some [1; 2]) 2 empty4)).
Proof.
  assert (Hreach : reachable debug64 empty4)
    by constructed 4 (float_of_size 8000) 1 0.
  split; [exact Hreach|].
  apply (Append_Append debug64 [1; 2] [3] 2 1 empty4
           (block_of (Append debug64 (Some [1; 2]) 2 empty4)) _ Hreach);
    [reflexivity|simpl; lia|reflexivity|reflexivity].
Defined.

(** A full block of two channels appended to a block of two channels with
    room for two samples: two are taken. *)
Lemma Append_block_appends_witness :
  reachable debug64 pairs4 ∧ reachable debug64 stereo4
  ∧ ∃ b', Append_block debug64 pairs4 stereo4 = Ok b'
          ∧ Size b' = 4 ∧ samples b' = [0; 0; 5; 6].
Proof.
  assert (Hb : reachable debug64 stereo4)
    by constructed 4 (float_of_size 8000) 2 2.
  assert (Ha : reachable debug64 pairs4).
  { apply (reach_SetData debug64 (Some [5; 6; 7; 8]) 4 stereo4 pairs4 4);
      [ exact Hb | unfold size_t_range; simpl; lia | reflexivity ]. }
  split; [exact Ha|]. split; [exact Hb|].
  destruct (Append_block_appends debug64 pairs4 stereo4 Ha Hb)
    as (b' & Hr & Hs & _ & Hd).
  - right. repeat split; reflexivity.
  - right. right. right. split; [discriminate|reflexivity].
  - exists b'. split; [exact Hr|]. split; [exact Hs|].
    rewrite Hd, Hs. reflexivity.
Defined.

(** Two samples from offset 1 of the block 1, 2, 3, 4, appended to an
    empty block. *)
Lemma GetSubBlock_then_Append_witness :
  reachable debug64 ramp4 ∧ reachable debug64 mono2 ∧ reachable debug64 empty4
  ∧ ∃ dst' out',
      GetSubBlock debug64 1 2 mono2 ramp4 = Ok dst'
      ∧ Append_block debug64 dst' empty4 = Ok out'
      ∧ Size out' = 2 ∧ take 2 (samples out') = [2; 3].
Proof.
  assert (Hsrc : reachable debug64 ramp4).
  { apply (reach_SetData debug64 (Some [1; 2; 3; 4]) 4 mono4 ramp4 4);
      [ constructed 4 (float_of_size 8000) 1 (-1)
      | unfold size_t_range; simpl; lia
      | reflexivity ]. }
  assert (Hdst : reachable debug64 mono2)
    by constructed 2 (float_of_size 8000) 1 (-1).
  assert (Hout : reachable debug64 empty4)
    by constructed 4 (float_of_size 8000) 1 0.
  split; [exact Hsrc|]. split; [exact Hdst|]. split; [exact Hout|].
  destruct (GetSubBlock_then_Append debug64 ramp4 mono2 empty4 1 2 Hsrc Hdst Hout)
    as (dst' & out' & Hget & Happ & Hs & Hd).
  - reflexivity.
  - reflexivity.
  - reflexivity.
  - change (Size ramp4) with 4. lia.
  - lia.
  - change (Size ramp4) with 4. change (Capacity mono2) with 2. lia.
  - change (Size ramp4) with 4. change (Size empty4) with 0.
    change (Capacity empty4) with 4. lia.
  - right. change (Channels mono2) with 1. change (Channels empty4) with 1.
    repeat split; try reflexivity; discriminate.
  - exists dst', out'. split; [exact Hget|]. split; [exact Happ|].
    split; [exact Hs|]. rewrite Hs in Hd. exact Hd.
Defined.

(** The block 1, 2, 3, 4 is full: its duration is that of its size, and
    its maximum duration. *)
Lemma Duration_follows_Size_witness :
  reachable_keeping_channels debug64 ramp4
  ∧ Duration ramp4 = duration_of (Size ramp4) ramp4
  ∧ Duration ramp4 = MaxDuration ramp4.
Proof.
  assert (Hreach : reachable_keeping_channels debug64 ramp4).
  { apply (keep_SetData debug64 (Some [1; 2; 3; 4]) 4 mono4 ramp4 4);
      [ apply (keep_create debug64 4 (float_of_size 8000) 1 (-1));
        [ unfold size_t_range; simpl; lia
        | unfold size_t_range; simpl; lia
        | lia
        | reflexivity ]
      | unfold size_t_range; simpl; lia
      | reflexivity ]. }
  split; [exact Hreach|].
  destruct (Duration_follows_Size debug64 ramp4 Hreach eq_refl) as [Hd Hmax].
  split; [exact Hd|]. apply Hmax. reflexivity.
Defined.

(** The factor of a block of 16-bit samples is 2^15. *)
Lemma NormFactor_of_type_witness :
  reachable debug64 ramp4 ∧ NormFactor ramp4 = fpow2 15.
Proof.
  assert (Hsrc : reachable debug64 ramp4).
  { apply (reach_SetData debug64 (Some [1; 2; 3; 4]) 4 mono4 ramp4 4);
      [ constructed 4 (float_of_size 8000) 1 (-1)
      | unfold size_t_range; simpl; lia
      | reflexivity ]. }
  split; [exact Hsrc|].
  exact (NormFactor_of_type debug64 ramp4 Hsrc).
Defined.

(** The block 1, 2, 3, 4 normalised into a block of four samples. *)
Lemma Normalize_into_result_witness :
  reachable debug64 ramp4 ∧ reachable debug64 fmono4
  ∧ ∃ r, Normalize_into debug64 fmono4 ramp4 = Ok r
         ∧ Size r = 4
         ∧ samples r = normalised ramp4 <$> [1; 2; 3; 4].
Proof.
  assert (Hsrc : reachable debug64 ramp4).
  { apply (reach_SetData debug64 (Some [1; 2; 3; 4]) 4 mono4 ramp4 4);
      [ constructed 4 (float_of_size 8000) 1 (-1)
      | unfold size_t_range; simpl; lia
      | reflexivity ]. }
  assert (Hdst : reachable debug64 fmono4)
    by constructed 4 (float_of_size 8000) 1 (-1).
  split; [exact Hsrc|]. split; [exact Hdst|].
  destruct (Normalize_into_result debug64 ramp4 fmono4 Hsrc Hdst)
    as (r & Hr & Hs & _ & Hd & _); [reflexivity|reflexivity|simpl; lia|].
  exists r. split; [exact Hr|]. split; [exact Hs|]. rewrite Hd. reflexivity.
Defined.

(** The block 1, 2, 3, 4 normalised into a block of two samples stops on
    the assertion of the third store. *)
Lemma Normalize_into_overrun_witness :
  reachable debug64 ramp4 ∧ reachable debug64 fmono2
  ∧ Normalize_into debug64 fmono2 ramp4 = Err AssertionFailed.
Proof.
  assert (Hsrc : reachable debug64 ramp4).
  { apply (reach_SetData debug64 (Some [1; 2; 3; 4]) 4 mono4 ramp4 4);
      [ constructed 4 (float_of_size 8000) 1 (-1)
      | unfold size_t_range; simpl; lia
      | reflexivity ]. }
  assert (Hdst : reachable debug64 fmono2)
    by constructed 2 (float_of_size 8000) 1 (-1).
  split; [exact Hsrc|]. split; [exact Hdst|].
  apply (Normalize_into_overrun debug64 ramp4 fmono2 Hsrc Hdst);
    [reflexivity|reflexivity|simpl; lia].
Defined.

(** Three samples of two channels: the normalised block has four. *)
Lemma Normalize_result_witness :
  reachable debug64 stereo3 ∧ Size stereo3 = 3
  ∧ ∃ r, Normalize debug64 stereo3 = Ok r ∧ Size r = 4.
Proof.
  assert (Hsrc : reachable debug64 stereo3)
    by constructed 3 (float_of_size 8000) 2 3.
  split; [exact Hsrc|]. split; [reflexivity|].
  destruct (Normalize_result debug64 stereo3 Hsrc)
    as (r & Hr & Hmod & Hcap & Hs & _).
  - change (Size stereo3) with 3. lia.
  - change (Channels stereo3) with 2. lia.
  - change (Size stereo3) with 3. change (Channels stereo3) with 2.
    unfold size_t_range. simpl. lia.
  - right. reflexivity.
  - exists r. split; [exact Hr|].
    change (Channels stereo3) with 2 in Hmod, Hcap.
    change (Size stereo3) with 3 in Hcap.
    destruct (Z.eq_dec (Capacity r) 3) as [E|]; [|lia].
    rewrite E in Hmod. discriminate.
Defined.

(** A block of four [Sfloat] samples is copied with its size. *)
Lemma Normalize_Sfloat_copies_witness :
  reachable debug64 fmono4
  ∧ ∃ r, Normalize_Sfloat debug64 fmono4 = Ok r
         ∧ Size r = 4 ∧ Capacity r = 4.
Proof.
  assert (Hsrc : reachable debug64 fmono4)
    by constructed 4 (float_of_size 8000) 1 (-1).
  split; [exact Hsrc|].
  destruct (Normalize_Sfloat_copies debug64 fmono4 Hsrc)
    as (r & Hr & Hmod & Hcap & Hs & _).
  - change (Size fmono4) with 4. lia.
  - change (Channels fmono4) with 1. lia.
  - change (Size fmono4) with 4. change (Channels fmono4) with 1.
    unfold size_t_range. simpl. lia.
  - right. reflexivity.
  - exists r. split; [exact Hr|].
    change (Channels fmono4) with 1 in Hmod, Hcap.
    change (Size fmono4) with 4 in Hcap, Hs. lia.
Defined.

(** The least 16-bit sample is normalised to -1. *)
Lemma S16bit_normalised_exact_witness :
  reachable debug64 ramp4 ∧ int16 (- 32768)
  ∧ in_unit_range (normalised ramp4 (- 32768)) = true.
Proof.
  assert (Hsrc : reachable debug64 ramp4).
  { apply (reach_SetData debug64 (Some [1; 2; 3; 4]) 4 mono4 ramp4 4);
      [ constructed 4 (float_of_size 8000) 1 (-1)
      | unfold size_t_range; simpl; lia
      | reflexivity ]. }
  assert (Hx : int16 (- 32768)) by (unfold int16; lia).
  split; [exact Hsrc|]. split; [exact Hx|].
  exact (proj1 (S16bit_normalised_exact debug64 ramp4 (- 32768) Hsrc Hx)).
Defined.

(** The block 1, 2, 3, 4 normalised: all samples in [-1, 1]. *)
Lemma Normalize_S16bit_unit_range_witness :
  reachable debug64 ramp4 ∧ Forall int16 (samples ramp4)
  ∧ ∃ r, Normalize debug64 ramp4 = Ok r
         ∧ Forall (λ y, in_unit_range y = true) (samples r).
Proof.
  assert (Hsrc : reachable debug64 ramp4).
  { apply (reach_SetData debug64 (Some [1; 2; 3; 4]) 4 mono4 ramp4 4);
      [ constructed 4 (float_of_size 8000) 1 (-1)
      | unfold size_t_range; simpl; lia
      | reflexivity ]. }
  assert (Hall : Forall int16 (samples ramp4)).
  { change (samples ramp4) with [1; 2; 3; 4].
    repeat (constructor; [unfold int16; lia|]). constructor. }
  split; [exact Hsrc|]. split; [exact Hall|].
  eexists. split; [reflexivity|].
  apply (proj1 (Normalize_S16bit_unit_range debug64 ramp4 Hsrc Hall)).
  reflexivity.
Defined.

End AudioBlockMore.
